(** * Variant resolution for a recursive product-line configuration

    A shallow embedding of [main.py]: feature lookup, configuration parsing,
    the mapping model (variation points and their ordered variants), the
    per-configuration specialisation of the mapping model, variant
    resolution and the template map.

    Python values are modelled as follows.
    - [str] is [string]; [None] in a [str]-typed position is [option string].
    - An exception is a value of [exn]; a function that may raise returns
      [result A], and sequencing is the bind of that monad, so a raise
      abandons the rest of the function exactly as an uncaught exception does.
    - A [dict] whose iteration order is observed (the mapping model) is an
      insertion-ordered association list [pydict]; a [dict] that is only
      looked up (configuration elements, attribute tables, XML attributes,
      the template map) is a [gmap].
    - Objects that are mutated after [copy.deepcopy] are modelled twice: by
      value in the main development, and in [Module Store] as records in an
      explicit object store, where aliasing can be stated. *)

From stdpp Require Import base option list strings gmap.
From Stdlib Require Import Ascii ZArith DecimalString.

Open Scope string_scope.
Open Scope list_scope.

(** ** Exceptions and the result monad *)

(** [UnknownFeature n] is the [Exception] raised by [get_feature_from_fm];
    [KeyError k] is a failed subscript [d[k]]; [AttributeError] is a method
    call on [None]. *)
Inductive exn : Type :=
  | UnknownFeature (name : string)
  | KeyError (key : string)
  | AttributeError.

Inductive result (A : Type) : Type :=
  | Ok (a : A)
  | Raise (e : exn).
Arguments Ok {A} a.
Arguments Raise {A} e.

#[global] Instance exn_eq_dec : EqDecision exn.
Proof. solve_decision. Defined.

#[global] Instance result_eq_dec {A} `{EqDecision A} : EqDecision (result A).
Proof. solve_decision. Defined.

#[global] Instance result_ret : MRet result := λ A a, Ok a.
#[global] Instance result_bind : MBind result := λ A B f m,
  match m with
  | Ok a => f a
  | Raise e => Raise e
  end.

(** A [for] loop that threads the loop state and stops at the first raise. *)
Fixpoint foldM {A B : Type} (f : B → A → result B) (b : B) (l : list A) : result B :=
  match l with
  | [] => Ok b
  | x :: l' => b' ← f b x; foldM f b' l'
  end.

(** A loop (or comprehension) that builds one output per element. *)
Fixpoint forM {A B : Type} (f : A → result B) (l : list A) : result (list B) :=
  match l with
  | [] => Ok []
  | x :: l' => y ← f x; ys ← forM f l'; Ok (y :: ys)
  end.

(** ** Python strings *)

(** [c in s] for a one-character [c]. *)
Fixpoint in_str (c : ascii) (s : string) : bool :=
  match s with
  | EmptyString => false
  | String a s' => if decide (a = c) then true else in_str c s'
  end.

(** [s[:s.index(c)]]: the text before the first [c]. It is used only under
    [c in s], where [index] does not raise. *)
Fixpoint str_before (c : ascii) (s : string) : string :=
  match s with
  | EmptyString => EmptyString
  | String a s' => if decide (a = c) then EmptyString else String a (str_before c s')
  end.

(** [str(z)], as an f-string formats an [int]. *)
Definition str_of_int (z : Z) : string := NilZero.string_of_int (Z.to_int z).

(** [s.replace(old, new)] for a non-empty [old]: scan left to right; at an
    occurrence of [old] emit [new] and skip the occurrence ([skip] counts
    the characters of it still to drop), otherwise copy one character. *)
Fixpoint replace_from (old new : string) (skip : nat) (s : string) : string :=
  match s with
  | EmptyString => EmptyString
  | String a s' =>
      match skip with
      | S k => replace_from old new k s'
      | O =>
          if String.prefix old s
          then new +:+ replace_from old new (String.length old - 1) s'
          else String a (replace_from old new 0 s')
      end
  end.

(** With an empty [old] Python inserts [new] before every character and at
    the end. *)
Fixpoint intersperse_str (new s : string) : string :=
  match s with
  | EmptyString => new
  | String a s' => new +:+ String a (intersperse_str new s')
  end.

Definition str_replace (old new s : string) : string :=
  match old with
  | EmptyString => intersperse_str new s
  | String _ _ => replace_from old new 0 s
  end.

(** [sep.join(parts)] for a non-empty list: the text with the given
    separator between consecutive parts. *)
Fixpoint str_join (sep : string) (p : string) (ps : list string) : string :=
  match ps with
  | [] => p
  | q :: qs => p +:+ sep +:+ str_join sep q qs
  end.

(** ** Insertion-ordered dictionaries *)

Module PyDict.

Definition pydict (V : Type) : Type := list (string * V).

Section ops.
Context {V : Type}.

(** [d.get(k)], also the test part of [d[k]]. *)
Fixpoint get (k : string) (d : pydict V) : option V :=
  match d with
  | [] => None
  | (k', v) :: d' => if decide (k' = k) then Some v else get k d'
  end.

(** [k in d] *)
Definition mem (k : string) (d : pydict V) : bool :=
  match get k d with Some _ => true | None => false end.

(** [d[k] = v]: an existing key keeps its position, a new key goes last. *)
Fixpoint set (k : string) (v : V) (d : pydict V) : pydict V :=
  match d with
  | [] => [(k, v)]
  | (k', v') :: d' =>
      if decide (k' = k) then (k, v) :: d' else (k', v') :: set k v d'
  end.

(** [d.values()] and [d.keys()], in iteration order. *)
Definition values (d : pydict V) : list V := d.*2.
Definition keys (d : pydict V) : list string := d.*1.
End ops.

End PyDict.
Import PyDict.

(** ** Data model *)

(** A feature of the feature model. The feature-model library compares and
    hashes features by name, so a feature is identified with its name. *)
Abbreviation Feature := string (only parsing).

(** The feature model, as far as this program uses it: its features. *)
Record FeatureModel : Type := { fm_features : list Feature }.

(** [fm.get_feature_by_name(name)]: the first feature with that name, or
    [None]. *)
Definition get_feature_by_name (fm : FeatureModel) (name : string) : option Feature :=
  head (filter (λ f, f = name) (fm_features fm)).

(** [Configuration(elements=...)]: feature to selected flag. *)
Record Configuration : Type := { elements : gmap Feature bool }.

(** Modelled from the spec: the module [variation_point] (classes [Variant]
    and [VariationPoint]) is not among the sources. A variant is
    [{identifier, value}] with [value] a string or null; a variation point is
    [{feature, handler, variants}] and is created with an empty variant
    list, which is its own (not shared with other variation points). *)
Record Variant : Type := { identifier : string; value : option string }.

Record VariationPoint : Type :=
  { feature : Feature; handler : string; variants : list Variant }.

#[global] Instance Variant_eq_dec : EqDecision Variant.
Proof. solve_decision. Defined.
#[global] Instance VariationPoint_eq_dec : EqDecision VariationPoint.
Proof. solve_decision. Defined.

(** A child element of the root of a configuration file: its XML
    attributes. *)
Record Element : Type := { attrib : gmap string string }.

(** A row of the mapping-model CSV, by column. *)
Record Row : Type :=
  { VariationPointFeature : string;
    Handler : string;
    VariantIdentifier : string;
    VariantValue : string }.

(** A value of the template map: [True], a string, or [None]. *)
Inductive pyval : Type :=
  | PyTrue
  | PyStr (s : string)
  | PyNone.

Definition pyval_of (o : option string) : pyval :=
  match o with Some s => PyStr s | None => PyNone end.

#[global] Instance pyval_eq_dec : EqDecision pyval.
Proof. solve_decision. Defined.

(** ** The program *)

(** [get_feature_from_fm] (the [print] is not modelled). *)
Definition get_feature_from_fm (feature_name : string) (fm : FeatureModel) : result Feature :=
  match get_feature_by_name fm feature_name with
  | Some feature => Ok feature
  | None => Raise (UnknownFeature feature_name)
  end.

(** The selection flag computed for one child element in
    [parse_configuration]. *)
Definition feature_selected (a : gmap string string) : bool :=
  match a !! "automatic" with
  | Some v => bool_decide (v = "selected")
  | None =>
      match a !! "manual" with
      | Some v => bool_decide (v = "selected")
      | None => false
      end
  end.

(** One iteration of the loop of [parse_configuration]. *)
Definition parse_configuration_step (fm : FeatureModel)
    (features : gmap Feature bool) (child : Element) : result (gmap Feature bool) :=
  if decide (attrib child = ∅) then Ok features
  else
    match attrib child !! "name" with
    | None => Raise (KeyError "name")
    | Some feature_name =>
        let selected := feature_selected (attrib child) in
        feature_object ← get_feature_from_fm feature_name fm;
        Ok (<[feature_object := selected]> features)
    end.

(** [parse_configuration], from the children of the parsed root element. *)
Definition parse_configuration (root : list Element) (fm : FeatureModel) : result Configuration :=
  features ← foldM (parse_configuration_step fm) ∅ root;
  Ok {| elements := features |}.

(** One iteration of the loop of [load_mapping_model]. *)
Definition load_mapping_model_step (fm : FeatureModel)
    (variation_points : pydict VariationPoint) (row : Row) : result (pydict VariationPoint) :=
  let vp_feature := VariationPointFeature row in
  let vp_handler := Handler row in
  let variant_feature := VariantIdentifier row in
  let variant_value := VariantValue row in
  '(key, variation_points) ←
    (if in_str "."%char variant_feature then
       f ← get_feature_from_fm vp_feature fm;
       Ok (variant_feature,
           set variant_feature
             {| feature := f; handler := vp_handler; variants := [] |}
             variation_points)
     else if negb (mem vp_feature variation_points) then
       f ← get_feature_from_fm vp_feature fm;
       Ok (vp_feature,
           set vp_feature
             {| feature := f; handler := vp_handler; variants := [] |}
             variation_points)
     else Ok (vp_feature, variation_points));
  let variant_value :=
    if decide (variant_value = "-") then None else Some variant_value in
  let variant := {| identifier := variant_feature; value := variant_value |} in
  match get key variation_points with
  | None => Raise (KeyError key)
  | Some vp =>
      Ok (set key
            {| feature := feature vp; handler := handler vp;
               variants := variants vp ++ [variant] |}
            variation_points)
  end.

(** [load_mapping_model], from the rows of the CSV in file order. *)
Definition load_mapping_model (rows : list Row) (fm : FeatureModel) : result (pydict VariationPoint) :=
  foldM (load_mapping_model_step fm) [] rows.

(** The body of the inner loop of [mapping_model_by_configurations]:
    [variant.value = variant.value.replace('Expr', f'Expr{i}')]. *)
Definition specialize_variant (i : nat) (variant : Variant) : result Variant :=
  match value variant with
  | None => Raise AttributeError
  | Some s =>
      Ok {| identifier := identifier variant;
            value := Some (str_replace "Expr" ("Expr" +:+ str_of_int (Z.of_nat i)) s) |}
  end.

(** The body of the loop over the items of the copy, for one variation
    point [v]. *)
Definition specialize_variation_point (i : nat) (v : VariationPoint) : result VariationPoint :=
  if decide (handler v = "Expr") then
    let h :=
      if decide (i ≠ 0) then handler v +:+ str_of_int (Z.of_nat i - 1)%Z else handler v in
    vs ← forM (specialize_variant i) (variants v);
    Ok {| feature := feature v; handler := h; variants := vs |}
  else Ok v.

(** The body of the outer loop of [mapping_model_by_configurations] for the
    configuration at index [i]: the copy of the mapping model and its
    rewriting. By value, [copy.deepcopy] is the identity; [rec_features] is
    computed and never used. *)
Definition specialize (mapping_model : pydict VariationPoint) (i : nat) : result (pydict VariationPoint) :=
  forM (λ '(k, v), v' ← specialize_variation_point i v; Ok (k, v')) mapping_model.

(** [enumerate(l)], from a start index. *)
Fixpoint enumerate_from {A : Type} (i : nat) (l : list A) : list (nat * A) :=
  match l with
  | [] => []
  | x :: l' => (i, x) :: enumerate_from (S i) l'
  end.

Definition mapping_model_by_configurations (mapping_model : pydict VariationPoint)
    (configurations : list Configuration) : result (list (pydict VariationPoint)) :=
  forM (λ '(i, config), specialize mapping_model i) (enumerate_from 0 configurations).

(** [feature in config.elements and config.elements[feature]] *)
Definition selected_in (feature : Feature) (config : Configuration) : bool :=
  match elements config !! feature with
  | Some b => b
  | None => false
  end.

Definition is_selected_in_a_configuration (feature : Feature)
    (configurations : list Configuration) : bool :=
  existsb (selected_in feature) configurations.

Fixpoint get_attribute_value (identifier : string)
    (attributes : list (gmap string string)) : option string :=
  match attributes with
  | [] => None
  | attributes_dict :: rest =>
      match attributes_dict !! identifier with
      | Some v => Some v
      | None => get_attribute_value identifier rest
      end
  end.

(** The guard feature name and the candidate value of a variant, as the
    loop body of [get_variant_value] computes them. *)
Definition guard_name (variant : Variant) : string :=
  if in_str "."%char (identifier variant)
  then str_before "."%char (identifier variant)
  else identifier variant.

Definition candidate_value (variant : Variant)
    (attributes : list (gmap string string)) : option string :=
  if in_str "."%char (identifier variant)
  then get_attribute_value (identifier variant) attributes
  else value variant.

(** The loop of [get_variant_value] over the variants still to try. *)
Fixpoint get_variant_value_loop (fm : FeatureModel) (vs : list Variant)
    (configurations : list Configuration)
    (attributes : list (gmap string string)) : result (option string) :=
  match vs with
  | [] => Ok None
  | variant :: rest =>
      let feature := guard_name variant in
      let value := candidate_value variant attributes in
      f ← get_feature_from_fm feature fm;
      if is_selected_in_a_configuration f configurations then Ok value
      else get_variant_value_loop fm rest configurations attributes
  end.

Definition get_variant_value (fm : FeatureModel) (variation_point : VariationPoint)
    (configurations : list Configuration)
    (attributes : list (gmap string string)) : result (option string) :=
  get_variant_value_loop fm (variants variation_point) configurations attributes.

(** The single-configuration variant, with one attribute table. *)
Fixpoint get_variant_value_in_configuration_loop (fm : FeatureModel) (vs : list Variant)
    (configuration : Configuration) (attributes : gmap string string) : result (option string) :=
  match vs with
  | [] => Ok None
  | variant :: rest =>
      let value :=
        if in_str "."%char (identifier variant)
        then attributes !! identifier variant
        else value variant in
      f ← get_feature_from_fm (guard_name variant) fm;
      if selected_in f configuration then Ok value
      else get_variant_value_in_configuration_loop fm rest configuration attributes
  end.

Definition get_variant_value_in_configuration (fm : FeatureModel)
    (variation_point : VariationPoint) (configuration : Configuration)
    (attributes : gmap string string) : result (option string) :=
  get_variant_value_in_configuration_loop fm (variants variation_point) configuration attributes.

(** One iteration of the loop of [build_template_maps]. *)
Definition build_template_maps_step (fm : FeatureModel)
    (configurations : list Configuration) (attributes : list (gmap string string))
    (maps : gmap string pyval) (vp : VariationPoint) : result (gmap string pyval) :=
  if negb (in_str "."%char (handler vp)) then
    if is_selected_in_a_configuration (feature vp) configurations then
      match variants vp with
      | [] => Ok (<[handler vp := PyTrue]> maps)
      | first :: _ =>
          if decide (identifier first = "-") then Ok (<[handler vp := PyTrue]> maps)
          else
            v ← get_variant_value fm vp configurations attributes;
            Ok (<[handler vp := pyval_of v]> maps)
      end
    else Ok maps
  else Ok maps.

Definition build_template_maps (fm : FeatureModel) (mapping_model : pydict VariationPoint)
    (configurations : list Configuration)
    (attributes : list (gmap string string)) : result (gmap string pyval) :=
  foldM (build_template_maps_step fm configurations attributes) ∅ (values mapping_model).

(** ** Specification vocabulary *)

(** The guard of a variant is satisfied when the feature it names is
    selected in some supplied configuration. *)
Definition guard_satisfied (configurations : list Configuration) (variant : Variant) : bool :=
  is_selected_in_a_configuration (guard_name variant) configurations.

(** A variant that the loop passes over: its guard names a feature of the
    model and is not satisfied. *)
Definition passed_over (fm : FeatureModel) (configurations : list Configuration)
    (variant : Variant) : Prop :=
  guard_name variant ∈ fm_features fm ∧ guard_satisfied configurations variant = false.

(** [occurs pat s]: [pat] occurs in [s] at some position. *)
Fixpoint occurs (pat s : string) : bool :=
  match s with
  | EmptyString => String.prefix pat EmptyString
  | String _ s' => String.prefix pat s || occurs pat s'
  end.

(** The handler and the replacement text that configuration index [i]
    gives to the ["Expr"] family: the handler uses [i-1] (and index 0 keeps
    the bare name), the values use [i]. *)
Definition Expr_handler (i : nat) : string :=
  match i with
  | O => "Expr"
  | S j => "Expr" +:+ str_of_int (Z.of_nat j)
  end.

Definition Expr_token (i : nat) : string := "Expr" +:+ str_of_int (Z.of_nat i).

(** A variant with a null value under a variation point handled by
    ["Expr"]. *)
Definition null_under_Expr (mapping_model : pydict VariationPoint) : Prop :=
  ∃ k vp variant,
    (k, vp) ∈ mapping_model ∧ handler vp = "Expr"
    ∧ variant ∈ variants vp ∧ value variant = None.

(** A row is dotted when its variant identifier names an attribute. *)
Definition row_dotted (row : Row) : bool := in_str "."%char (VariantIdentifier row).

(** The key under which a row files its variant. *)
Definition row_key (row : Row) : string :=
  if row_dotted row then VariantIdentifier row else VariationPointFeature row.

(** The variant a row declares, with the ["-"] value normalised to null. *)
Definition row_variant (row : Row) : Variant :=
  {| identifier := VariantIdentifier row;
     value := if decide (VariantValue row = "-") then None else Some (VariantValue row) |}.

(** Of the rows filed under one key, those that the variation point stored
    under that key reflects: the rows from the last dotted row on, or all of
    them when none is dotted. *)
Fixpoint since_last_dotted (rows : list Row) : list Row :=
  match rows with
  | [] => []
  | r :: t => if existsb row_dotted t then since_last_dotted t else r :: t
  end.

Definition current_rows (k : string) (rows : list Row) : list Row :=
  since_last_dotted (filter (λ r, row_key r = k) rows).

(** The variation point that a non-empty run of rows describes: governed
    and handled as its first row says, with one variant per row in row
    order. *)
Definition variation_point_of_rows (rows : list Row) : option VariationPoint :=
  match rows with
  | [] => None
  | r :: _ =>
      Some {| feature := VariationPointFeature r; handler := Handler r;
              variants := row_variant <$> rows |}
  end.

(** The variation point that a row leaves under its key: a new one holding
    the row's variant when the row is dotted or the key is absent, the
    existing one with the variant appended otherwise. *)
Definition row_result (variation_points : pydict VariationPoint) (row : Row) : VariationPoint :=
  match (if row_dotted row then None else get (row_key row) variation_points) with
  | None =>
      {| feature := VariationPointFeature row; handler := Handler row;
         variants := [row_variant row] |}
  | Some vp =>
      {| feature := feature vp; handler := handler vp;
         variants := variants vp ++ [row_variant row] |}
  end.

(** The selection rule of a configuration record, by precedence: an
    explicit [automatic] attribute decides; else an explicit [manual]
    attribute decides; else the feature is not selected. *)
Inductive selection_rule (a : gmap string string) : bool → Prop :=
  | selection_automatic (v : string) :
      a !! "automatic" = Some v →
      selection_rule a (bool_decide (v = "selected"))
  | selection_manual (v : string) :
      a !! "automatic" = None → a !! "manual" = Some v →
      selection_rule a (bool_decide (v = "selected"))
  | selection_default :
      a !! "automatic" = None → a !! "manual" = None →
      selection_rule a false.

(** The records of a configuration file that name a given feature. *)
Definition records_of (f : Feature) (root : list Element) : list Element :=
  filter (λ child, attrib child !! "name" = Some f) root.

(** A variation point that the template map builder skips: its handler
    contains ['.'], or its governing feature is selected in no supplied
    configuration. *)
Definition vp_skipped (configurations : list Configuration) (vp : VariationPoint) : bool :=
  in_str "."%char (handler vp)
  || negb (is_selected_in_a_configuration (feature vp) configurations).

(** A variation point that only flags presence: it has no variants, or its
    first variant's identifier is the literal ["-"]. *)
Definition presence_only (vp : VariationPoint) : bool :=
  match variants vp with
  | [] => true
  | first :: _ => bool_decide (identifier first = "-")
  end.

(** The variation points, in iteration order, that write the entry of a
    given handler. *)
Definition writers (configurations : list Configuration) (h : string)
    (vps : list VariationPoint) : list VariationPoint :=
  filter (λ vp, handler vp = h ∧ vp_skipped configurations vp = false) vps.

(** The entry that the template map holds for a handler, given the last
    variation point that writes it (if any). *)
Definition entry_rule (fm : FeatureModel) (configurations : list Configuration)
    (attributes : list (gmap string string)) (maps : gmap string pyval)
    (h : string) (writer : option VariationPoint) : Prop :=
  match writer with
  | None => maps !! h = None
  | Some vp =>
      if presence_only vp then maps !! h = Some PyTrue
      else ∃ v, get_variant_value fm vp configurations attributes = Ok v
                ∧ maps !! h = Some (pyval_of v)
  end.

(** ** Example data *)

Module Example_guards.
Definition fm : FeatureModel := {| fm_features := ["Op"; "F1"; "F2"] |}.
Definition V1 : Variant := {| identifier := "F1"; value := Some "a" |}.
Definition V2 : Variant := {| identifier := "F2"; value := Some "b" |}.
Definition V0 : Variant := {| identifier := "Zed"; value := Some "z" |}.
Definition vp12 : VariationPoint :=
  {| feature := "Op"; handler := "Op"; variants := [V1; V2] |}.
Definition vp02 : VariationPoint :=
  {| feature := "Op"; handler := "Op"; variants := [V0; V2] |}.
Definition both : Configuration :=
  {| elements := {[ "F1" := true; "F2" := true ]} |}.
Definition only2 : Configuration :=
  {| elements := {[ "F1" := false; "F2" := true ]} |}.
Definition none : Configuration :=
  {| elements := {[ "F1" := false; "F2" := false ]} |}.
End Example_guards.

Module Example_unknown.
Definition fm : FeatureModel := {| fm_features := ["Op"; "Add"] |}.
Definition known : Element :=
  {| attrib := {[ "name" := "Add"; "manual" := "selected" ]} |}.
Definition unknown : Element :=
  {| attrib := {[ "name" := "Mul"; "manual" := "selected" ]} |}.
Definition row_known : Row :=
  {| VariationPointFeature := "Op"; Handler := "Op";
     VariantIdentifier := "Add"; VariantValue := "+" |}.
Definition row_unknown : Row :=
  {| VariationPointFeature := "Mul"; Handler := "M";
     VariantIdentifier := "Add"; VariantValue := "*" |}.
Definition vp : VariationPoint :=
  {| feature := "Op"; handler := "Op";
     variants := [ {| identifier := "Add"; value := Some "+" |};
                   {| identifier := "Mul"; value := Some "*" |} ] |}.
Definition config : Configuration := {| elements := {[ "Add" := false ]} |}.
End Example_unknown.

Module Example_Expr.
Definition fm : FeatureModel := {| fm_features := ["Op"; "Add"; "Neg"] |}.
Definition rows_null : list Row :=
  [ {| VariationPointFeature := "Op"; Handler := "Expr";
       VariantIdentifier := "Add"; VariantValue := "Expr + Expr" |};
    {| VariationPointFeature := "Op"; Handler := "Expr";
       VariantIdentifier := "Neg"; VariantValue := "-" |} ].
Definition model_null : pydict VariationPoint :=
  [("Op", {| feature := "Op"; handler := "Expr";
             variants := [ {| identifier := "Add"; value := Some "Expr + Expr" |};
                           {| identifier := "Neg"; value := None |} ] |})].
Definition model : pydict VariationPoint :=
  [("Op", {| feature := "Op"; handler := "Expr";
             variants := [ {| identifier := "Add"; value := Some "Expr + Expr" |} ] |});
   ("Neg", {| feature := "Neg"; handler := "Sign";
              variants := [ {| identifier := "Neg"; value := None |} ] |})].
Definition config : Configuration := {| elements := {[ "Add" := true ]} |}.
End Example_Expr.

Module Example_rows.
Definition fm : FeatureModel := {| fm_features := ["Op"; "Add"; "Sub"; "A"] |}.
Definition plain1 : Row :=
  {| VariationPointFeature := "Op"; Handler := "Op";
     VariantIdentifier := "Add"; VariantValue := "+" |}.
Definition plain2 : Row :=
  {| VariationPointFeature := "Op"; Handler := "Op";
     VariantIdentifier := "Sub"; VariantValue := "-" |}.
Definition dotted1 : Row :=
  {| VariationPointFeature := "A"; Handler := "H";
     VariantIdentifier := "A.x"; VariantValue := "1" |}.
Definition dotted2 : Row :=
  {| VariationPointFeature := "A"; Handler := "H";
     VariantIdentifier := "A.x"; VariantValue := "2" |}.
Definition Op : VariationPoint :=
  {| feature := "Op"; handler := "Op";
     variants := [ {| identifier := "Add"; value := Some "+" |};
                   {| identifier := "Sub"; value := None |} ] |}.
Definition select_Sub : Configuration :=
  {| elements := {[ "Add" := false; "Sub" := true ]} |}.
Definition select_none : Configuration :=
  {| elements := {[ "Add" := false; "Sub" := false ]} |}.
End Example_rows.

Module Example_config.
Definition fm : FeatureModel := {| fm_features := ["Op"; "Add"; "Sub"] |}.
Definition automatic_wins : Element :=
  {| attrib := {[ "name" := "Add"; "automatic" := "selected"; "manual" := "unselected" ]} |}.
Definition manual_only : Element :=
  {| attrib := {[ "name" := "Sub"; "manual" := "selected" ]} |}.
Definition neither : Element := {| attrib := {[ "name" := "Op" ]} |}.
Definition root : list Element := [automatic_wins; manual_only; neither].
Definition config : Configuration :=
  {| elements := {[ "Add" := true; "Sub" := true; "Op" := false ]} |}.
End Example_config.

Module Example_maps.
Definition fm : FeatureModel := {| fm_features := ["Op"; "Add"; "Sub"; "Flag"] |}.
Definition Op : VariationPoint :=
  {| feature := "Op"; handler := "Op";
     variants := [ {| identifier := "Add"; value := Some "+" |};
                   {| identifier := "Sub"; value := Some "minus" |} ] |}.
Definition Flag : VariationPoint :=
  {| feature := "Flag"; handler := "Flag";
     variants := [ {| identifier := "-"; value := None |} ] |}.
Definition Multi : VariationPoint :=
  {| feature := "Op"; handler := "plot.x";
     variants := [ {| identifier := "Add"; value := Some "a" |} ] |}.
Definition model : pydict VariationPoint :=
  [("Op", Op); ("Flag", Flag); ("Multi", Multi)].
Definition config : Configuration :=
  {| elements := {[ "Op" := true; "Sub" := true; "Flag" := true; "Add" := false ]} |}.
End Example_maps.

(** ** The object store

    [copy.deepcopy] and the assignments that follow it act on objects with
    identity. Here the mapping model lives in a store: an object is held at
    a location, a [dict], a [list] and a variation point refer to other
    objects by location, and an assignment to an attribute overwrites the
    object at a location. Strings and features are immutable values. *)

Module Store.

Abbreviation loc := nat (only parsing).

Inductive obj : Type :=
  | OVariant (identifier : string) (value : option string)
  | OList (items : list loc)
  | OVariationPoint (feature : Feature) (handler : string) (variants : loc)
  | ODict (entries : list (string * loc)).

(** The store: the object at location [l] is the [l]-th element, and a new
    object is allocated at the end. *)
Abbreviation store := (list obj) (only parsing).

(** The outcome of a computation on the store: it returns a value and
    leaves a store, or raises, or meets an object that is not of the
    annotated type ([dict[str, VariationPoint]] all the way down), which is
    outside this model. *)
Inductive outcome (A : Type) : Type :=
  | Done (a : A) (σ : store)
  | Raised (e : exn)
  | IllTyped.
Arguments Done {A} a σ.
Arguments Raised {A} e.
Arguments IllTyped {A}.

Definition M (A : Type) : Type := store → outcome A.

#[global] Instance M_ret : MRet M := λ A a σ, Done a σ.
#[global] Instance M_bind : MBind M := λ A B f m σ,
  match m σ with
  | Done a σ' => f a σ'
  | Raised e => Raised e
  | IllTyped => IllTyped
  end.

Definition raise {A : Type} (e : exn) : M A := λ _, Raised e.
Definition ill_typed {A : Type} : M A := λ _, IllTyped.

(** Read the object at a location. *)
Definition load (l : loc) : M obj := λ σ,
  match σ !! l with
  | Some o => Done o σ
  | None => IllTyped
  end.

(** Create an object: it gets the next free location. *)
Definition alloc (o : obj) : M loc := λ σ, Done (length σ) (σ ++ [o]).

(** Overwrite the object at a location (an attribute assignment). *)
Definition put (l : loc) (o : obj) : M unit := λ σ,
  if decide (l < length σ) then Done () (<[l := o]> σ) else IllTyped.

(** The locations an object refers to. *)
Definition refs (o : obj) : list loc :=
  match o with
  | OVariant _ _ => []
  | OList items => items
  | OVariationPoint _ _ vs => [vs]
  | ODict entries => entries.*2
  end.

(** [reach σ l l']: the object at [l'] is part of the structure rooted at
    [l]. *)
Inductive reach (σ : store) : loc → loc → Prop :=
  | reach_refl (l : loc) : reach σ l l
  | reach_step (l l' l'' : loc) (o : obj) :
      σ !! l = Some o → l' ∈ refs o → reach σ l' l'' → reach σ l l''.

(** A store without dangling references. *)
Definition closed (σ : store) : Prop :=
  ∀ l o l', σ !! l = Some o → l' ∈ refs o → l' < length σ.

(** *** [copy.deepcopy]

    [deepcopy_object] is [copy.deepcopy(x, memo)]: an object already copied
    is answered from the memo; otherwise the object is copied by the copier
    of its type, the copy is allocated and the memo records it. The memo
    maps the location of an object to the location of its copy, so that an
    object shared inside the structure is copied once. (A copy is allocated
    once its parts have been copied.) *)

Definition deepcopy_object
    (copier : gmap loc loc → obj → M (obj * gmap loc loc))
    (memo : gmap loc loc) (x : loc) : M (loc * gmap loc loc) :=
  match memo !! x with
  | Some y => mret (y, memo)
  | None =>
      o ← load x;
      '(o', memo) ← copier memo o;
      y ← alloc o';
      mret (y, <[x := y]> memo)
  end.

(** The copies of the objects at [xs], in order, threading the memo. *)
Fixpoint deepcopy_each (f : gmap loc loc → loc → M (loc * gmap loc loc))
    (memo : gmap loc loc) (xs : list loc) : M (list loc * gmap loc loc) :=
  match xs with
  | [] => mret ([], memo)
  | x :: xs' =>
      '(y, memo) ← f memo x;
      '(ys, memo) ← deepcopy_each f memo xs';
      mret (y :: ys, memo)
  end.

(** The copiers by type: a variant has only immutable parts; a list, a
    variation point and a dict copy what they refer to. *)
Definition copy_variant (memo : gmap loc loc) (o : obj) : M (obj * gmap loc loc) :=
  match o with
  | OVariant identifier value => mret (OVariant identifier value, memo)
  | _ => ill_typed
  end.

Definition copy_list (memo : gmap loc loc) (o : obj) : M (obj * gmap loc loc) :=
  match o with
  | OList items =>
      '(items', memo) ← deepcopy_each (deepcopy_object copy_variant) memo items;
      mret (OList items', memo)
  | _ => ill_typed
  end.

Definition copy_variation_point (memo : gmap loc loc) (o : obj) : M (obj * gmap loc loc) :=
  match o with
  | OVariationPoint feature handler variants =>
      '(variants', memo) ← deepcopy_object copy_list memo variants;
      mret (OVariationPoint feature handler variants', memo)
  | _ => ill_typed
  end.

Definition copy_dict (memo : gmap loc loc) (o : obj) : M (obj * gmap loc loc) :=
  match o with
  | ODict entries =>
      '(values', memo) ←
        deepcopy_each (deepcopy_object copy_variation_point) memo entries.*2;
      mret (ODict (zip entries.*1 values'), memo)
  | _ => ill_typed
  end.

Definition deepcopy_dict (memo : gmap loc loc) (x : loc) : M (loc * gmap loc loc) :=
  deepcopy_object copy_dict memo x.

(** [copy.deepcopy(mapping_model)] *)
Definition deepcopy (mapping_model : loc) : M loc :=
  '(y, _) ← deepcopy_dict ∅ mapping_model; mret y.

(** *** The rewriting of the copy *)

(** [variant.value = variant.value.replace('Expr', f'Expr{i}')] *)
Definition rewrite_variant (i : nat) (l : loc) : M unit :=
  o ← load l;
  match o with
  | OVariant identifier value =>
      match value with
      | None => raise AttributeError
      | Some s =>
          put l (OVariant identifier
                   (Some (str_replace "Expr" ("Expr" +:+ str_of_int (Z.of_nat i)) s)))
      end
  | _ => ill_typed
  end.

(** [for variant in v.variants: ...] *)
Fixpoint rewrite_variants (i : nat) (ls : list loc) : M unit :=
  match ls with
  | [] => mret ()
  | l :: ls' => _ ← rewrite_variant i l; rewrite_variants i ls'
  end.

(** The body of the loop over the items of the copy, for the variation
    point at [l]. *)
Definition rewrite_variation_point (i : nat) (l : loc) : M unit :=
  o ← load l;
  match o with
  | OVariationPoint feature handler variants =>
      if decide (handler = "Expr") then
        let h :=
          if decide (i ≠ 0) then handler +:+ str_of_int (Z.of_nat i - 1)%Z else handler in
        _ ← put l (OVariationPoint feature h variants);
        vs ← load variants;
        match vs with
        | OList items => rewrite_variants i items
        | _ => ill_typed
        end
      else mret ()
  | _ => ill_typed
  end.

(** [for k, v in new_mapping_model.items(): ...] *)
Fixpoint rewrite_variation_points (i : nat) (ls : list loc) : M unit :=
  match ls with
  | [] => mret ()
  | l :: ls' => _ ← rewrite_variation_point i l; rewrite_variation_points i ls'
  end.

(** The body of the outer loop of [mapping_model_by_configurations] for the
    configuration at index [i]; it returns the location of the new mapping
    model. *)
Definition specialize (mapping_model : loc) (i : nat) : M loc :=
  new_mapping_model ← deepcopy mapping_model;
  d ← load new_mapping_model;
  match d with
  | ODict entries =>
      _ ← rewrite_variation_points i entries.*2;
      mret new_mapping_model
  | _ => ill_typed
  end.

Fixpoint specialize_from (mapping_model : loc) (i : nat)
    (configurations : list Configuration) : M (list loc) :=
  match configurations with
  | [] => mret []
  | _ :: rest =>
      m ← specialize mapping_model i;
      ms ← specialize_from mapping_model (S i) rest;
      mret (m :: ms)
  end.

(** [mapping_model_by_configurations], on the store: it returns the
    locations of the specialised models, in the order of the
    configurations. *)
Definition mapping_model_by_configurations (mapping_model : loc)
    (configurations : list Configuration) : M (list loc) :=
  specialize_from mapping_model 0 configurations.

(** *** Isolation vocabulary *)

(** The objects at the locations from [a] up to [b] refer only to
    locations in that range. *)
Definition block_closed (σ : store) (a b : nat) : Prop :=
  ∀ l o l', a ≤ l < b → σ !! l = Some o → l' ∈ refs o → a ≤ l' < b.

(** The models at [ms] lie in consecutive blocks of the store from [lo]
    on, each closed. *)
Inductive blocks (σ : store) : nat → list loc → Prop :=
  | blocks_nil (lo : nat) : (lo ≤ length σ)%nat → blocks σ lo []
  | blocks_cons (lo b : nat) (m : loc) (ms : list loc) :
      lo ≤ m < b → block_closed σ lo b → blocks σ b ms → blocks σ lo (m :: ms).

(** While a structure is being copied from a store whose first [n0]
    objects are the old ones: the memo answers with new locations, and the
    new objects refer to new objects only. *)
Definition copy_inv (n0 : nat) (σ : store) (memo : gmap loc loc) : Prop :=
  (n0 ≤ length σ)%nat
  ∧ (∀ x y, memo !! x = Some y → n0 ≤ y < length σ)
  ∧ block_closed σ n0 (length σ).

(** What a copying function keeps: the store only grows, the invariant
    holds afterwards, and the copy is a new object. *)
Definition copies_ok (n0 : nat) (f : gmap loc loc → loc → M (loc * gmap loc loc)) : Prop :=
  ∀ memo x σ y memo' σ',
    f memo x σ = Done (y, memo') σ' →
    copy_inv n0 σ memo →
    σ `prefix_of` σ' ∧ copy_inv n0 σ' memo' ∧ (n0 ≤ y < length σ')%nat.

(** What a copier keeps: the same, and the object it builds refers to new
    objects only. *)
Definition copier_ok (n0 : nat) (c : gmap loc loc → obj → M (obj * gmap loc loc)) : Prop :=
  ∀ memo o σ o' memo' σ',
    c memo o σ = Done (o', memo') σ' →
    copy_inv n0 σ memo →
    σ `prefix_of` σ' ∧ copy_inv n0 σ' memo'
    ∧ Forall (λ y, (n0 ≤ y < length σ')%nat) (refs o').

(** What the rewriting of a copy keeps: no object is created, the objects
    below [n0] are as they were, and the block from [n0] on stays closed. *)
Definition frame (n0 : nat) (σ σ' : store) : Prop :=
  length σ' = length σ
  ∧ (∀ l, (l < n0)%nat → σ' !! l = σ !! l)
  ∧ block_closed σ' n0 (length σ').

(** [σ'] is the store after some mutation confined to the structure rooted
    at [root]: every object that is not part of that structure is as it
    was. *)
Definition mutation_of (σ : store) (root : loc) (σ' : store) : Prop :=
  ∀ l, l < length σ → ¬ reach σ root l → σ' !! l = σ !! l.

(** The structure rooted at [root] is the same in both stores: the same
    objects at the same locations. *)
Definition same_structure (σ σ' : store) (root : loc) : Prop :=
  ∀ l, reach σ root l → σ' !! l = σ !! l.

(** *** The value a structure in the store stands for *)

Definition read_variant (σ : store) (l : loc) : option Variant :=
  match σ !! l with
  | Some (OVariant i v) => Some {| identifier := i; value := v |}
  | _ => None
  end.

Definition read_list (σ : store) (l : loc) : option (list Variant) :=
  match σ !! l with
  | Some (OList items) => mapM (read_variant σ) items
  | _ => None
  end.

Definition read_variation_point (σ : store) (l : loc) : option VariationPoint :=
  match σ !! l with
  | Some (OVariationPoint f h vs) =>
      variants ← read_list σ vs;
      Some {| feature := f; handler := h; variants := variants |}
  | _ => None
  end.

Definition read_model (σ : store) (l : loc) : option (pydict VariationPoint) :=
  match σ !! l with
  | Some (ODict entries) =>
      vps ← mapM (read_variation_point σ) entries.*2;
      Some (zip entries.*1 vps)
  | _ => None
  end.

(** The locations of the objects a structure consists of, listed along
    the structure: a location listed twice is an object that is shared. *)
Definition footprint_variant (σ : store) (l : loc) : list loc := [l].

Definition footprint_list (σ : store) (l : loc) : list loc :=
  match σ !! l with
  | Some (OList items) => l :: items
  | _ => [l]
  end.

Definition footprint_variation_point (σ : store) (l : loc) : list loc :=
  match σ !! l with
  | Some (OVariationPoint _ _ vs) => l :: footprint_list σ vs
  | _ => [l]
  end.

Definition footprint (σ : store) (l : loc) : list loc :=
  match σ !! l with
  | Some (ODict entries) => l :: mjoin (footprint_variation_point σ <$> entries.*2)
  | _ => [l]
  end.

(** A mapping model without sharing, as [load_mapping_model] builds it:
    every variation point has its own list and every list its own
    variants. *)
Definition tree (σ : store) (l : loc) : Prop := NoDup (footprint σ l).

(** What a copying function achieves on a structure without sharing that
    has not been copied yet: a copy that stands for the same value, made of
    new objects, itself without sharing. *)
Definition copy_spec {V : Type} (read : store → loc → option V)
    (fp : store → loc → list loc)
    (f : gmap loc loc → loc → M (loc * gmap loc loc)) : Prop :=
  ∀ memo x σ v,
    read σ x = Some v →
    NoDup (fp σ x) →
    (∀ l, l ∈ fp σ x → memo !! l = None) →
    ∃ y memo' σ',
      f memo x σ = Done (y, memo') σ'
      ∧ σ `prefix_of` σ'
      ∧ read σ' y = Some v
      ∧ NoDup (fp σ' y)
      ∧ (∀ l, l ∈ fp σ' y → (length σ ≤ l < length σ')%nat)
      ∧ (∀ l, is_Some (memo' !! l) → is_Some (memo !! l) ∨ l ∈ fp σ x).

(** Reading depends on the objects of the footprint only, and a value is
    read only if they all exist. *)
Definition local {V : Type} (read : store → loc → option V)
    (fp : store → loc → list loc) : Prop :=
  (∀ σ σ' x, (∀ l, l ∈ fp σ x → σ' !! l = σ !! l) →
             read σ' x = read σ x ∧ fp σ' x = fp σ x)
  ∧ (∀ σ x v l, read σ x = Some v → l ∈ fp σ x → (l < length σ)%nat).

End Store.

Module Example_store.
Definition σ : Store.store :=
  [ Store.OVariant "Add" (Some "Expr + Expr");
    Store.OList [0];
    Store.OVariationPoint "Op" "Expr" 1;
    Store.ODict [("Op", 2)] ].
Definition config : Configuration := {| elements := {[ "Add" := true ]} |}.
(** The value that the structure at location 3 stands for. *)
Definition model : pydict VariationPoint :=
  [("Op", {| feature := "Op"; handler := "Expr";
             variants := [ {| identifier := "Add"; value := Some "Expr + Expr" |} ] |})].
(** The store after specialising the model at location 3 for three
    configurations; the specialised models are at 7, 11 and 15. *)
Definition σ3 : Store.store :=
  σ ++
  [ Store.OVariant "Add" (Some "Expr0 + Expr0");
    Store.OList [4];
    Store.OVariationPoint "Op" "Expr" 5;
    Store.ODict [("Op", 6)];
    Store.OVariant "Add" (Some "Expr1 + Expr1");
    Store.OList [8];
    Store.OVariationPoint "Op" "Expr0" 9;
    Store.ODict [("Op", 10)];
    Store.OVariant "Add" (Some "Expr2 + Expr2");
    Store.OList [12];
    Store.OVariationPoint "Op" "Expr1" 13;
    Store.ODict [("Op", 14)] ].
End Example_store.

(** ** The rest of the program *)

From Stdlib Require DecimalZ DecimalPos.
From stdpp Require sorting.

(** A row of an attributes CSV, by column. *)
Record AttributeRow : Type := { Attribute : string; Value : string }.

(** [parse_attributes], from the rows of the CSV in file order. *)
Definition parse_attributes (rows : list AttributeRow) : gmap string string :=
  foldl (λ attributes row, <[Attribute row := Value row]> attributes) ∅ rows.

(** The rows of an attributes file that set a given attribute. *)
Definition rows_of (a : string) (rows : list AttributeRow) : list AttributeRow :=
  filter (λ row, Attribute row = a) rows.

Module Example_attributes.
Definition first_file : list AttributeRow :=
  [ {| Attribute := "B.y"; Value := "3" |} ].
Definition second_file : list AttributeRow :=
  [ {| Attribute := "A.x"; Value := "1" |};
    {| Attribute := "A.x"; Value := "2" |} ].
Definition third_file : list AttributeRow :=
  [ {| Attribute := "A.x"; Value := "9" |} ].
End Example_attributes.

Module Example_resolution.
Definition fm : FeatureModel := {| fm_features := ["Op"; "Add"; "Sub"; "A"] |}.
Definition plain : VariationPoint :=
  {| feature := "Op"; handler := "Op";
     variants := [ {| identifier := "Add"; value := Some "+" |};
                   {| identifier := "Sub"; value := Some "minus" |} ] |}.
Definition unknown_guard : VariationPoint :=
  {| feature := "Op"; handler := "Op";
     variants := [ {| identifier := "Add"; value := Some "+" |};
                   {| identifier := "Mul"; value := Some "*" |} ] |}.
Definition select_Sub : Configuration :=
  {| elements := {[ "Add" := false; "Sub" := true ]} |}.
Definition select_none : Configuration :=
  {| elements := {[ "Add" := false; "Sub" := false ]} |}.
End Example_resolution.

(** A record that [parse_configuration] accepts: one without attributes
    (it is skipped), or one whose [name] is a feature of the model. *)
Definition record_ok (fm : FeatureModel) (child : Element) : Prop :=
  (attrib child = ∅)
  ∨ ∃ name, attrib child !! "name" = Some name ∧ name ∈ fm_features fm.


(** A variation point as [load_mapping_model] leaves it: governed by a
    feature of the model, with at least one variant, each variant being the
    one some row declares. *)
Definition loaded_variation_point (fm : FeatureModel) (rows : list Row)
    (vp : VariationPoint) : Prop :=
  feature vp ∈ fm_features fm
  ∧ variants vp ≠ []
  ∧ Forall (λ v, ∃ row, row ∈ rows ∧ v = row_variant row) (variants vp).

Module Example_parse.
Definition nameless : Element := {| attrib := {[ "manual" := "selected" ]} |}.
Definition empty : Element := {| attrib := ∅ |}.
End Example_parse.

(** The models that [Example_Expr.model] gives for configuration indices 0
    and 1. *)
Module Example_levels.
Definition Op0 : VariationPoint :=
  {| feature := "Op"; handler := "Expr";
     variants := [ {| identifier := "Add"; value := Some "Expr0 + Expr0" |} ] |}.
Definition Op1 : VariationPoint :=
  {| feature := "Op"; handler := "Expr0";
     variants := [ {| identifier := "Add"; value := Some "Expr1 + Expr1" |} ] |}.
Definition Sign : VariationPoint :=
  {| feature := "Neg"; handler := "Sign";
     variants := [ {| identifier := "Neg"; value := None |} ] |}.
Definition level0 : pydict VariationPoint := [("Op", Op0); ("Neg", Sign)].
Definition level1 : pydict VariationPoint := [("Op", Op1); ("Neg", Sign)].
End Example_levels.

Module Example_build.
Definition unknown_guard_model : pydict VariationPoint :=
  [("Op", {| feature := "Op"; handler := "Op";
             variants := [ {| identifier := "Mul"; value := Some "*" |} ] |})].
Definition unknown_guard_rows : list Row :=
  [ {| VariationPointFeature := "Op"; Handler := "Op";
       VariantIdentifier := "Mul"; VariantValue := "*" |} ].
Definition select_Op : Configuration := {| elements := {[ "Op" := true ]} |}.
Definition select_nothing : Configuration :=
  {| elements := {[ "Op" := false; "Flag" := false ]} |}.
End Example_build.

Module Example_recursion.
Definition fm : FeatureModel := {| fm_features := ["Op"; "Add"; "Neg"] |}.
Definition Op : VariationPoint :=
  {| feature := "Op"; handler := "Expr";
     variants := [ {| identifier := "Neg"; value := Some "-Expr" |};
                   {| identifier := "Add"; value := Some "Expr + Expr" |} ] |}.
Definition model : pydict VariationPoint := [("Op", Op)].
Definition level1 : pydict VariationPoint :=
  [("Op", {| feature := "Op"; handler := "Expr0";
             variants := [ {| identifier := "Neg"; value := Some "-Expr1" |};
                           {| identifier := "Add"; value := Some "Expr1 + Expr1" |} ] |})].
Definition select_Add : Configuration :=
  {| elements := {[ "Op" := true; "Add" := true; "Neg" := false ]} |}.
End Example_recursion.

(** ** Finding the input files *)

(** [s.endswith(suffix)]: some tail of [s] is [suffix]. *)
Fixpoint str_endswith (suffix s : string) : bool :=
  if decide (s = suffix) then true
  else match s with
       | EmptyString => false
       | String _ s' => str_endswith suffix s'
       end.

Section get_files.

(** [os.path.join] on a directory and a file name, and [os.path.splitext];
    what they compute is left open. *)
Variable path_join : string → string → string.
Variable path_splitext : string → string * string.

(** The body of the inner loop of [get_files], on the two lists built so
    far. *)
Definition get_files_file (root : string) (acc : list string * list string)
    (file : string) : list string * list string :=
  let filepath := path_join root file in
  let file_extension := (path_splitext filepath).2 in
  if str_endswith "xml" file_extension then (acc.1 ++ [filepath], acc.2)
  else if str_endswith "csv" file_extension then (acc.1, acc.2 ++ [filepath])
  else acc.

(** [get_files], from what [os.walk(dir)] yields: the triples
    [(root, dirs, files)] in visiting order. [list.sort] on strings is the
    sort by the lexicographic order of the characters (the [print] is not
    modelled). *)
Definition get_files (walk : list (string * list string * list string)) :
    list string * list string :=
  let '(configurations_files, attributes_files) :=
    foldl (λ acc '(root, dirs, files), foldl (get_files_file root) acc files)
      ([], []) walk in
  (sorting.merge_sort String.le configurations_files, sorting.merge_sort String.le attributes_files).

(** The paths of all the files of a walk, in visiting order. *)
Definition walked_paths (walk : list (string * list string * list string)) : list string :=
  concat ((λ entry : string * list string * list string,
             path_join entry.1.1 <$> entry.2) <$> walk).

(** The extension of a path ends with the given text. *)
Definition has_extension (ext : string) (filepath : string) : Prop :=
  str_endswith ext (path_splitext filepath).2 = true.

End get_files.

#[global] Instance has_extension_dec (path_splitext : string → string * string)
    (ext filepath : string) : Decision (has_extension path_splitext ext filepath).
Proof. unfold has_extension. apply _. Defined.

Module Example_files.
(** A stand-in for [os.path] on plain names: join with ['/'], and take as
    extension the text from the first ['.'] on. *)
Definition join (root file : string) : string := root +:+ "/" +:+ file.
Fixpoint from_dot (s : string) : string :=
  match s with
  | EmptyString => EmptyString
  | String a s' => if decide (a = "."%char) then s else from_dot s'
  end.
Definition splitext (filepath : string) : string * string :=
  (str_before "."%char filepath, from_dot filepath).
Definition walk : list (string * list string * list string) :=
  [ ("in", ["sub"], ["b.xml"; "a.csv"; "notes.txt"]);
    ("in/sub", [], ["a.xml"]) ].
Definition walk_other_order : list (string * list string * list string) :=
  [ ("in/sub", [], ["a.xml"]);
    ("in", ["sub"], ["notes.txt"; "a.csv"; "b.xml"]) ].
End Example_files.

(** * Properties *)

(** ** The result monad and the loops *)

Lemma foldM_app {A B : Type} (f : B → A → result B) (b : B) (l1 l2 : list A) :
  foldM f b (l1 ++ l2) = (b' ← foldM f b l1; foldM f b' l2).
Proof.
  revert b. induction l1 as [|x l1 IH]; intros b; simpl; [done|].
  destruct (f b x) as [b'|e]; simpl; [apply IH | done].
Qed.

Lemma foldM_snoc {A B : Type} (f : B → A → result B) (b : B) (l : list A) (x : A) :
  foldM f b (l ++ [x]) = (b' ← foldM f b l; f b' x).
Proof.
  rewrite foldM_app. destruct (foldM f b l) as [b'|e]; simpl; [|done].
  by destruct (f b' x).
Qed.

Lemma forM_Ok_length {A B : Type} (f : A → result B) (l : list A) (ys : list B) :
  forM f l = Ok ys → length ys = length l.
Proof.
  revert ys. induction l as [|x l IH]; intros ys; simpl.
  - by intros [= <-].
  - destruct (f x) as [y|e]; simpl; [|done].
    destruct (forM f l) as [ys'|e]; simpl; [|done].
    intros [= <-]. simpl. f_equal. by apply IH.
Qed.

Lemma forM_Ok_lookup {A B : Type} (f : A → result B) (l : list A) (ys : list B) :
  forM f l = Ok ys →
  ∀ (n : nat) (x : A), l !! n = Some x → ∃ y, ys !! n = Some y ∧ f x = Ok y.
Proof.
  revert ys. induction l as [|x l IH]; intros ys; simpl; [by intros _ n x' ?|].
  destruct (f x) as [y|e] eqn:Hfx; simpl; [|done].
  destruct (forM f l) as [ys'|e]; simpl; [|done].
  intros [= <-] [|n] x' Hn; simpl in *.
  - injection Hn as <-. eauto.
  - by apply IH.
Qed.

Lemma forM_all_Ok {A B : Type} (f : A → result B) (l : list A) :
  Forall (λ x, ∃ y, f x = Ok y) l → ∃ ys, forM f l = Ok ys.
Proof.
  induction 1 as [|x l [y Hy] _ [ys Hys]]; simpl; [by eexists|].
  rewrite Hy, Hys. simpl. by eexists.
Qed.

Lemma forM_Raise {A B : Type} (f : A → result B) (l : list A) (e : exn) :
  Forall (λ x, (∃ y, f x = Ok y) ∨ f x = Raise e) l →
  Exists (λ x, f x = Raise e) l →
  forM f l = Raise e.
Proof.
  induction 1 as [|x l Hx Hl IH]; intros Hex; [by apply Exists_nil in Hex|].
  simpl. destruct Hx as [[y Hy]|Hx]; [|by rewrite Hx].
  rewrite Hy. simpl. apply Exists_cons in Hex as [Hex|Hex]; [congruence|].
  by rewrite (IH Hex).
Qed.

(** ** Feature lookup *)

Lemma get_feature_by_name_Some (fm : FeatureModel) (name f : string) :
  get_feature_by_name fm name = Some f → f = name ∧ name ∈ fm_features fm.
Proof.
  unfold get_feature_by_name. intros H.
  assert (f ∈ filter (λ f, f = name) (fm_features fm)) as Hin.
  { destruct (filter _ _) as [|x l]; simplify_eq/=. left. }
  apply list_elem_of_filter in Hin as [-> Hin]. done.
Qed.

Lemma get_feature_by_name_None (fm : FeatureModel) (name : string) :
  get_feature_by_name fm name = None ↔ name ∉ fm_features fm.
Proof.
  unfold get_feature_by_name. split.
  - intros H Hin.
    assert (name ∈ filter (λ f, f = name) (fm_features fm)) as Hf
      by by apply list_elem_of_filter.
    destruct (filter _ _); [by apply not_elem_of_nil in Hf | done].
  - intros Hnin. destruct (filter _ _) as [|x l] eqn:E; [done|].
    assert (x ∈ filter (λ f, f = name) (fm_features fm)) as Hf by (rewrite E; left).
    apply list_elem_of_filter in Hf as [-> Hin]. done.
Qed.

Lemma get_feature_from_fm_known (fm : FeatureModel) (name : string) :
  name ∈ fm_features fm → get_feature_from_fm name fm = Ok name.
Proof.
  intros Hin. unfold get_feature_from_fm.
  destruct (get_feature_by_name fm name) as [f|] eqn:E.
  - by apply get_feature_by_name_Some in E as [-> _].
  - by apply get_feature_by_name_None in E.
Qed.

Lemma get_feature_from_fm_unknown (fm : FeatureModel) (name : string) :
  name ∉ fm_features fm → get_feature_from_fm name fm = Raise (UnknownFeature name).
Proof.
  intros Hnin. unfold get_feature_from_fm.
  by apply get_feature_by_name_None in Hnin as ->.
Qed.

Lemma get_feature_from_fm_Ok (fm : FeatureModel) (name f : string) :
  get_feature_from_fm name fm = Ok f → f = name ∧ name ∈ fm_features fm.
Proof.
  unfold get_feature_from_fm.
  destruct (get_feature_by_name fm name) eqn:E; [|done].
  intros [= <-]. by apply get_feature_by_name_Some.
Qed.

(** ** Attribute lookup *)

(** C8. Attribute lookup precedence: [get_attribute_value] returns the value
    held by the first attribute set, in the supplied order, that contains
    the identifier, and [None] when no attribute set contains it. *)
Theorem get_attribute_value_first_match (identifier : string)
    (attributes : list (gmap string string)) :
  (∀ pre d post v,
      attributes = pre ++ d :: post →
      Forall (λ a : gmap string string, a !! identifier = None) pre →
      d !! identifier = Some v →
      get_attribute_value identifier attributes = Some v)
  ∧ (Forall (λ a : gmap string string, a !! identifier = None) attributes →
     get_attribute_value identifier attributes = None).
Proof.
  split.
  - intros pre d post v -> Hpre Hd.
    induction Hpre as [|a pre Ha _ IH]; simpl.
    + by rewrite Hd.
    + by rewrite Ha.
  - induction 1 as [|a l Ha _ IH]; simpl; [done|]. by rewrite Ha.
Qed.

Lemma get_attribute_value_first_match_witness :
  get_attribute_value "A.x" [∅; {["A.x" := "1"]}; {["A.x" := "2"]}] = Some "1"
  ∧ get_attribute_value "A.x" [∅; {["B.y" := "3"]}] = None.
Proof.
  split.
  - apply (proj1 (get_attribute_value_first_match "A.x" _)
             [∅] {["A.x" := "1"]} [{["A.x" := "2"]}] "1");
      [reflexivity | repeat constructor | reflexivity].
  - apply (proj2 (get_attribute_value_first_match "A.x" _)).
    repeat constructor.
Defined.

(** ** Variant resolution *)


Lemma get_variant_value_loop_passed (fm : FeatureModel) (pre rest : list Variant)
    (configurations : list Configuration) (attributes : list (gmap string string)) :
  Forall (passed_over fm configurations) pre →
  get_variant_value_loop fm (pre ++ rest) configurations attributes
  = get_variant_value_loop fm rest configurations attributes.
Proof.
  induction 1 as [|u pre [Hin Hsel] _ IH]; simpl; [done|].
  rewrite (get_feature_from_fm_known _ _ Hin). simpl.
  unfold guard_satisfied in Hsel. by rewrite Hsel.
Qed.

(** C1, as the code has it. Variant resolution is first-match-wins in list
    order provided the guard names it looks up exist in the feature model:
    when every variant before [v] names a known feature that is selected in
    no configuration and [v] names a known feature selected in some
    configuration, the result is the candidate value of [v]; when every
    variant names a known, unselected feature the result is [None]. In
    particular, with variants [V1; V2] whose guards are both selected and
    V1's guard known, the result is V1's candidate value. (A guard name that
    is not in the feature model raises instead, see the counterexample.) *)
Theorem get_variant_value_first_match (fm : FeatureModel) (vp : VariationPoint)
    (configurations : list Configuration) (attributes : list (gmap string string)) :
  (∀ pre v post,
      variants vp = pre ++ v :: post →
      Forall (passed_over fm configurations) pre →
      guard_name v ∈ fm_features fm →
      guard_satisfied configurations v = true →
      get_variant_value fm vp configurations attributes = Ok (candidate_value v attributes))
  ∧ (Forall (passed_over fm configurations) (variants vp) →
     get_variant_value fm vp configurations attributes = Ok None)
  ∧ (∀ V1 V2,
      variants vp = [V1; V2] →
      guard_name V1 ∈ fm_features fm →
      guard_satisfied configurations V1 = true →
      guard_satisfied configurations V2 = true →
      get_variant_value fm vp configurations attributes = Ok (candidate_value V1 attributes)).
Proof.
  assert (∀ pre v post,
      variants vp = pre ++ v :: post →
      Forall (passed_over fm configurations) pre →
      guard_name v ∈ fm_features fm →
      guard_satisfied configurations v = true →
      get_variant_value fm vp configurations attributes
      = Ok (candidate_value v attributes)) as Hfirst.
  { intros pre v post Hvs Hpre Hin Hsel. unfold get_variant_value.
    rewrite Hvs, get_variant_value_loop_passed by done. simpl.
    rewrite (get_feature_from_fm_known _ _ Hin). simpl.
    unfold guard_satisfied in Hsel. by rewrite Hsel. }
  split; [exact Hfirst|]. split.
  - intros Hall. unfold get_variant_value.
    rewrite <- (app_nil_r (variants vp)).
    by rewrite get_variant_value_loop_passed.
  - intros V1 V2 Hvs Hin Hsel1 _.
    by apply (Hfirst [] V1 [V2]).
Qed.


Lemma get_variant_value_first_match_witness :
  get_variant_value Example_guards.fm Example_guards.vp12 [Example_guards.only2] []
  = Ok (Some "b")
  ∧ get_variant_value Example_guards.fm Example_guards.vp12 [Example_guards.none] []
    = Ok None
  ∧ get_variant_value Example_guards.fm Example_guards.vp12 [Example_guards.both] []
    = Ok (Some "a").
Proof.
  split; [|split].
  - apply (proj1 (get_variant_value_first_match Example_guards.fm Example_guards.vp12
                    [Example_guards.only2] [])
             [Example_guards.V1] Example_guards.V2 []).
    + reflexivity.
    + repeat constructor.
    + compute_done.
    + reflexivity.
  - apply (proj1 (proj2 (get_variant_value_first_match Example_guards.fm
                           Example_guards.vp12 [Example_guards.none] []))).
    repeat constructor.
  - apply (proj2 (proj2 (get_variant_value_first_match Example_guards.fm
                           Example_guards.vp12 [Example_guards.both] []))
             Example_guards.V1 Example_guards.V2).
    + reflexivity.
    + compute_done.
    + reflexivity.
    + reflexivity.
Defined.

(** C1, as stated, fails: the first variant whose guard is selected is
    [V2], every earlier guard is unselected, yet the result is not V2's
    value, because the earlier guard ["Zed"] is looked up in the feature
    model first and that lookup raises. *)
Lemma get_variant_value_unknown_guard_counterexample :
  variants Example_guards.vp02 = [Example_guards.V0] ++ Example_guards.V2 :: []
  ∧ Forall (λ u, guard_satisfied [Example_guards.only2] u = false) [Example_guards.V0]
  ∧ guard_satisfied [Example_guards.only2] Example_guards.V2 = true
  ∧ get_variant_value Example_guards.fm Example_guards.vp02 [Example_guards.only2] []
    = Raise (UnknownFeature "Zed")
  ∧ get_variant_value Example_guards.fm Example_guards.vp02 [Example_guards.only2] []
    ≠ Ok (candidate_value Example_guards.V2 []).
Proof.
  split; [reflexivity|]. split; [by repeat constructor|].
  split; [reflexivity|]. split; [reflexivity|]. by vm_compute.
Qed.

(** ** Unknown features *)

Lemma parse_configuration_step_unknown (fm : FeatureModel) (name : string)
    (features : gmap string bool) (child : Element) :
  name ∉ fm_features fm →
  attrib child !! "name" = Some name →
  parse_configuration_step fm features child = Raise (UnknownFeature name).
Proof.
  intros Hunknown Hname. unfold parse_configuration_step. rewrite Hname.
  destruct (decide (attrib child = ∅)) as [Hempty|_].
  { by rewrite Hempty, lookup_empty in Hname. }
  by rewrite get_feature_from_fm_unknown.
Qed.

Lemma load_mapping_model_step_unknown (fm : FeatureModel)
    (variation_points : pydict VariationPoint) (row : Row) :
  VariationPointFeature row ∉ fm_features fm →
  in_str "."%char (VariantIdentifier row) = true
    ∨ mem (VariationPointFeature row) variation_points = false →
  load_mapping_model_step fm variation_points row
  = Raise (UnknownFeature (VariationPointFeature row)).
Proof.
  intros Hunknown Hlookup. unfold load_mapping_model_step.
  rewrite get_feature_from_fm_unknown by done.
  destruct (in_str "."%char (VariantIdentifier row)); [done|].
  destruct Hlookup as [?|Hmem]; [done|]. by rewrite Hmem.
Qed.

(** C9. A lookup of a feature name that has no match in the feature model
    raises at the point of lookup, and the raise is the result of the
    enclosing operation whatever follows: in [get_feature_from_fm] itself;
    in [parse_configuration] at the first record naming it (the records
    before it having been parsed); in [load_mapping_model] at a row that
    creates a variation point governed by it (a dotted identifier, or a key
    not yet present); and in [get_variant_value] at the first variant whose
    guard names it (the variants before it having been passed over). *)
Theorem unknown_feature_lookup_raises (fm : FeatureModel) (name : string)
    (Hunknown : name ∉ fm_features fm) :
  get_feature_by_name fm name = None
  ∧ get_feature_from_fm name fm = Raise (UnknownFeature name)
  ∧ (∀ pre child post features,
        foldM (parse_configuration_step fm) ∅ pre = Ok features →
        attrib child !! "name" = Some name →
        parse_configuration (pre ++ child :: post) fm = Raise (UnknownFeature name))
  ∧ (∀ pre row post variation_points,
        load_mapping_model pre fm = Ok variation_points →
        VariationPointFeature row = name →
        in_str "."%char (VariantIdentifier row) = true
          ∨ mem name variation_points = false →
        load_mapping_model (pre ++ row :: post) fm = Raise (UnknownFeature name))
  ∧ (∀ vp configurations attributes pre v post,
        variants vp = pre ++ v :: post →
        Forall (passed_over fm configurations) pre →
        guard_name v = name →
        get_variant_value fm vp configurations attributes = Raise (UnknownFeature name)).
Proof.
  pose proof (get_feature_from_fm_unknown _ _ Hunknown) as Hraise.
  split; [by apply get_feature_by_name_None|]. split; [done|].
  split; [|split].
  - intros pre child post features Hpre Hname.
    unfold parse_configuration. rewrite foldM_app, Hpre. simpl.
    by rewrite (parse_configuration_step_unknown fm name).
  - intros pre row post vps Hpre <- Hlookup.
    unfold load_mapping_model in *. rewrite foldM_app, Hpre. simpl.
    by rewrite load_mapping_model_step_unknown.
  - intros vp configurations attributes pre v post Hvs Hpre Hguard.
    unfold get_variant_value.
    rewrite Hvs, get_variant_value_loop_passed by done. simpl.
    by rewrite Hguard, Hraise.
Qed.


Lemma unknown_feature_lookup_raises_witness :
  get_feature_from_fm "Mul" Example_unknown.fm = Raise (UnknownFeature "Mul")
  ∧ parse_configuration
      [Example_unknown.known; Example_unknown.unknown; Example_unknown.known]
      Example_unknown.fm = Raise (UnknownFeature "Mul")
  ∧ load_mapping_model
      [Example_unknown.row_known; Example_unknown.row_unknown; Example_unknown.row_known]
      Example_unknown.fm = Raise (UnknownFeature "Mul")
  ∧ get_variant_value Example_unknown.fm Example_unknown.vp [Example_unknown.config] []
    = Raise (UnknownFeature "Mul").
Proof.
  assert ("Mul" ∉ fm_features Example_unknown.fm) as Hunknown
    by compute_done.
  pose proof (unknown_feature_lookup_raises Example_unknown.fm "Mul" Hunknown)
    as (_ & Hget & Hparse & Hload & Hresolve).
  split; [exact Hget|]. split; [|split].
  - eapply (Hparse [Example_unknown.known] Example_unknown.unknown
              [Example_unknown.known]); reflexivity.
  - eapply (Hload [Example_unknown.row_known] Example_unknown.row_unknown
              [Example_unknown.row_known]); [reflexivity | reflexivity | by right].
  - apply (Hresolve Example_unknown.vp [Example_unknown.config] []
             [ {| identifier := "Add"; value := Some "+" |} ]
             {| identifier := "Mul"; value := Some "*" |} []).
    + reflexivity.
    + repeat constructor.
    + reflexivity.
Defined.

(** ** Replacing the occurrences of ["Expr"] *)


Lemma append_String (a : ascii) (s r : string) :
  String a s +:+ r = String a (s +:+ r).
Proof. reflexivity. Qed.

Lemma append_Empty (r : string) : EmptyString +:+ r = r.
Proof. reflexivity. Qed.

(** Push an append through the characters of its left operand. *)
Ltac unfold_append :=
  repeat (rewrite append_String in * || rewrite append_Empty in * ).

Lemma prefix_true_iff (p s : string) :
  String.prefix p s = true ↔ ∃ r, s = p +:+ r.
Proof.
  revert s. induction p as [|a p IH]; intros s.
  - split; [intros _; by exists s|]. intros _. by destruct s.
  - destruct s as [|b s]; cbn [String.prefix].
    + split; [done|]. intros [r ?]. unfold_append. done.
    + destruct (ascii_dec a b) as [->|Hne].
      * rewrite IH. split; intros [r Hr]; exists r; unfold_append; congruence.
      * split; [done|]. intros [r ?]. unfold_append. congruence.
Qed.

Lemma replace_from_0_cons (old new : string) (a : ascii) (s : string) :
  replace_from old new 0 (String a s)
  = if String.prefix old (String a s)
    then new +:+ replace_from old new (String.length old - 1) s
    else String a (replace_from old new 0 s).
Proof. reflexivity. Qed.

(** No occurrence of ["Expr"] starts inside a part that has none and runs
    into a following ["Expr"]: the word has no proper overlap with itself. *)
Lemma Expr_no_straddle (a : ascii) (p rest : string) :
  occurs "Expr" (String a p) = false →
  String.prefix "Expr" (String a p +:+ "Expr" +:+ rest) = false.
Proof.
  intros Hfree. cbn [occurs] in Hfree. apply orb_false_elim in Hfree as [Hhere _].
  apply not_true_is_false. intros [r Hr]%prefix_true_iff.
  apply not_true_iff_false in Hhere. apply Hhere, prefix_true_iff.
  destruct p as [|b [|c [|d p]]]; unfold_append; simplify_eq.
  by eexists.
Qed.

Lemma replace_from_Expr_free (new p : string) :
  occurs "Expr" p = false → replace_from "Expr" new 0 p = p.
Proof.
  induction p as [|a p IH]; [done|]. intros Hfree.
  cbn [occurs] in Hfree. apply orb_false_elim in Hfree as [Hhere Hrest].
  rewrite replace_from_0_cons, Hhere. f_equal. by apply IH.
Qed.

Lemma replace_from_Expr_part (new p rest : string) :
  occurs "Expr" p = false →
  replace_from "Expr" new 0 (p +:+ "Expr" +:+ rest)
  = p +:+ new +:+ replace_from "Expr" new 0 rest.
Proof.
  induction p as [|a p IH]; intros Hfree.
  - unfold_append. rewrite replace_from_0_cons.
    assert (String.prefix "Expr" (String "E" (String "x" (String "p" (String "r" rest))))
            = true) as -> by (apply prefix_true_iff; by eexists).
    reflexivity.
  - pose proof (Expr_no_straddle a p rest Hfree) as Hno.
    cbn [occurs] in Hfree. apply orb_false_elim in Hfree as [_ Hrest].
    rewrite !append_String in *. rewrite replace_from_0_cons, Hno.
    f_equal. by apply IH.
Qed.

(** Replacing ["Expr"] in a text written as parts free of ["Expr"] joined
    by ["Expr"] gives the same parts joined by the new text: every
    occurrence is replaced and nothing else changes. *)
Lemma str_replace_Expr_join (new p : string) (ps : list string) :
  Forall (λ q, occurs "Expr" q = false) (p :: ps) →
  str_replace "Expr" new (str_join "Expr" p ps) = str_join new p ps.
Proof.
  change (str_replace "Expr" new) with (replace_from "Expr" new 0).
  revert p. induction ps as [|q qs IH]; intros p Hfree.
  - apply Forall_cons in Hfree as [Hp _]. by apply replace_from_Expr_free.
  - apply Forall_cons in Hfree as [Hp Hfree]. cbn [str_join].
    rewrite replace_from_Expr_part by done. by rewrite IH.
Qed.

(** ** The per-configuration specialisation *)


Lemma specialize_variant_cases (i : nat) (variant : Variant) :
  match value variant with
  | Some s =>
      specialize_variant i variant
      = Ok {| identifier := identifier variant;
              value := Some (str_replace "Expr" (Expr_token i) s) |}
  | None => specialize_variant i variant = Raise AttributeError
  end.
Proof. unfold specialize_variant. by destruct (value variant). Qed.

Lemma specialize_variation_point_other (i : nat) (v : VariationPoint) :
  handler v ≠ "Expr" → specialize_variation_point i v = Ok v.
Proof. intros Hne. unfold specialize_variation_point. by rewrite decide_False. Qed.

Lemma specialize_variation_point_Expr (i : nat) (v : VariationPoint) :
  handler v = "Expr" →
  Forall (λ variant, value variant ≠ None) (variants v) →
  ∃ vs,
    specialize_variation_point i v
    = Ok {| feature := feature v; handler := Expr_handler i; variants := vs |}
    ∧ forM (specialize_variant i) (variants v) = Ok vs.
Proof.
  intros Hh Hnn. unfold specialize_variation_point. rewrite decide_True by done.
  destruct (forM_all_Ok (specialize_variant i) (variants v)) as [vs Hvs].
  { eapply Forall_impl; [exact Hnn|]. intros variant Hv.
    pose proof (specialize_variant_cases i variant) as Hc.
    destruct (value variant) eqn:E; [by eexists | congruence]. }
  exists vs. rewrite Hvs. split; [|done]. cbn [mbind result_bind]. do 2 f_equal.
  rewrite Hh. destruct i as [|j].
  - by rewrite decide_False by (intros ?; done).
  - rewrite decide_True by done. unfold Expr_handler. do 2 f_equal. lia.
Qed.

Lemma specialize_variation_point_null (i : nat) (v : VariationPoint) :
  handler v = "Expr" →
  Exists (λ variant, value variant = None) (variants v) →
  specialize_variation_point i v = Raise AttributeError.
Proof.
  intros Hh Hex. unfold specialize_variation_point. rewrite decide_True by done.
  rewrite (forM_Raise _ _ AttributeError); [done| |].
  - apply Forall_forall. intros variant _.
    pose proof (specialize_variant_cases i variant) as Hc.
    destruct (value variant); [left; by eexists | by right].
  - eapply Exists_impl; [exact Hex|]. intros variant Hv.
    pose proof (specialize_variant_cases i variant) as Hc. by rewrite Hv in Hc.
Qed.

Lemma specialize_variation_point_Ok_or_AttributeError (i : nat) (v : VariationPoint) :
  (∃ v', specialize_variation_point i v = Ok v')
  ∨ specialize_variation_point i v = Raise AttributeError.
Proof.
  destruct (decide (handler v = "Expr")) as [Hh|Hh].
  - destruct (decide (Exists (λ variant, value variant = None) (variants v)))
      as [Hex|Hnex].
    + right. by apply specialize_variation_point_null.
    + left. apply not_Exists_Forall in Hnex; [|intros ?; apply _].
      destruct (specialize_variation_point_Expr i v Hh) as (vs & -> & _); [|by eexists].
      eapply Forall_impl; [exact Hnex|]. intros variant Hv. exact Hv.
  - left. exists v. by apply specialize_variation_point_other.
Qed.

Lemma null_under_Expr_dec (mapping_model : pydict VariationPoint) :
  null_under_Expr mapping_model
  ↔ Exists (λ kv, handler kv.2 = "Expr"
                  ∧ Exists (λ variant, value variant = None) (variants kv.2))
      mapping_model.
Proof.
  unfold null_under_Expr. rewrite Exists_exists. split.
  - intros (k & vp & variant & Hin & Hh & Hv & Hnull).
    exists (k, vp). split; [done|]. split; [done|].
    apply Exists_exists. eauto.
  - intros ([k vp] & Hin & Hh & Hex). apply Exists_exists in Hex as (variant & ? & ?).
    by exists k, vp, variant.
Qed.

Lemma specialize_null (mapping_model : pydict VariationPoint) (i : nat) :
  null_under_Expr mapping_model → specialize mapping_model i = Raise AttributeError.
Proof.
  intros Hnull%null_under_Expr_dec. unfold specialize.
  apply forM_Raise.
  - apply Forall_forall. intros [k v] _.
    destruct (specialize_variation_point_Ok_or_AttributeError i v) as [[v' ->]| ->];
      [left; by eexists | by right].
  - eapply Exists_impl; [exact Hnull|]. intros [k v] [Hh Hex]. simpl in *.
    by rewrite specialize_variation_point_null.
Qed.

Lemma specialize_no_null (mapping_model : pydict VariationPoint) (i : nat) :
  ¬ null_under_Expr mapping_model → ∃ m, specialize mapping_model i = Ok m.
Proof.
  intros Hnn. unfold specialize. apply forM_all_Ok.
  apply Forall_forall. intros [k v] Hin.
  destruct (specialize_variation_point_Ok_or_AttributeError i v) as [[v' ->]|Hraise];
    [by eexists|].
  exfalso. apply Hnn.
  destruct (decide (handler v = "Expr")) as [Hh|Hh];
    [|by rewrite specialize_variation_point_other in Hraise].
  destruct (decide (Exists (λ variant, value variant = None) (variants v)))
    as [Hex|Hnex].
  - apply Exists_exists in Hex as (variant & ? & ?). by exists k, v, variant.
  - apply not_Exists_Forall in Hnex; [|intros ?; apply _].
    destruct (specialize_variation_point_Expr i v Hh) as (vs & Hok & _);
      [|by rewrite Hok in Hraise].
    eapply Forall_impl; [exact Hnex|]. intros variant Hv. exact Hv.
Qed.

Lemma enumerate_from_lookup {A : Type} (l : list A) (s n : nat) (x : A) :
  l !! n = Some x → enumerate_from s l !! n = Some (s + n, x).
Proof.
  revert s n. induction l as [|y l IH]; intros s [|n] Hn; simplify_eq/=.
  - by rewrite Nat.add_0_r.
  - rewrite (IH (S s) n) by done. do 2 f_equal. lia.
Qed.

Lemma enumerate_from_length {A : Type} (l : list A) (s : nat) :
  length (enumerate_from s l) = length l.
Proof. revert s. induction l as [|y l IH]; intros s; simpl; [done|]. by rewrite IH. Qed.

Lemma enumerate_from_lookup_inv {A : Type} (l : list A) (s n i : nat) (x : A) :
  enumerate_from s l !! n = Some (i, x) → i = s + n ∧ l !! n = Some x.
Proof.
  revert s n. induction l as [|y l IH]; intros s [|n] Hn; simplify_eq/=.
  - split; [lia|done].
  - apply IH in Hn as [-> ?]. split; [lia|done].
Qed.

(** The list returned by [mapping_model_by_configurations] holds, at every
    position, the specialisation for that position. *)
Lemma mapping_model_by_configurations_Ok_lookup (mapping_model : pydict VariationPoint)
    (configurations : list Configuration) (ms : list (pydict VariationPoint)) :
  mapping_model_by_configurations mapping_model configurations = Ok ms →
  length ms = length configurations
  ∧ ∀ i m, ms !! i = Some m → specialize mapping_model i = Ok m.
Proof.
  intros Hok. unfold mapping_model_by_configurations in Hok. split.
  - apply forM_Ok_length in Hok. by rewrite enumerate_from_length in Hok.
  - intros i m Hi.
    assert (i < length configurations) as Hlt.
    { apply forM_Ok_length in Hok. rewrite enumerate_from_length in Hok.
      apply lookup_lt_Some in Hi. lia. }
    apply lookup_lt_is_Some_2 in Hlt as [config Hconfig].
    pose proof (enumerate_from_lookup _ 0 _ _ Hconfig) as Hen.
    destruct (forM_Ok_lookup _ _ _ Hok _ _ Hen) as (m' & Hm' & Hsp).
    simpl in Hsp. congruence.
Qed.

Lemma mapping_model_by_configurations_no_null (mapping_model : pydict VariationPoint)
    (configurations : list Configuration) :
  ¬ null_under_Expr mapping_model →
  ∃ ms, mapping_model_by_configurations mapping_model configurations = Ok ms.
Proof.
  intros Hnn. unfold mapping_model_by_configurations.
  apply forM_all_Ok, Forall_forall. intros [i config] _.
  by apply specialize_no_null.
Qed.


(** C10. The specialisation is total only when every variant of every
    variation point handled by ["Expr"] has a non-null value: with a null
    value there (as a row with [VariantValue] ["-"] produces), the loop body
    raises for every configuration index, index 0 included, so
    [mapping_model_by_configurations] raises for every non-empty list of
    configurations; without one it returns a list of models. *)
Theorem specialize_raises_on_null_value (mapping_model : pydict VariationPoint) :
  (null_under_Expr mapping_model →
     (∀ i, specialize mapping_model i = Raise AttributeError)
     ∧ (∀ configurations, configurations ≠ [] →
          mapping_model_by_configurations mapping_model configurations
          = Raise AttributeError))
  ∧ (¬ null_under_Expr mapping_model →
     ∀ configurations, ∃ ms,
       mapping_model_by_configurations mapping_model configurations = Ok ms).
Proof.
  split.
  - intros Hnull. split; [intros i; by apply specialize_null|].
    intros [|config configurations] Hne; [done|].
    unfold mapping_model_by_configurations. simpl.
    by rewrite specialize_null.
  - intros Hnn configurations. by apply mapping_model_by_configurations_no_null.
Qed.

Lemma specialize_raises_on_null_value_witness :
  load_mapping_model Example_Expr.rows_null Example_Expr.fm = Ok Example_Expr.model_null
  ∧ specialize Example_Expr.model_null 0 = Raise AttributeError
  ∧ mapping_model_by_configurations Example_Expr.model_null [Example_Expr.config]
    = Raise AttributeError
  ∧ ∃ ms, mapping_model_by_configurations Example_Expr.model [Example_Expr.config] = Ok ms.
Proof.
  assert (null_under_Expr Example_Expr.model_null) as Hnull.
  { exists "Op", {| feature := "Op"; handler := "Expr";
                    variants := [ {| identifier := "Add"; value := Some "Expr + Expr" |};
                                  {| identifier := "Neg"; value := None |} ] |},
      {| identifier := "Neg"; value := None |}.
    repeat split; [left | right; left]. }
  assert (¬ null_under_Expr Example_Expr.model) as Hnn.
  { intros H%null_under_Expr_dec. revert H. compute_done. }
  split; [reflexivity|]. split; [|split].
  - by apply (proj1 (specialize_raises_on_null_value Example_Expr.model_null)).
  - by apply (proj1 (specialize_raises_on_null_value Example_Expr.model_null)).
  - by apply (proj2 (specialize_raises_on_null_value Example_Expr.model)).
Defined.

(** C2, as the code has it. For a mapping model in which no variation point
    handled by ["Expr"] has a variant with a null value, and any list of
    configurations, the specialisation returns one model per configuration;
    the model at index [i] has the same keys in the same order; a variation
    point whose handler is not ["Expr"] is unchanged; one whose handler is
    ["Expr"] keeps its feature and its variants' identifiers, gets the
    handler ["Expr"], ["Expr0"], ["Expr1"] at indices 0, 1, 2 (["Expr"]
    followed by [i-1] from index 1 on), and in each variant value every
    occurrence of ["Expr"] is replaced by ["Expr0"], ["Expr1"], ["Expr2"] at
    indices 0, 1, 2 (["Expr"] followed by [i]). *)
Theorem specialize_Expr_renaming (mapping_model : pydict VariationPoint)
    (configurations : list Configuration)
    (Hnn : ¬ null_under_Expr mapping_model) :
  (Expr_handler 0 = "Expr" ∧ Expr_handler 1 = "Expr0" ∧ Expr_handler 2 = "Expr1")
  ∧ (Expr_token 0 = "Expr0" ∧ Expr_token 1 = "Expr1" ∧ Expr_token 2 = "Expr2")
  ∧ ∃ ms,
      mapping_model_by_configurations mapping_model configurations = Ok ms
      ∧ length ms = length configurations
      ∧ ∀ i m, ms !! i = Some m →
          length m = length mapping_model
          ∧ ∀ j k vp, mapping_model !! j = Some (k, vp) →
              ∃ vp', m !! j = Some (k, vp')
                ∧ (handler vp ≠ "Expr" → vp' = vp)
                ∧ (handler vp = "Expr" →
                     feature vp' = feature vp
                     ∧ handler vp' = Expr_handler i
                     ∧ length (variants vp') = length (variants vp)
                     ∧ ∀ n variant, variants vp !! n = Some variant →
                         ∃ s, value variant = Some s
                           ∧ variants vp' !! n
                             = Some {| identifier := identifier variant;
                                       value := Some (str_replace "Expr" (Expr_token i) s) |}
                           ∧ ∀ p ps,
                               s = str_join "Expr" p ps →
                               Forall (λ q, occurs "Expr" q = false) (p :: ps) →
                               str_replace "Expr" (Expr_token i) s
                               = str_join (Expr_token i) p ps).
Proof.
  split; [done|]. split; [done|].
  destruct (mapping_model_by_configurations_no_null mapping_model configurations Hnn)
    as [ms Hms].
  exists ms. split; [done|].
  apply mapping_model_by_configurations_Ok_lookup in Hms as [Hlen Hat].
  split; [done|]. intros i m Hm. apply Hat in Hm. unfold specialize in Hm.
  split; [by apply forM_Ok_length in Hm|].
  intros j k vp Hj.
  destruct (forM_Ok_lookup _ _ _ Hm _ _ Hj) as ([k' vp'] & Hj' & Hstep).
  destruct (specialize_variation_point i vp) as [v'|e] eqn:Hsp; simplify_eq/=.
  exists vp'. split; [done|]. split.
  - intros Hother. rewrite specialize_variation_point_other in Hsp by done. congruence.
  - intros HExpr.
    assert (Forall (λ variant, value variant ≠ None) (variants vp)) as Hvalues.
    { apply Forall_forall. intros variant Hin Hnone. apply Hnn.
      exists k', vp, variant. repeat split; try done.
      by eapply list_elem_of_lookup_2. }
    destruct (specialize_variation_point_Expr i vp HExpr Hvalues) as (vs & Hok & Hvs).
    rewrite Hok in Hsp. injection Hsp as <-. simpl.
    split; [done|]. split; [done|].
    split; [by apply forM_Ok_length in Hvs|].
    intros n variant Hn.
    destruct (forM_Ok_lookup _ _ _ Hvs _ _ Hn) as (variant' & Hn' & Hv).
    pose proof (specialize_variant_cases i variant) as Hc.
    destruct (value variant) as [s|] eqn:Hs; [|congruence].
    exists s. split; [done|]. split; [simpl in *; congruence|].
    intros p ps -> Hfree. by apply str_replace_Expr_join.
Qed.

Lemma specialize_Expr_renaming_witness :
  ∃ ms,
    mapping_model_by_configurations Example_Expr.model
      [Example_Expr.config; Example_Expr.config; Example_Expr.config] = Ok ms
    ∧ length ms = 3.
Proof.
  assert (¬ null_under_Expr Example_Expr.model) as Hnn.
  { intros H%null_under_Expr_dec. revert H. compute_done. }
  destruct (specialize_Expr_renaming Example_Expr.model
              [Example_Expr.config; Example_Expr.config; Example_Expr.config] Hnn)
    as (_ & _ & ms & Hms & Hlen & _).
  exists ms. split; [exact Hms | exact Hlen].
Defined.

(** C2, as stated, fails: this model, loaded from two rows of which the
    second has the value ["-"], has a variation point handled by ["Expr"],
    yet for three configurations no specialised model is produced at all,
    so no handler is renamed and no value is rewritten. *)
Lemma specialize_Expr_renaming_null_counterexample :
  load_mapping_model Example_Expr.rows_null Example_Expr.fm = Ok Example_Expr.model_null
  ∧ mapping_model_by_configurations Example_Expr.model_null
      [Example_Expr.config; Example_Expr.config; Example_Expr.config]
    = Raise AttributeError
  ∧ ¬ ∃ ms,
        mapping_model_by_configurations Example_Expr.model_null
          [Example_Expr.config; Example_Expr.config; Example_Expr.config] = Ok ms.
Proof.
  split; [reflexivity|]. split; [reflexivity|]. by intros [ms ?].
Qed.

(** ** Loading the mapping model *)

Lemma get_set_eq {V : Type} (k : string) (v : V) (d : pydict V) :
  get k (set k v d) = Some v.
Proof.
  induction d as [|[k' v'] d IH]; simpl.
  - by rewrite decide_True.
  - destruct (decide (k' = k)) as [->|Hne]; simpl.
    + by rewrite decide_True.
    + by rewrite decide_False.
Qed.

Lemma get_set_ne {V : Type} (k k' : string) (v : V) (d : pydict V) :
  k ≠ k' → get k' (set k v d) = get k' d.
Proof.
  intros Hne. induction d as [|[k0 v0] d IH]; simpl.
  - by rewrite decide_False.
  - destruct (decide (k0 = k)) as [->|Hne0]; simpl.
    + by rewrite !decide_False.
    + destruct (decide (k0 = k')); [done | apply IH].
Qed.

Lemma since_last_dotted_snoc (rows : list Row) (r : Row) :
  since_last_dotted (rows ++ [r])
  = if row_dotted r then [r] else since_last_dotted rows ++ [r].
Proof.
  induction rows as [|x t IH]; simpl.
  - by destruct (row_dotted r).
  - rewrite existsb_app. simpl. rewrite orb_false_r, IH.
    destruct (row_dotted r); [by rewrite orb_true_r|].
    rewrite orb_false_r. by destruct (existsb row_dotted t).
Qed.

Lemma current_rows_snoc (k : string) (rows : list Row) (r : Row) :
  current_rows k (rows ++ [r])
  = if decide (row_key r = k)
    then (if row_dotted r then [r] else current_rows k rows ++ [r])
    else current_rows k rows.
Proof.
  unfold current_rows. rewrite filter_app.
  destruct (decide (row_key r = k)) as [Hk|Hk].
  - rewrite (filter_cons_True _ r []) by done. rewrite filter_nil.
    apply since_last_dotted_snoc.
  - rewrite (filter_cons_False _ r []) by done. by rewrite filter_nil, app_nil_r.
Qed.

Lemma set_set {V : Type} (k : string) (v v0 : V) (d : pydict V) :
  set k v (set k v0 d) = set k v d.
Proof.
  induction d as [|[k' v'] d IH]; simpl.
  - by rewrite decide_True.
  - destruct (decide (k' = k)) as [->|Hne]; simpl.
    + by rewrite decide_True.
    + rewrite decide_False by done. by rewrite IH.
Qed.

(** What one row does to the mapping model. *)
Lemma load_mapping_model_step_Ok (fm : FeatureModel)
    (variation_points variation_points' : pydict VariationPoint) (row : Row) :
  load_mapping_model_step fm variation_points row = Ok variation_points' →
  variation_points' = set (row_key row) (row_result variation_points row) variation_points.
Proof.
  unfold load_mapping_model_step, row_result, row_key, row_dotted, mem. intros Hstep.
  fold (row_variant row) in Hstep.
  destruct (in_str "."%char (VariantIdentifier row)) eqn:Hdot.
  - destruct (get_feature_from_fm (VariationPointFeature row) fm) as [f|e] eqn:Hf;
      [|done].
    apply get_feature_from_fm_Ok in Hf as [-> _].
    cbn [mbind result_bind] in Hstep. rewrite get_set_eq in Hstep.
    injection Hstep as <-. by rewrite set_set.
  - destruct (get (VariationPointFeature row) variation_points) as [vp|] eqn:Hget.
    + cbn [negb mbind result_bind] in Hstep. rewrite Hget in Hstep.
      by injection Hstep as <-.
    + cbn [negb] in Hstep.
      destruct (get_feature_from_fm (VariationPointFeature row) fm) as [f|e] eqn:Hf;
        [|done].
      apply get_feature_from_fm_Ok in Hf as [-> _].
      cbn [mbind result_bind] in Hstep. rewrite get_set_eq in Hstep.
      injection Hstep as <-. by rewrite set_set.
Qed.

Lemma load_mapping_model_step_get (fm : FeatureModel)
    (variation_points variation_points' : pydict VariationPoint) (row : Row) :
  load_mapping_model_step fm variation_points row = Ok variation_points' →
  ∀ k, get k variation_points'
       = if decide (row_key row = k) then Some (row_result variation_points row)
         else get k variation_points.
Proof.
  intros -> %load_mapping_model_step_Ok k.
  destruct (decide (row_key row = k)) as [<-|Hk].
  - apply get_set_eq.
  - by apply get_set_ne.
Qed.

Lemma load_mapping_model_get (rows : list Row) (fm : FeatureModel)
    (mapping_model : pydict VariationPoint) :
  load_mapping_model rows fm = Ok mapping_model →
  ∀ k, get k mapping_model = variation_point_of_rows (current_rows k rows).
Proof.
  unfold load_mapping_model. revert mapping_model.
  induction rows as [|r rows IH] using rev_ind; intros mm Hload k.
  - by injection Hload as <-.
  - rewrite foldM_snoc in Hload.
    destruct (foldM (load_mapping_model_step fm) [] rows) as [mm0|e] eqn:Hrows;
      [|done].
    cbn [mbind result_bind] in Hload.
    rewrite (load_mapping_model_step_get _ _ _ _ Hload k), current_rows_snoc.
    specialize (IH mm0 eq_refl k).
    destruct (decide (row_key r = k)) as [Hk|Hk]; [|done].
    unfold row_result. rewrite Hk.
    destruct (row_dotted r); [done|]. rewrite IH.
    destruct (current_rows k rows) as [|r0 rs]; [done|]. simpl.
    by rewrite fmap_app.
Qed.

(** C3, as the code has it. Every row files its variant under its key: the
    variant identifier when that contains ['.'], the variation-point feature
    otherwise. A dotted row always stores a new variation point under its
    key, replacing the one stored there with its variants; a row without
    ['.'] creates the variation point at the first row for its key and
    reuses it afterwards. So the variation point under a key holds, in row
    order, the variants of the rows filed under that key since the last
    dotted one: two rows without ['.'] sharing a key yield one variation
    point holding both variants in row order, while two dotted rows sharing
    an identifier yield one variation point holding the second variant
    only. *)
Theorem load_mapping_model_grouping (rows : list Row) (fm : FeatureModel)
    (mapping_model : pydict VariationPoint)
    (Hload : load_mapping_model rows fm = Ok mapping_model) :
  (∀ k, get k mapping_model = variation_point_of_rows (current_rows k rows))
  ∧ (∀ r1 r2,
       rows = [r1; r2] →
       row_dotted r1 = false → row_dotted r2 = false →
       VariationPointFeature r2 = VariationPointFeature r1 →
       mapping_model
       = [(VariationPointFeature r1,
           {| feature := VariationPointFeature r1; handler := Handler r1;
              variants := [row_variant r1; row_variant r2] |})])
  ∧ (∀ r1 r2,
       rows = [r1; r2] →
       row_dotted r1 = true → row_dotted r2 = true →
       VariantIdentifier r2 = VariantIdentifier r1 →
       mapping_model
       = [(VariantIdentifier r2,
           {| feature := VariationPointFeature r2; handler := Handler r2;
              variants := [row_variant r2] |})]).
Proof.
  split; [exact (load_mapping_model_get _ _ _ Hload)|].
  assert (∀ r1 r2, rows = [r1; r2] →
            mapping_model
            = set (row_key r2) (row_result (set (row_key r1) (row_result [] r1) []) r2)
                (set (row_key r1) (row_result [] r1) [])) as Htwo.
  { intros r1 r2 ->. revert Hload. unfold load_mapping_model. cbn [foldM].
    destruct (load_mapping_model_step fm [] r1) as [mm1|e] eqn:Hstep1; [|done].
    cbn [mbind result_bind].
    destruct (load_mapping_model_step fm mm1 r2) as [mm2|e] eqn:Hstep2; [|done].
    intros [= <-].
    apply load_mapping_model_step_Ok in Hstep1. subst mm1.
    by apply load_mapping_model_step_Ok in Hstep2. }
  split; intros r1 r2 Hrows Hd1 Hd2 Hsame; rewrite (Htwo r1 r2 Hrows);
    unfold row_result, row_key; rewrite Hd1, Hd2; cbn [get set];
    rewrite Hsame, !decide_True by done; done.
Qed.

Lemma load_mapping_model_grouping_witness :
  load_mapping_model [Example_rows.plain1; Example_rows.plain2] Example_rows.fm
  = Ok [("Op", Example_rows.Op)]
  ∧ get "Op" [("Op", Example_rows.Op)]
    = variation_point_of_rows
        (current_rows "Op" [Example_rows.plain1; Example_rows.plain2]).
Proof.
  assert (load_mapping_model [Example_rows.plain1; Example_rows.plain2] Example_rows.fm
          = Ok [("Op", Example_rows.Op)]) as Hload by reflexivity.
  split; [exact Hload|].
  exact (proj1 (load_mapping_model_grouping _ _ _ Hload) "Op").
Defined.

(** C3, as stated, fails on dotted rows: these two rows share the key
    ["A.x"], and the variation point stored under it holds the second
    variant only, not both. *)
Lemma load_mapping_model_dotted_counterexample :
  row_key Example_rows.dotted1 = "A.x"
  ∧ row_key Example_rows.dotted2 = "A.x"
  ∧ load_mapping_model [Example_rows.dotted1; Example_rows.dotted2] Example_rows.fm
    = Ok [("A.x", {| feature := "A"; handler := "H";
                     variants := [ {| identifier := "A.x"; value := Some "2" |} ] |})]
  ∧ ¬ ∃ mm vp,
        load_mapping_model [Example_rows.dotted1; Example_rows.dotted2] Example_rows.fm
        = Ok mm
        ∧ get "A.x" mm = Some vp
        ∧ variants vp = [row_variant Example_rows.dotted1; row_variant Example_rows.dotted2].
Proof.
  split; [reflexivity|]. split; [reflexivity|]. split; [reflexivity|].
  intros (mm & vp & Hload & Hget & Hvs).
  vm_compute in Hload. injection Hload as <-.
  vm_compute in Hget. injection Hget as <-. by vm_compute in Hvs.
Qed.

(** ** The null value *)

(** C4, as the code has it. A row with [VariantValue] ["-"] files a variant
    whose value is null; when the first variant whose guard is satisfied
    has a plain identifier and carries the null value (the guards looked up
    on the way being features of the model), [get_variant_value] returns
    the null value without raising; and that is the very result it returns
    when no variant's guard is satisfied: the two cases are not told
    apart. *)
Theorem null_sentinel_resolution (fm : FeatureModel) :
  (∀ variation_points row variation_points',
      load_mapping_model_step fm variation_points row = Ok variation_points' →
      VariantValue row = "-" →
      ∃ vp, get (row_key row) variation_points' = Some vp
            ∧ last (variants vp)
              = Some {| identifier := VariantIdentifier row; value := None |})
  ∧ (∀ vp configurations attributes pre v post,
      variants vp = pre ++ v :: post →
      Forall (passed_over fm configurations) pre →
      guard_name v ∈ fm_features fm →
      guard_satisfied configurations v = true →
      in_str "."%char (identifier v) = false →
      value v = None →
      get_variant_value fm vp configurations attributes = Ok None)
  ∧ (∀ vp configurations attributes,
      Forall (passed_over fm configurations) (variants vp) →
      get_variant_value fm vp configurations attributes = Ok None).
Proof.
  split; [|split].
  - intros vps row vps' Hstep Hvalue.
    rewrite (load_mapping_model_step_get _ _ _ _ Hstep), decide_True by done.
    eexists. split; [done|].
    assert (row_variant row = {| identifier := VariantIdentifier row; value := None |})
      as Hvariant by (unfold row_variant; by rewrite decide_True).
    unfold row_result.
    destruct (if row_dotted row then None else get (row_key row) vps) as [vp|];
      cbn [variants]; rewrite Hvariant; [apply last_snoc | done].
  - intros vp configurations attributes pre v post Hvs Hpre Hin Hsel Hplain Hnull.
    unfold get_variant_value.
    rewrite Hvs, get_variant_value_loop_passed by done. cbn [get_variant_value_loop].
    rewrite (get_feature_from_fm_known _ _ Hin). cbn [mbind result_bind].
    unfold guard_satisfied in Hsel. rewrite Hsel.
    unfold candidate_value. by rewrite Hplain, Hnull.
  - intros vp configurations attributes Hall. unfold get_variant_value.
    rewrite <- (app_nil_r (variants vp)).
    by rewrite get_variant_value_loop_passed.
Qed.

Lemma null_sentinel_resolution_witness :
  load_mapping_model [Example_rows.plain1; Example_rows.plain2] Example_rows.fm
  = Ok [("Op", Example_rows.Op)]
  ∧ get_variant_value Example_rows.fm Example_rows.Op [Example_rows.select_Sub] []
    = Ok None
  ∧ get_variant_value Example_rows.fm Example_rows.Op [Example_rows.select_none] []
    = Ok None.
Proof.
  split; [reflexivity|]. split.
  - apply (proj1 (proj2 (null_sentinel_resolution Example_rows.fm))
             Example_rows.Op [Example_rows.select_Sub] []
             [ {| identifier := "Add"; value := Some "+" |} ]
             {| identifier := "Sub"; value := None |} []).
    + reflexivity.
    + repeat constructor.
    + compute_done.
    + reflexivity.
    + reflexivity.
    + reflexivity.
  - apply (proj2 (proj2 (null_sentinel_resolution Example_rows.fm))).
    repeat constructor.
Defined.

(** C4, as stated, fails: in the model loaded from these rows the variant
    guarded by ["Sub"] carries the null value; resolving with ["Sub"]
    selected (that variant is the first satisfied one) and resolving with
    nothing selected (no match) give the same result. *)
Lemma null_sentinel_not_distinct_counterexample :
  load_mapping_model [Example_rows.plain1; Example_rows.plain2] Example_rows.fm
  = Ok [("Op", Example_rows.Op)]
  ∧ get_variant_value Example_rows.fm Example_rows.Op [Example_rows.select_Sub] []
    = Ok None
  ∧ get_variant_value Example_rows.fm Example_rows.Op [Example_rows.select_none] []
    = Ok None
  ∧ ¬ (get_variant_value Example_rows.fm Example_rows.Op [Example_rows.select_Sub] []
       ≠ get_variant_value Example_rows.fm Example_rows.Op [Example_rows.select_none] []).
Proof.
  split; [reflexivity|]. split; [reflexivity|]. split; [reflexivity|].
  intros Hne. by apply Hne.
Qed.

(** ** Parsing a configuration *)

Lemma selection_rule_feature_selected (a : gmap string string) (b : bool) :
  selection_rule a b ↔ b = feature_selected a.
Proof.
  unfold feature_selected. split.
  - intros [v Ha|v Ha Hm|Ha Hm]; rewrite Ha; [done| |]; by rewrite Hm.
  - intros ->. destruct (a !! "automatic") as [v|] eqn:Ha.
    + by apply selection_automatic.
    + destruct (a !! "manual") as [v|] eqn:Hm.
      * by apply selection_manual.
      * by apply selection_default.
Qed.

(** What one record does to the features parsed so far. *)
Lemma parse_configuration_step_Ok (fm : FeatureModel)
    (features features' : gmap string bool) (child : Element) :
  parse_configuration_step fm features child = Ok features' →
  (attrib child = ∅ ∧ features' = features)
  ∨ (∃ name, attrib child !! "name" = Some name
       ∧ features' = <[name := feature_selected (attrib child)]> features).
Proof.
  unfold parse_configuration_step.
  destruct (decide (attrib child = ∅)) as [Hempty|Hne].
  { intros [= <-]. by left. }
  destruct (attrib child !! "name") as [name|] eqn:Hname; [|done].
  destruct (get_feature_from_fm name fm) as [f|e] eqn:Hf; [|done].
  apply get_feature_from_fm_Ok in Hf as [-> _].
  intros [= <-]. right. by exists name.
Qed.

Lemma records_of_snoc (f : string) (root : list Element) (child : Element) :
  records_of f (root ++ [child])
  = if decide (attrib child !! "name" = Some f)
    then records_of f root ++ [child] else records_of f root.
Proof.
  unfold records_of. rewrite filter_app.
  destruct (decide (attrib child !! "name" = Some f)) as [Hk|Hk].
  - by rewrite (filter_cons_True _ child []), filter_nil by done.
  - by rewrite (filter_cons_False _ child []), filter_nil, app_nil_r by done.
Qed.

Lemma parse_configuration_loop_lookup (fm : FeatureModel) (root : list Element)
    (features : gmap string bool) :
  foldM (parse_configuration_step fm) ∅ root = Ok features →
  ∀ f, features !! f = (feature_selected ∘ attrib) <$> last (records_of f root).
Proof.
  revert features. induction root as [|child root IH] using rev_ind;
    intros features Hloop f.
  - injection Hloop as <-. by rewrite lookup_empty.
  - rewrite foldM_snoc in Hloop.
    destruct (foldM (parse_configuration_step fm) ∅ root) as [features0|e]; [|done].
    cbn [mbind result_bind] in Hloop. specialize (IH features0 eq_refl f).
    rewrite records_of_snoc.
    apply parse_configuration_step_Ok in Hloop as [[Hempty ->]|(name & Hname & ->)].
    + rewrite decide_False; [done|]. by rewrite Hempty, lookup_empty.
    + destruct (decide (name = f)) as [->|Hne].
      * rewrite decide_True, lookup_insert_eq, last_snoc by done. done.
      * rewrite decide_False, lookup_insert_ne by congruence. done.
Qed.

(** C7. Selection precedence when parsing a configuration: a record with a
    name is stored with the flag that the rule gives it (an explicit
    [automatic] attribute decides by being ["selected"]; otherwise an
    explicit [manual] attribute decides by being ["selected"]; otherwise
    the flag is false), and the parsed configuration gives each feature the
    flag of the last record that names it. *)
Theorem parse_configuration_selection (root : list Element) (fm : FeatureModel)
    (config : Configuration) (Hparse : parse_configuration root fm = Ok config) :
  (∀ features features' child name,
      attrib child !! "name" = Some name →
      parse_configuration_step fm features child = Ok features' →
      ∃ b, selection_rule (attrib child) b ∧ features' = <[name := b]> features)
  ∧ (∀ f b,
      elements config !! f = Some b
      ↔ ∃ child, last (records_of f root) = Some child
                 ∧ selection_rule (attrib child) b).
Proof.
  split.
  - intros features features' child name Hname Hstep.
    apply parse_configuration_step_Ok in Hstep as [[Hempty _]|(name' & Hname' & ->)].
    { by rewrite Hempty, lookup_empty in Hname. }
    exists (feature_selected (attrib child)).
    split; [by apply selection_rule_feature_selected | congruence].
  - intros f b. unfold parse_configuration in Hparse.
    destruct (foldM (parse_configuration_step fm) ∅ root) as [features|e] eqn:Hloop;
      [|done].
    injection Hparse as <-. cbn [elements].
    rewrite (parse_configuration_loop_lookup _ _ _ Hloop f).
    destruct (last (records_of f root)) as [child|]; cbn [fmap option_fmap option_map].
    + split.
      * intros [= <-]. exists child. split; [done|].
        by apply selection_rule_feature_selected.
      * intros (child' & [= <-] & ->%selection_rule_feature_selected). done.
    + split; [done|]. by intros (child & ? & _).
Qed.

Lemma parse_configuration_selection_witness :
  parse_configuration Example_config.root Example_config.fm = Ok Example_config.config
  ∧ (elements Example_config.config !! "Add" = Some true
     ↔ ∃ child, last (records_of "Add" Example_config.root) = Some child
                ∧ selection_rule (attrib child) true).
Proof.
  assert (parse_configuration Example_config.root Example_config.fm
          = Ok Example_config.config) as Hparse by (vm_compute; reflexivity).
  split; [exact Hparse|].
  exact (proj2 (parse_configuration_selection _ _ _ Hparse) "Add" true).
Defined.

(** ** The template map *)

(** One iteration of the builder, by the cases of its rule. *)
Lemma build_template_maps_step_cases (fm : FeatureModel)
    (configurations : list Configuration) (attributes : list (gmap string string))
    (maps : gmap string pyval) (vp : VariationPoint) :
  build_template_maps_step fm configurations attributes maps vp
  = if vp_skipped configurations vp then Ok maps
    else if presence_only vp then Ok (<[handler vp := PyTrue]> maps)
    else v ← get_variant_value fm vp configurations attributes;
         Ok (<[handler vp := pyval_of v]> maps).
Proof.
  unfold build_template_maps_step, vp_skipped, presence_only.
  destruct (in_str "."%char (handler vp)); [done|].
  destruct (is_selected_in_a_configuration (feature vp) configurations); [|done].
  cbn [negb orb]. destruct (variants vp) as [|first rest]; [done|].
  by destruct (decide (identifier first = "-")) as [->|Hne];
    [rewrite bool_decide_eq_true_2 | rewrite bool_decide_eq_false_2].
Qed.

Lemma writers_snoc (configurations : list Configuration) (h : string)
    (vps : list VariationPoint) (vp : VariationPoint) :
  writers configurations h (vps ++ [vp])
  = if decide (handler vp = h ∧ vp_skipped configurations vp = false)
    then writers configurations h vps ++ [vp] else writers configurations h vps.
Proof.
  unfold writers. rewrite filter_app.
  destruct (decide (handler vp = h ∧ vp_skipped configurations vp = false)) as [Hk|Hk].
  - by rewrite (filter_cons_True _ vp []), filter_nil by done.
  - by rewrite (filter_cons_False _ vp []), filter_nil, app_nil_r by done.
Qed.

Lemma build_template_maps_loop (fm : FeatureModel)
    (configurations : list Configuration) (attributes : list (gmap string string))
    (vps : list VariationPoint) :
  match foldM (build_template_maps_step fm configurations attributes) ∅ vps with
  | Ok maps =>
      ∀ h, entry_rule fm configurations attributes maps h
             (last (writers configurations h vps))
  | Raise e =>
      ∃ vp, vp ∈ vps ∧ vp_skipped configurations vp = false
            ∧ presence_only vp = false
            ∧ get_variant_value fm vp configurations attributes = Raise e
  end.
Proof.
  induction vps as [|vp vps IH] using rev_ind.
  - intros h. apply lookup_empty.
  - rewrite foldM_snoc.
    destruct (foldM (build_template_maps_step fm configurations attributes) ∅ vps)
      as [maps|e]; cbn [mbind result_bind].
    2:{ destruct IH as (vp' & Hin & ?). exists vp'. split; [|done].
        apply elem_of_app. by left. }
    rewrite build_template_maps_step_cases.
    destruct (vp_skipped configurations vp) eqn:Hskip.
    { intros h. rewrite writers_snoc, decide_False; [apply IH|].
      intros [_ ?]. congruence. }
    destruct (presence_only vp) eqn:Hpres.
    { intros h. rewrite writers_snoc.
      destruct (decide (handler vp = h)) as [<-|Hne].
      - rewrite decide_True, last_snoc by done. cbn [entry_rule].
        by rewrite Hpres, lookup_insert_eq.
      - rewrite decide_False by (by intros [? _]).
        specialize (IH h). unfold entry_rule in *.
        by rewrite lookup_insert_ne. }
    destruct (get_variant_value fm vp configurations attributes) as [v|e] eqn:Hv;
      cbn [mbind result_bind].
    2:{ exists vp. split; [|done]. apply elem_of_app. right. left. }
    intros h. rewrite writers_snoc.
    destruct (decide (handler vp = h)) as [<-|Hne].
    + rewrite decide_True, last_snoc by done. cbn [entry_rule].
      rewrite Hpres. exists v. by rewrite lookup_insert_eq.
    + rewrite decide_False by (by intros [? _]).
      specialize (IH h). unfold entry_rule in *.
      by rewrite lookup_insert_ne.
Qed.

(** C6. The template map is built by one rule per variation point, in the
    iteration order of the mapping model: a variation point is skipped when
    its handler contains ['.'] or its governing feature is selected in no
    supplied configuration; otherwise it writes, under its handler, [True]
    when it has no variants or its first variant's identifier is ["-"],
    and the result of [get_variant_value] otherwise. Hence the map holds,
    for each handler, what the last variation point writing it wrote, and
    no other key; and the builder raises exactly what [get_variant_value]
    raises on a variation point that needs resolution. *)
Theorem build_template_maps_rule (fm : FeatureModel)
    (mapping_model : pydict VariationPoint)
    (configurations : list Configuration) (attributes : list (gmap string string)) :
  match build_template_maps fm mapping_model configurations attributes with
  | Ok maps =>
      ∀ h,
        match last (writers configurations h (values mapping_model)) with
        | None => maps !! h = None
        | Some vp =>
            if presence_only vp then maps !! h = Some PyTrue
            else ∃ v, get_variant_value fm vp configurations attributes = Ok v
                      ∧ maps !! h = Some (pyval_of v)
        end
  | Raise e =>
      ∃ vp, vp ∈ values mapping_model
            ∧ vp_skipped configurations vp = false
            ∧ presence_only vp = false
            ∧ get_variant_value fm vp configurations attributes = Raise e
  end.
Proof.
  unfold build_template_maps.
  exact (build_template_maps_loop fm configurations attributes (values mapping_model)).
Qed.

(** The end-to-end example: the variation point ["Op"] resolves to the
    value of the variant guarded by the selected ["Sub"], the flag-only
    variation point maps to [True], and the dotted handler is skipped. *)
Example build_template_maps_example :
  build_template_maps Example_maps.fm Example_maps.model [Example_maps.config] []
  = Ok {[ "Op" := PyStr "minus"; "Flag" := PyTrue ]}.
Proof. vm_compute. reflexivity. Qed.

(** ** The specialised copies in the store *)

Section store_isolation.
Import Store.

Lemma bind_Done {A B : Type} (m : M A) (f : A → M B) (σ σ' : store) (b : B) :
  (m ≫= f) σ = Done b σ' → ∃ a σ1, m σ = Done a σ1 ∧ f a σ1 = Done b σ'.
Proof.
  unfold mbind, M_bind. destruct (m σ) as [a σ1| |]; [|done..]. eauto.
Qed.

Lemma ret_Done {A : Type} (a b : A) (σ σ' : store) :
  mret (M := M) a σ = Done b σ' → b = a ∧ σ' = σ.
Proof. unfold mret, M_ret. by intros [= <- <-]. Qed.

Lemma load_Done (l : loc) (o : obj) (σ σ' : store) :
  load l σ = Done o σ' → σ' = σ ∧ σ !! l = Some o.
Proof. unfold load. destruct (σ !! l); [|done]. by intros [= <- <-]. Qed.

Lemma alloc_Done (o : obj) (l : loc) (σ σ' : store) :
  alloc o σ = Done l σ' → l = length σ ∧ σ' = σ ++ [o].
Proof. unfold alloc. by intros [= <- <-]. Qed.

Lemma put_Done (l : loc) (o : obj) (u : unit) (σ σ' : store) :
  put l o σ = Done u σ' → (l < length σ)%nat ∧ σ' = <[l := o]> σ.
Proof. unfold put. destruct (decide _); [|done]. by intros [= <-]. Qed.

Lemma prefix_lookup_lt (σ σ' : store) (l : loc) :
  σ `prefix_of` σ' → (l < length σ)%nat → σ' !! l = σ !! l.
Proof. intros [k ->] Hl. by apply lookup_app_l. Qed.

(** *** Reachability stays inside a closed block *)

Lemma reach_block (σ : store) (a b : nat) (r l : loc) :
  block_closed σ a b → (a ≤ r < b)%nat → reach σ r l → (a ≤ l < b)%nat.
Proof.
  intros Hclosed Hr Hreach. induction Hreach as [l|l l' l'' o Hl Hin _ IH]; [done|].
  apply IH. by eapply Hclosed.
Qed.

Lemma reach_closed (σ : store) (r l : loc) :
  closed σ → (r < length σ)%nat → reach σ r l → (l < length σ)%nat.
Proof.
  intros Hclosed Hr Hreach. induction Hreach as [l|l l' l'' o Hl Hin _ IH]; [done|].
  apply IH. by eapply Hclosed.
Qed.

(** *** Copying *)

Lemma copy_inv_start (σ : store) : copy_inv (length σ) σ ∅.
Proof.
  split; [done|]. split; [by intros x y ?|].
  intros l o l' Hl. lia.
Qed.

Lemma copy_inv_alloc (n0 : nat) (σ : store) (memo : gmap loc loc) (o : obj) (x : loc) :
  copy_inv n0 σ memo →
  Forall (λ y, (n0 ≤ y < length σ)%nat) (refs o) →
  copy_inv n0 (σ ++ [o]) (<[x := length σ]> memo).
Proof.
  intros (Hn0 & Hmemo & Hblock) Hrefs. rewrite Forall_forall in Hrefs.
  unfold copy_inv. rewrite length_app. cbn [length]. split; [lia|]. split.
  - intros x' y. destruct (decide (x = x')) as [->|Hne].
    + rewrite lookup_insert_eq. intros [= <-]. lia.
    + rewrite lookup_insert_ne by done. intros Hy%Hmemo. lia.
  - intros l o0 l' Hl Hlookup Hin.
    destruct (decide (l < length σ)%nat) as [Hlt|Hge].
    + rewrite lookup_app_l in Hlookup by done.
      specialize (Hblock l o0 l' ltac:(lia) Hlookup Hin). lia.
    + assert (l = length σ) as -> by lia.
      rewrite list_lookup_middle in Hlookup by done. injection Hlookup as <-.
      specialize (Hrefs l' Hin). lia.
Qed.

Lemma deepcopy_object_ok (n0 : nat) (c : gmap loc loc → obj → M (obj * gmap loc loc)) :
  copier_ok n0 c → copies_ok n0 (deepcopy_object c).
Proof.
  intros Hc memo x σ y memo' σ' Hrun Hinv. unfold deepcopy_object in Hrun.
  destruct (memo !! x) as [y0|] eqn:Hmemo.
  - apply ret_Done in Hrun as [[= -> ->] ->].
    split; [done|]. split; [done|]. destruct Hinv as (_ & Hm & _). by eapply Hm.
  - apply bind_Done in Hrun as (o & σ0 & [-> Ho]%load_Done & Hrun).
    apply bind_Done in Hrun as ([o' memo1] & σ1 & Hcopy & Hrun).
    apply bind_Done in Hrun as (y1 & σ2 & [-> ->]%alloc_Done & Hrun).
    apply ret_Done in Hrun as [[= -> ->] ->].
    destruct (Hc _ _ _ _ _ _ Hcopy Hinv) as (Hpre & Hinv1 & Hrefs).
    split; [|split].
    + etrans; [exact Hpre|]. by eexists.
    + by apply copy_inv_alloc.
    + destruct Hinv1 as (Hn0 & _). rewrite length_app. cbn [length]. lia.
Qed.

Lemma deepcopy_each_ok (n0 : nat) (f : gmap loc loc → loc → M (loc * gmap loc loc)) :
  copies_ok n0 f →
  ∀ xs memo σ ys memo' σ',
    deepcopy_each f memo xs σ = Done (ys, memo') σ' →
    copy_inv n0 σ memo →
    σ `prefix_of` σ' ∧ copy_inv n0 σ' memo'
    ∧ Forall (λ y, (n0 ≤ y < length σ')%nat) ys.
Proof.
  intros Hf xs. induction xs as [|x xs IH]; intros memo σ ys memo' σ' Hrun Hinv.
  - apply ret_Done in Hrun as [[= -> ->] ->].
    split; [reflexivity|]. split; [done | constructor].
  - cbn [deepcopy_each] in Hrun.
    apply bind_Done in Hrun as ([y memo1] & σ1 & Hy & Hrun).
    apply bind_Done in Hrun as ([ys1 memo2] & σ2 & Hys & Hrun).
    apply ret_Done in Hrun as [[= -> ->] ->].
    destruct (Hf _ _ _ _ _ _ Hy Hinv) as (Hpre1 & Hinv1 & Hy1).
    destruct (IH _ _ _ _ _ Hys Hinv1) as (Hpre2 & Hinv2 & Hys2).
    split; [by etrans|]. split; [done|].
    apply Forall_cons. split; [|done].
    apply prefix_length in Hpre2. lia.
Qed.

Lemma copy_variant_ok (n0 : nat) : copier_ok n0 copy_variant.
Proof.
  intros memo o σ o' memo' σ' Hrun Hinv. destruct o; try done.
  apply ret_Done in Hrun as [[= -> ->] ->].
  split; [reflexivity|]. split; [done | constructor].
Qed.

Lemma copy_list_ok (n0 : nat) : copier_ok n0 copy_list.
Proof.
  intros memo o σ o' memo' σ' Hrun Hinv. destruct o as [| items | |]; try done.
  cbn [copy_list] in Hrun.
  apply bind_Done in Hrun as ([items' memo1] & σ1 & Hitems & Hrun).
  apply ret_Done in Hrun as [[= -> ->] ->].
  by apply (deepcopy_each_ok n0 _ (deepcopy_object_ok n0 _ (copy_variant_ok n0))
              _ _ _ _ _ _ Hitems).
Qed.

Lemma copy_variation_point_ok (n0 : nat) : copier_ok n0 copy_variation_point.
Proof.
  intros memo o σ o' memo' σ' Hrun Hinv. destruct o as [| | f h vs |]; try done.
  cbn [copy_variation_point] in Hrun.
  apply bind_Done in Hrun as ([vs' memo1] & σ1 & Hvs & Hrun).
  apply ret_Done in Hrun as [[= -> ->] ->].
  destruct (deepcopy_object_ok n0 _ (copy_list_ok n0) _ _ _ _ _ _ Hvs Hinv)
    as (Hpre & Hinv1 & Hvs').
  split; [done|]. split; [done|]. by apply Forall_singleton.
Qed.

Lemma Forall_zip_snd {A B : Type} (P : B → Prop) (ks : list A) (ys : list B) :
  Forall P ys → Forall P (zip ks ys).*2.
Proof.
  intros Hys. revert ks. induction Hys as [|y ys Hy _ IH]; intros [|k ks]; simpl;
    by constructor.
Qed.

Lemma copy_dict_ok (n0 : nat) : copier_ok n0 copy_dict.
Proof.
  intros memo o σ o' memo' σ' Hrun Hinv. destruct o as [| | | entries]; try done.
  cbn [copy_dict] in Hrun.
  apply bind_Done in Hrun as ([ys memo1] & σ1 & Hys & Hrun).
  apply ret_Done in Hrun as [[= -> ->] ->].
  destruct (deepcopy_each_ok n0 _
              (deepcopy_object_ok n0 _ (copy_variation_point_ok n0))
              _ _ _ _ _ _ Hys Hinv) as (Hpre & Hinv1 & Hys').
  split; [done|]. split; [done|]. by apply Forall_zip_snd.
Qed.

(** [copy.deepcopy] leaves the old objects as they are and returns a new
    object whose structure consists of new objects only. *)
Lemma deepcopy_fresh (mapping_model new : loc) (σ σ' : store) :
  deepcopy mapping_model σ = Done new σ' →
  σ `prefix_of` σ'
  ∧ (length σ ≤ new < length σ')%nat
  ∧ block_closed σ' (length σ) (length σ').
Proof.
  unfold deepcopy, deepcopy_dict. intros Hrun.
  apply bind_Done in Hrun as ([y memo] & σ1 & Hcopy & Hrun).
  apply ret_Done in Hrun as [-> ->].
  destruct (deepcopy_object_ok _ _ (copy_dict_ok (length σ)) _ _ _ _ _ _ Hcopy
              (copy_inv_start σ)) as (Hpre & (_ & _ & Hblock) & Hy).
  done.
Qed.


(** *** Rewriting the copy *)

Lemma frame_refl (n0 : nat) (σ : store) :
  block_closed σ n0 (length σ) → frame n0 σ σ.
Proof. by intros ?. Qed.

Lemma frame_trans (n0 : nat) (σ1 σ2 σ3 : store) :
  frame n0 σ1 σ2 → frame n0 σ2 σ3 → frame n0 σ1 σ3.
Proof.
  intros (Hlen1 & Hlow1 & _) (Hlen2 & Hlow2 & Hblock). split; [congruence|].
  split; [|done]. intros l Hl. by rewrite Hlow2, Hlow1.
Qed.

(** Overwriting a new object by one that refers to new objects only. *)
Lemma put_frame (n0 : nat) (l : loc) (o : obj) (u : unit) (σ σ' : store) :
  put l o σ = Done u σ' →
  (n0 ≤ l)%nat →
  block_closed σ n0 (length σ) →
  Forall (λ y, (n0 ≤ y < length σ)%nat) (refs o) →
  frame n0 σ σ'.
Proof.
  intros [Hl ->]%put_Done Hn0 Hblock Hrefs. rewrite Forall_forall in Hrefs.
  split; [by rewrite length_insert|]. split.
  - intros l' Hl'. apply list_lookup_insert_ne. lia.
  - rewrite length_insert. intros l1 o1 l2 Hl1 Hlookup Hin.
    destruct (decide (l = l1)) as [->|Hne].
    + rewrite list_lookup_insert_eq in Hlookup by done. injection Hlookup as <-.
      by apply Hrefs.
    + rewrite list_lookup_insert_ne in Hlookup by done. by eapply Hblock.
Qed.

Lemma rewrite_variant_frame (n0 i : nat) (l : loc) (u : unit) (σ σ' : store) :
  rewrite_variant i l σ = Done u σ' →
  (n0 ≤ l)%nat → block_closed σ n0 (length σ) → frame n0 σ σ'.
Proof.
  unfold rewrite_variant. intros Hrun Hl Hblock.
  apply bind_Done in Hrun as (o & σ0 & [-> Ho]%load_Done & Hrun).
  destruct o as [identifier [s|] | | |]; try done.
  eapply put_frame; [exact Hrun | done | done | constructor].
Qed.

Lemma rewrite_variants_frame (n0 i : nat) (ls : list loc) (u : unit) (σ σ' : store) :
  rewrite_variants i ls σ = Done u σ' →
  Forall (λ l, (n0 ≤ l)%nat) ls → block_closed σ n0 (length σ) → frame n0 σ σ'.
Proof.
  revert σ. induction ls as [|l ls IH]; intros σ Hrun Hls Hblock.
  - apply ret_Done in Hrun as [_ ->]. by apply frame_refl.
  - cbn [rewrite_variants] in Hrun.
    apply bind_Done in Hrun as (u1 & σ1 & Hone & Hrun).
    apply Forall_cons in Hls as [Hl Hls].
    pose proof (rewrite_variant_frame n0 _ _ _ _ _ Hone Hl Hblock) as Hframe.
    eapply frame_trans; [exact Hframe|].
    destruct Hframe as (_ & _ & Hblock1). by eapply IH.
Qed.

Lemma rewrite_variation_point_frame (n0 i : nat) (l : loc) (u : unit) (σ σ' : store) :
  rewrite_variation_point i l σ = Done u σ' →
  (n0 ≤ l)%nat → block_closed σ n0 (length σ) → frame n0 σ σ'.
Proof.
  unfold rewrite_variation_point. intros Hrun Hl Hblock.
  apply bind_Done in Hrun as (o & σ0 & [-> Ho]%load_Done & Hrun).
  destruct o as [| | f h vs |]; try done.
  destruct (decide (h = "Expr")) as [Hh|Hh].
  2:{ apply ret_Done in Hrun as [_ ->]. by apply frame_refl. }
  apply bind_Done in Hrun as (u1 & σ1 & Hput & Hrun).
  assert (l < length σ)%nat as Hlt by (by eapply lookup_lt_Some).
  assert (n0 ≤ vs < length σ)%nat as Hvs.
  { apply (Hblock l (OVariationPoint f h vs) vs); [lia | done | left]. }
  pose proof (put_frame n0 _ _ _ _ _ Hput Hl Hblock
                ltac:(by apply Forall_singleton)) as Hframe.
  eapply frame_trans; [exact Hframe|].
  destruct Hframe as (Hlen & _ & Hblock1).
  apply bind_Done in Hrun as (lo & σ2 & [-> Hlo]%load_Done & Hrun).
  destruct lo as [| items | |]; try done.
  eapply rewrite_variants_frame; [exact Hrun | | done].
  apply Forall_forall. intros l' Hin.
  assert (n0 ≤ l' < length σ1)%nat; [|lia].
  apply (Hblock1 vs (OList items) l'); [lia | done | done].
Qed.

Lemma rewrite_variation_points_frame (n0 i : nat) (ls : list loc) (u : unit)
    (σ σ' : store) :
  rewrite_variation_points i ls σ = Done u σ' →
  Forall (λ l, (n0 ≤ l)%nat) ls → block_closed σ n0 (length σ) → frame n0 σ σ'.
Proof.
  revert σ. induction ls as [|l ls IH]; intros σ Hrun Hls Hblock.
  - apply ret_Done in Hrun as [_ ->]. by apply frame_refl.
  - cbn [rewrite_variation_points] in Hrun.
    apply bind_Done in Hrun as (u1 & σ1 & Hone & Hrun).
    apply Forall_cons in Hls as [Hl Hls].
    pose proof (rewrite_variation_point_frame n0 _ _ _ _ _ Hone Hl Hblock) as Hframe.
    eapply frame_trans; [exact Hframe|].
    destruct Hframe as (_ & _ & Hblock1). by eapply IH.
Qed.

(** One iteration leaves the old objects as they are and returns a model
    made of new objects only. *)
Lemma specialize_fresh (mapping_model new : loc) (i : nat) (σ σ' : store) :
  Store.specialize mapping_model i σ = Done new σ' →
  (∀ l, (l < length σ)%nat → σ' !! l = σ !! l)
  ∧ (length σ ≤ new < length σ')%nat
  ∧ block_closed σ' (length σ) (length σ').
Proof.
  unfold Store.specialize. intros Hrun.
  apply bind_Done in Hrun as (new0 & σ1 & Hcopy & Hrun).
  apply deepcopy_fresh in Hcopy as (Hpre & Hnew & Hblock).
  apply bind_Done in Hrun as (d & σ2 & [-> Hd]%load_Done & Hrun).
  destruct d as [| | | entries]; try done.
  apply bind_Done in Hrun as (u & σ2 & Hrewrite & Hrun).
  apply ret_Done in Hrun as [-> ->].
  apply (rewrite_variation_points_frame (length σ)) in Hrewrite
    as (Hlen & Hlow & Hblock2); [| |done].
  - split; [|split; [lia | done]].
    intros l Hl. rewrite Hlow by done. by apply prefix_lookup_lt.
  - apply Forall_forall. intros l Hin.
    assert (length σ ≤ l < length σ1)%nat; [|lia].
    by apply (Hblock new0 (ODict entries) l).
Qed.

(** *** The blocks of the specialised models *)

Lemma blocks_le (σ : store) (lo : nat) (ms : list loc) :
  blocks σ lo ms → (lo ≤ length σ)%nat.
Proof. induction 1; lia. Qed.

Lemma blocks_ge (σ : store) (lo : nat) (ms : list loc) (k : nat) (m l : loc) :
  blocks σ lo ms → ms !! k = Some m → reach σ m l → (lo ≤ l)%nat.
Proof.
  intros Hblocks. revert k. induction Hblocks as [|lo b m0 ms Hm Hclosed _ IH];
    intros k Hk Hreach; [done|].
  destruct k as [|k]; simplify_eq/=.
  - by apply (reach_block _ _ _ _ _ Hclosed Hm) in Hreach as [? _].
  - specialize (IH k Hk Hreach). lia.
Qed.

Lemma blocks_lt (σ : store) (lo : nat) (ms : list loc) (k : nat) (m l : loc) :
  blocks σ lo ms → ms !! k = Some m → reach σ m l → (l < length σ)%nat.
Proof.
  intros Hblocks. revert k. induction Hblocks as [|lo b m0 ms Hm Hclosed Hrest IH];
    intros k Hk Hreach; [done|].
  destruct k as [|k]; simplify_eq/=.
  - apply (reach_block _ _ _ _ _ Hclosed Hm) in Hreach as [_ Hlt].
    apply blocks_le in Hrest. lia.
  - by apply (IH k).
Qed.

Lemma blocks_disjoint_lt (σ : store) (lo : nat) (ms : list loc) (i j : nat)
    (mi mj l : loc) :
  blocks σ lo ms → (i < j)%nat →
  ms !! i = Some mi → ms !! j = Some mj →
  reach σ mi l → reach σ mj l → False.
Proof.
  intros Hblocks. revert i j. induction Hblocks as [|lo b m0 ms Hm Hclosed Hrest IH];
    intros i j Hij Hi Hj Hri Hrj; [done|].
  destruct j as [|j]; [lia|]. destruct i as [|i]; simplify_eq/=.
  - apply (reach_block _ _ _ _ _ Hclosed Hm) in Hri as [_ Hlt].
    pose proof (blocks_ge _ _ _ _ _ _ Hrest Hj Hrj). lia.
  - apply (IH i j); [lia | done..].
Qed.

Lemma blocks_disjoint (σ : store) (lo : nat) (ms : list loc) (i j : nat)
    (mi mj l : loc) :
  blocks σ lo ms → i ≠ j →
  ms !! i = Some mi → ms !! j = Some mj →
  reach σ mi l → reach σ mj l → False.
Proof.
  intros Hblocks Hij Hi Hj Hri Hrj.
  destruct (decide (i < j)%nat).
  - by eapply (blocks_disjoint_lt σ lo ms i j).
  - eapply (blocks_disjoint_lt σ lo ms j i); [done | lia | done..].
Qed.

Lemma blocks_preserved (σ σ' : store) (lo hi : nat) :
  (∀ l, (l < hi)%nat → σ' !! l = σ !! l) →
  block_closed σ lo hi → block_closed σ' lo hi.
Proof.
  intros Hsame Hclosed l o l' Hl Hlookup Hin.
  rewrite Hsame in Hlookup by lia. by eapply Hclosed.
Qed.

(** The loop leaves the old objects as they are and returns models that
    lie in consecutive closed blocks of new objects. *)
Lemma specialize_from_blocks (mapping_model : loc) (configurations : list Configuration)
    (i : nat) (ms : list loc) (σ σ' : store) :
  specialize_from mapping_model i configurations σ = Done ms σ' →
  (∀ l, (l < length σ)%nat → σ' !! l = σ !! l)
  ∧ blocks σ' (length σ) ms
  ∧ length ms = length configurations.
Proof.
  revert i ms σ. induction configurations as [|config rest IH]; intros i ms σ Hrun.
  - apply ret_Done in Hrun as [-> ->]. split; [done|]. split; [by constructor | done].
  - cbn [specialize_from] in Hrun.
    apply bind_Done in Hrun as (m & σ1 & Hone & Hrun).
    apply bind_Done in Hrun as (ms' & σ2 & Hrest & Hrun).
    apply ret_Done in Hrun as [-> ->].
    apply specialize_fresh in Hone as (Hlow1 & Hm & Hblock1).
    apply IH in Hrest as (Hlow2 & Hblocks & Hlen).
    split; [|split].
    + intros l Hl. rewrite Hlow2 by lia. by apply Hlow1.
    + apply (blocks_cons _ _ (length σ1)); [done| |done].
      by apply (blocks_preserved σ1).
    + cbn [length]. by rewrite Hlen.
Qed.

End store_isolation.

(** ** The store refines the values *)

Section store_refinement.
(* The functions on values, under names that the store's functions of the
   same name do not hide. *)
Local Abbreviation value_specialize := specialize (only parsing).
Local Abbreviation value_mapping_model_by_configurations :=
  mapping_model_by_configurations (only parsing).
Import Store.

Lemma mapM_ext_in {A B : Type} (f g : A → option B) (l : list A) :
  (∀ x, x ∈ l → f x = g x) → mapM f l = mapM g l.
Proof.
  induction l as [|x l IH]; intros Hfg; [done|]. cbn [mapM].
  rewrite (Hfg x) by left. rewrite IH; [done|].
  intros y Hy. apply Hfg. by right.
Qed.

Lemma join_singletons {A : Type} (l : list A) : mjoin ((λ x, [x]) <$> l) = l.
Proof.
  induction l as [|x l IH]; [done|].
  change (x :: mjoin ((λ x, [x]) <$> l) = x :: l). by rewrite IH.
Qed.

(** *** What is read, and where *)

Lemma read_variant_Some (σ : store) (l : loc) (v : Variant) :
  read_variant σ l = Some v ↔ σ !! l = Some (OVariant (identifier v) (value v)).
Proof.
  unfold read_variant. destruct (σ !! l) as [[i w| | |]|]; split; try done.
  - by intros [= <-].
  - intros [= -> ->]. by destruct v.
Qed.

Lemma read_list_Some (σ : store) (l : loc) (vs : list Variant) :
  read_list σ l = Some vs
  ↔ ∃ items, σ !! l = Some (OList items)
             ∧ Forall2 (λ x v, read_variant σ x = Some v) items vs.
Proof.
  unfold read_list. destruct (σ !! l) as [[| items | |]|]; split;
    try done; try (by intros (? & ? & _)).
  - intros H%mapM_Some. by exists items.
  - intros (items' & [= <-] & H). by apply mapM_Some.
Qed.

Lemma read_variation_point_Some (σ : store) (l : loc) (vp : VariationPoint) :
  read_variation_point σ l = Some vp
  ↔ ∃ lv, σ !! l = Some (OVariationPoint (feature vp) (handler vp) lv)
          ∧ read_list σ lv = Some (variants vp).
Proof.
  unfold read_variation_point. destruct (σ !! l) as [[| | f h lv |]|]; split;
    try done; try (by intros (? & ? & _)).
  - destruct (read_list σ lv) as [vs|] eqn:Hvs; [|done].
    intros [= <-]. by exists lv.
  - intros (lv' & [= -> -> <-] & ->). by destruct vp.
Qed.

Lemma read_model_Some (σ : store) (l : loc) (d : pydict VariationPoint) :
  read_model σ l = Some d
  ↔ ∃ entries vps,
      σ !! l = Some (ODict entries)
      ∧ Forall2 (λ x vp, read_variation_point σ x = Some vp) entries.*2 vps
      ∧ d = zip entries.*1 vps.
Proof.
  unfold read_model. destruct (σ !! l) as [[| | | entries]|]; split;
    try done; try (by intros (? & ? & ? & _)).
  - destruct (mapM (read_variation_point σ) entries.*2) as [vps|] eqn:Hvps; [|done].
    intros [= <-]. exists entries, vps. split; [done|]. split; [|done].
    by apply mapM_Some.
  - intros (entries' & vps & [= <-] & H%mapM_Some & ->). by rewrite H.
Qed.

Lemma local_variant : local read_variant footprint_variant.
Proof.
  split.
  - intros σ σ' x Hagree. unfold read_variant. split; [|done].
    rewrite (Hagree x); [done | left].
  - intros σ x v l Hread [->|[]%elem_of_nil]%elem_of_cons.
    apply read_variant_Some in Hread. by eapply lookup_lt_Some.
Qed.

Lemma local_list : local read_list footprint_list.
Proof.
  split.
  - intros σ σ' x Hagree. unfold read_list, footprint_list in *.
    destruct (σ !! x) as [o|] eqn:Hx.
    + assert (σ' !! x = Some o) as ->.
      { rewrite <- Hx. apply Hagree. destruct o; left. }
      destruct o as [| items | |]; try done. split; [|done].
      apply mapM_ext_in. intros l Hl. apply local_variant.
      intros l' [->|[]%elem_of_nil]%elem_of_cons. apply Hagree. by right.
    + assert (σ' !! x = None) as -> by (rewrite <- Hx; apply Hagree; left). done.
  - intros σ x vs l (items & Hx & Hitems)%read_list_Some Hin.
    unfold footprint_list in Hin. rewrite Hx in Hin.
    apply elem_of_cons in Hin as [->|Hin]; [by eapply lookup_lt_Some|].
    apply list_elem_of_lookup in Hin as [k Hk].
    destruct (Forall2_lookup_l _ _ _ _ _ Hitems Hk) as (v & _ & Hv).
    apply read_variant_Some in Hv. by eapply lookup_lt_Some.
Qed.

Lemma local_variation_point : local read_variation_point footprint_variation_point.
Proof.
  split.
  - intros σ σ' x Hagree. unfold read_variation_point, footprint_variation_point in *.
    destruct (σ !! x) as [o|] eqn:Hx.
    + assert (σ' !! x = Some o) as ->.
      { rewrite <- Hx. apply Hagree. destruct o; left. }
      destruct o as [| | f h lv |]; try done.
      destruct (proj1 local_list σ σ' lv) as [-> ->]; [|done].
      intros l Hl. apply Hagree. by right.
    + assert (σ' !! x = None) as -> by (rewrite <- Hx; apply Hagree; left). done.
  - intros σ x vp l (lv & Hx & Hlv)%read_variation_point_Some Hin.
    unfold footprint_variation_point in Hin. rewrite Hx in Hin.
    apply elem_of_cons in Hin as [->|Hin]; [by eapply lookup_lt_Some|].
    by eapply (proj2 local_list).
Qed.

Lemma local_model : local read_model footprint.
Proof.
  split.
  - intros σ σ' x Hagree. unfold read_model, footprint in *.
    destruct (σ !! x) as [o|] eqn:Hx.
    + assert (σ' !! x = Some o) as ->.
      { rewrite <- Hx. apply Hagree. destruct o; left. }
      destruct o as [| | | entries]; try done.
      assert (∀ l, l ∈ entries.*2 →
                read_variation_point σ' l = read_variation_point σ l
                ∧ footprint_variation_point σ' l = footprint_variation_point σ l)
        as Heach.
      { intros l Hl. apply local_variation_point. intros l' Hl'. apply Hagree.
        right. apply list_elem_of_join. exists (footprint_variation_point σ l).
        split; [done|]. by apply list_elem_of_fmap_2. }
      split.
      * rewrite (mapM_ext_in _ (read_variation_point σ)); [done|].
        intros l Hl. by apply Heach.
      * f_equal. f_equal. apply list_fmap_ext. intros k l Hk.
        apply Heach. by eapply list_elem_of_lookup_2.
    + assert (σ' !! x = None) as -> by (rewrite <- Hx; apply Hagree; left). done.
  - intros σ x d l (entries & vps & Hx & Hvps & _)%read_model_Some Hin.
    unfold footprint in Hin. rewrite Hx in Hin.
    apply elem_of_cons in Hin as [->|Hin]; [by eapply lookup_lt_Some|].
    apply list_elem_of_join in Hin as (fp & Hl & Hfp).
    apply list_elem_of_fmap in Hfp as (lv & -> & Hlv).
    apply list_elem_of_lookup in Hlv as [k Hk].
    destruct (Forall2_lookup_l _ _ _ _ _ Hvps Hk) as (vp & _ & Hvp).
    by eapply (proj2 local_variation_point).
Qed.

(** A value read from a store is read from every store that extends it,
    with the same footprint. *)
Lemma local_prefix {V : Type} (read : store → loc → option V)
    (fp : store → loc → list loc) (σ σ' : store) (x : loc) (v : V) :
  local read fp → σ `prefix_of` σ' → read σ x = Some v →
  read σ' x = Some v ∧ fp σ' x = fp σ x.
Proof.
  intros [Hagree Hrange] Hpre Hread.
  destruct (Hagree σ σ' x) as [Hr Hf]; [|by rewrite Hr].
  intros l Hl. apply prefix_lookup_lt; [done|]. by eapply Hrange.
Qed.

Lemma Forall2_read_prefix {V : Type} (read : store → loc → option V)
    (fp : store → loc → list loc) (σ σ' : store) (xs : list loc) (vs : list V) :
  local read fp → σ `prefix_of` σ' →
  Forall2 (λ x v, read σ x = Some v) xs vs →
  Forall2 (λ x v, read σ' x = Some v) xs vs ∧ fp σ' <$> xs = fp σ <$> xs.
Proof.
  intros Hlocal Hpre. induction 1 as [|x v xs vs Hx _ [IH1 IH2]]; [done|].
  destruct (local_prefix read fp σ σ' x v Hlocal Hpre Hx) as [Hr Hf].
  split; [by constructor|]. rewrite !fmap_cons. by rewrite Hf, IH2.
Qed.

(** *** Running a computation step by step *)

Lemma bind_run {A B : Type} (m : M A) (f : A → M B) (σ σ1 : store) (a : A) :
  m σ = Done a σ1 → (m ≫= f) σ = f a σ1.
Proof. intros H. unfold mbind, M_bind. by rewrite H. Qed.

Lemma bind_raise {A B : Type} (m : M A) (f : A → M B) (σ : store) (e : exn) :
  m σ = Raised e → (m ≫= f) σ = Raised e.
Proof. intros H. unfold mbind, M_bind. by rewrite H. Qed.

Lemma load_run (σ : store) (l : loc) (o : obj) :
  σ !! l = Some o → load l σ = Done o σ.
Proof. intros H. unfold load. by rewrite H. Qed.

(** *** Copying a structure without sharing *)

Section each.
Context {V : Type} (read : store → loc → option V) (fp : store → loc → list loc).
Context (f : gmap loc loc → loc → M (loc * gmap loc loc)).
Hypothesis Hlocal : local read fp.
Hypothesis Hf : copy_spec read fp f.

Lemma deepcopy_each_spec (xs : list loc) :
  ∀ memo σ vs,
    Forall2 (λ x v, read σ x = Some v) xs vs →
    NoDup (mjoin (fp σ <$> xs)) →
    (∀ l, l ∈ mjoin (fp σ <$> xs) → memo !! l = None) →
    ∃ ys memo' σ',
      deepcopy_each f memo xs σ = Done (ys, memo') σ'
      ∧ σ `prefix_of` σ'
      ∧ Forall2 (λ y v, read σ' y = Some v) ys vs
      ∧ NoDup (mjoin (fp σ' <$> ys))
      ∧ (∀ l, l ∈ mjoin (fp σ' <$> ys) → (length σ ≤ l < length σ')%nat)
      ∧ (∀ l, is_Some (memo' !! l) → is_Some (memo !! l) ∨ l ∈ mjoin (fp σ <$> xs)).
Proof.
  induction xs as [|x xs IH]; intros memo σ vs Hread Hnd Hmemo.
  - apply Forall2_nil_inv_l in Hread as ->.
    exists [], memo, σ. split; [done|]. split; [done|]. split; [constructor|].
    split; [constructor|]. split; [by intros l Hl%elem_of_nil | by left].
  - apply Forall2_cons_inv_l in Hread as (v & vs' & Hx & Hxs & ->).
    change (mjoin (fp σ <$> x :: xs)) with (fp σ x ++ mjoin (fp σ <$> xs)) in *.
    apply NoDup_app in Hnd as (Hnd1 & Hdisj & Hnd2).
    destruct (Hf memo x σ v Hx Hnd1) as (y & memo1 & σ1 & Hrun1 & Hpre1 & Hy & Hndy
                                          & Hrangey & Hgrow1).
    { intros l Hl. apply Hmemo, elem_of_app. by left. }
    destruct (Forall2_read_prefix read fp σ σ1 xs vs' Hlocal Hpre1 Hxs)
      as [Hxs1 Hfp1].
    destruct (IH memo1 σ1 vs' Hxs1) as (ys & memo2 & σ2 & Hrun2 & Hpre2 & Hys & Hndys
                                         & Hrangeys & Hgrow2).
    { by rewrite Hfp1. }
    { intros l Hl. rewrite Hfp1 in Hl. apply eq_None_not_Some. intros Hsome.
      apply Hgrow1 in Hsome as [Hsome|Hin].
      - rewrite Hmemo in Hsome; [by destruct Hsome|]. apply elem_of_app. by right.
      - by apply (Hdisj l). }
    destruct (local_prefix read fp σ1 σ2 y v Hlocal Hpre2 Hy) as [Hy2 Hfpy].
    exists (y :: ys), memo2, σ2. split; [|split; [|split; [|split; [|split]]]].
    + cbn [deepcopy_each]. rewrite (bind_run _ _ _ _ _ Hrun1).
      by rewrite (bind_run _ _ _ _ _ Hrun2).
    + by etrans.
    + by constructor.
    + change (mjoin (fp σ2 <$> y :: ys)) with (fp σ2 y ++ mjoin (fp σ2 <$> ys)).
      rewrite Hfpy. apply NoDup_app. split; [done|]. split; [|done].
      intros l Hl1 Hl2. apply Hrangey in Hl1. apply Hrangeys in Hl2. lia.
    + change (mjoin (fp σ2 <$> y :: ys)) with (fp σ2 y ++ mjoin (fp σ2 <$> ys)).
      rewrite Hfpy. intros l [Hl|Hl]%elem_of_app.
      * apply Hrangey in Hl. apply prefix_length in Hpre2. lia.
      * apply Hrangeys in Hl. apply prefix_length in Hpre1. lia.
    + intros l Hl. apply Hgrow2 in Hl as [Hl|Hl].
      * apply Hgrow1 in Hl as [Hl|Hl]; [by left|]. right. apply elem_of_app. by left.
      * right. apply elem_of_app. right. by rewrite <- Hfp1.
Qed.

End each.

Lemma memo_insert_grow (memo : gmap loc loc) (x y l : loc) (fp : list loc) :
  x ∈ fp →
  is_Some (<[x := y]> memo !! l) → (is_Some (memo !! l) ∨ l ∈ fp).
Proof.
  intros Hx. destruct (decide (x = l)) as [<-|Hne]; [by right|].
  rewrite lookup_insert_ne by done. by left.
Qed.

Lemma lookup_new (σ : store) (o : obj) : (σ ++ [o]) !! length σ = Some o.
Proof. by apply list_lookup_middle. Qed.

Lemma copy_spec_variant :
  copy_spec read_variant footprint_variant (deepcopy_object copy_variant).
Proof.
  intros memo x σ v Hread _ Hmemo.
  pose proof (proj1 (read_variant_Some _ _ _) Hread) as Hx.
  exists (length σ), (<[x := length σ]> memo),
    (σ ++ [OVariant (identifier v) (value v)]).
  split; [|split; [|split; [|split; [|split]]]].
  - unfold deepcopy_object. rewrite (Hmemo x) by left.
    by rewrite (bind_run _ _ _ _ _ (load_run _ _ _ Hx)).
  - by eexists.
  - apply read_variant_Some, lookup_new.
  - apply NoDup_singleton.
  - intros l [->|[]%elem_of_nil]%elem_of_cons. rewrite length_app. cbn [length]. lia.
  - intros l. apply memo_insert_grow. left.
Qed.

Lemma copy_spec_list :
  copy_spec read_list footprint_list (deepcopy_object copy_list).
Proof.
  intros memo x σ vs Hread Hnd Hmemo.
  pose proof (proj1 (read_list_Some _ _ _) Hread) as (items & Hx & Hitems).
  unfold footprint_list in Hnd, Hmemo. rewrite Hx in Hnd, Hmemo.
  apply NoDup_cons in Hnd as [Hxitems Hnd].
  destruct (deepcopy_each_spec read_variant footprint_variant
              (deepcopy_object copy_variant) local_variant copy_spec_variant
              items memo σ vs Hitems)
    as (ys & memo1 & σ1 & Hrun & Hpre & Hys & Hndys & Hrange & Hgrow).
  { unfold footprint_variant. by rewrite join_singletons. }
  { unfold footprint_variant. rewrite join_singletons.
    intros l Hl. apply Hmemo. by right. }
  unfold footprint_variant in Hndys, Hrange, Hgrow.
  rewrite join_singletons in Hndys, Hrange, Hgrow.
  exists (length σ1), (<[x := length σ1]> memo1), (σ1 ++ [OList ys]).
  assert (σ1 `prefix_of` σ1 ++ [OList ys]) as Hpre' by (by eexists).
  assert (footprint_list (σ1 ++ [OList ys]) (length σ1) = length σ1 :: ys) as Hfp.
  { unfold footprint_list. by rewrite lookup_new. }
  split; [|split; [|split; [|split; [|split]]]].
  - unfold deepcopy_object. rewrite (Hmemo x) by left.
    rewrite (bind_run _ _ _ _ _ (load_run _ _ _ Hx)).
    assert (copy_list memo (OList items) σ = Done (OList ys, memo1) σ1) as Hcopy
      by (cbn [copy_list]; by rewrite (bind_run _ _ _ _ _ Hrun)).
    by rewrite (bind_run _ _ _ _ _ Hcopy).
  - by etrans.
  - apply read_list_Some. exists ys. split; [apply lookup_new|].
    by apply (Forall2_read_prefix read_variant footprint_variant σ1 _ _ _
                local_variant Hpre').
  - rewrite Hfp. apply NoDup_cons. split; [|done].
    intros Hin%Hrange. lia.
  - rewrite Hfp, length_app. cbn [length].
    intros l [->|Hl%Hrange]%elem_of_cons; [apply prefix_length in Hpre|]; lia.
  - intros l Hl. unfold footprint_list. rewrite Hx.
    apply (memo_insert_grow _ _ _ _ (x :: items)) in Hl as [Hl|Hl]; [|by right|left].
    apply Hgrow in Hl as [Hl|Hl]; [by left|]. right. by right.
Qed.

Lemma copy_spec_variation_point :
  copy_spec read_variation_point footprint_variation_point
    (deepcopy_object copy_variation_point).
Proof.
  intros memo x σ vp Hread Hnd Hmemo.
  pose proof (proj1 (read_variation_point_Some _ _ _) Hread) as (lv & Hx & Hlv).
  unfold footprint_variation_point in Hnd, Hmemo. rewrite Hx in Hnd, Hmemo.
  apply NoDup_cons in Hnd as [Hxlv Hnd].
  destruct (copy_spec_list memo lv σ (variants vp) Hlv Hnd)
    as (lv' & memo1 & σ1 & Hrun & Hpre & Hlv' & Hndlv & Hrange & Hgrow).
  { intros l Hl. apply Hmemo. by right. }
  set (o' := OVariationPoint (feature vp) (handler vp) lv').
  exists (length σ1), (<[x := length σ1]> memo1), (σ1 ++ [o']).
  assert (σ1 `prefix_of` σ1 ++ [o']) as Hpre' by (by eexists).
  destruct (local_prefix read_list footprint_list σ1 (σ1 ++ [o']) lv' _
              local_list Hpre' Hlv') as [Hlv2 Hfplv].
  assert (footprint_variation_point (σ1 ++ [o']) (length σ1)
          = length σ1 :: footprint_list σ1 lv') as Hfp.
  { unfold footprint_variation_point. rewrite lookup_new.
    change (length σ1 :: footprint_list (σ1 ++ [o']) lv'
            = length σ1 :: footprint_list σ1 lv'). by rewrite Hfplv. }
  split; [|split; [|split; [|split; [|split]]]].
  - unfold deepcopy_object. rewrite (Hmemo x) by left.
    rewrite (bind_run _ _ _ _ _ (load_run _ _ _ Hx)).
    assert (copy_variation_point memo
              (OVariationPoint (feature vp) (handler vp) lv) σ
            = Done (o', memo1) σ1) as Hcopy
      by (cbn [copy_variation_point]; by rewrite (bind_run _ _ _ _ _ Hrun)).
    by rewrite (bind_run _ _ _ _ _ Hcopy).
  - by etrans.
  - apply read_variation_point_Some. exists lv'. split; [apply lookup_new | done].
  - rewrite Hfp. apply NoDup_cons. split; [|done].
    intros Hin%Hrange. lia.
  - rewrite Hfp, length_app. cbn [length].
    intros l [->|Hl%Hrange]%elem_of_cons; [apply prefix_length in Hpre|]; lia.
  - intros l Hl. unfold footprint_variation_point. rewrite Hx.
    apply (memo_insert_grow _ _ _ _ (x :: footprint_list σ lv)) in Hl as [Hl|Hl];
      [|by right|left].
    apply Hgrow in Hl as [Hl|Hl]; [by left|]. right. by right.
Qed.

Lemma copy_spec_model : copy_spec read_model footprint (deepcopy_object copy_dict).
Proof.
  intros memo x σ d Hread Hnd Hmemo.
  pose proof (proj1 (read_model_Some _ _ _) Hread) as (entries & vps & Hx & Hvps & ->).
  unfold footprint in Hnd, Hmemo. rewrite Hx in Hnd, Hmemo.
  apply NoDup_cons in Hnd as [Hxfp Hnd].
  destruct (deepcopy_each_spec read_variation_point footprint_variation_point
              (deepcopy_object copy_variation_point) local_variation_point
              copy_spec_variation_point entries.*2 memo σ vps Hvps Hnd)
    as (ys & memo1 & σ1 & Hrun & Hpre & Hys & Hndys & Hrange & Hgrow).
  { intros l Hl. apply Hmemo. by right. }
  set (o' := ODict (zip entries.*1 ys)).
  exists (length σ1), (<[x := length σ1]> memo1), (σ1 ++ [o']).
  assert (σ1 `prefix_of` σ1 ++ [o']) as Hpre' by (by eexists).
  assert (length ys = length entries.*1) as Hlen.
  { apply Forall2_length in Hys, Hvps. rewrite !length_fmap in *. lia. }
  assert ((zip entries.*1 ys).*2 = ys) as Hsnd by (apply snd_zip; lia).
  assert ((zip entries.*1 ys).*1 = entries.*1) as Hfst by (apply fst_zip; lia).
  destruct (Forall2_read_prefix read_variation_point footprint_variation_point
              σ1 (σ1 ++ [o']) ys vps local_variation_point Hpre' Hys)
    as [Hys2 Hfpys].
  assert (footprint (σ1 ++ [o']) (length σ1)
          = length σ1 :: mjoin (footprint_variation_point σ1 <$> ys)) as Hfp.
  { unfold footprint. rewrite lookup_new.
    change (length σ1
              :: mjoin (footprint_variation_point (σ1 ++ [o']) <$> (zip entries.*1 ys).*2)
            = length σ1 :: mjoin (footprint_variation_point σ1 <$> ys)).
    by rewrite Hsnd, Hfpys. }
  split; [|split; [|split; [|split; [|split]]]].
  - unfold deepcopy_object. rewrite (Hmemo x) by left.
    rewrite (bind_run _ _ _ _ _ (load_run _ _ _ Hx)).
    assert (copy_dict memo (ODict entries) σ = Done (o', memo1) σ1) as Hcopy
      by (cbn [copy_dict]; by rewrite (bind_run _ _ _ _ _ Hrun)).
    by rewrite (bind_run _ _ _ _ _ Hcopy).
  - by etrans.
  - apply read_model_Some. exists (zip entries.*1 ys), vps.
    split; [apply lookup_new|]. rewrite Hsnd, Hfst. done.
  - rewrite Hfp. apply NoDup_cons. split; [|done].
    intros Hin%Hrange. lia.
  - rewrite Hfp, length_app. cbn [length].
    intros l [->|Hl%Hrange]%elem_of_cons; [apply prefix_length in Hpre|]; lia.
  - intros l Hl. unfold footprint. rewrite Hx.
    apply (memo_insert_grow _ _ _ _
             (x :: mjoin (footprint_variation_point σ <$> entries.*2))) in Hl
      as [Hl|Hl]; [|by right|left].
    apply Hgrow in Hl as [Hl|Hl]; [by left|]. right. by right.
Qed.

(** [copy.deepcopy] of a mapping model without sharing: the copy stands
    for the same value, is made of new objects and has no sharing; the
    store is only extended. *)
Lemma deepcopy_spec (σ : store) (mapping_model : loc) (d : pydict VariationPoint) :
  read_model σ mapping_model = Some d →
  tree σ mapping_model →
  ∃ new σ',
    deepcopy mapping_model σ = Done new σ'
    ∧ σ `prefix_of` σ'
    ∧ read_model σ' new = Some d
    ∧ tree σ' new
    ∧ (∀ l, l ∈ footprint σ' new → (length σ ≤ l < length σ')%nat).
Proof.
  intros Hread Htree.
  destruct (copy_spec_model ∅ mapping_model σ d Hread Htree)
    as (new & memo & σ' & Hrun & Hpre & Hnew & Hnd & Hrange & _).
  { intros l _. apply lookup_empty. }
  exists new, σ'. split; [|done].
  unfold deepcopy, deepcopy_dict. by rewrite (bind_run _ _ _ _ _ Hrun).
Qed.

(** *** Rewriting a copy without sharing *)

Lemma local_below {V : Type} (read : store → loc → option V)
    (fp : store → loc → list loc) (σ σ' : store) (x : loc) (v : V) :
  local read fp →
  (∀ l, (l < length σ)%nat → σ' !! l = σ !! l) →
  read σ x = Some v →
  read σ' x = Some v ∧ fp σ' x = fp σ x.
Proof.
  intros [Hagree Hrange] Hsame Hread.
  destruct (Hagree σ σ' x) as [Hr Hf]; [|by rewrite Hr].
  intros l Hl. apply Hsame. by eapply Hrange.
Qed.

Lemma Forall2_read_agree {V : Type} (read : store → loc → option V)
    (fp : store → loc → list loc) (σ σ' : store) (xs : list loc) (vs : list V) :
  local read fp →
  (∀ l, l ∈ mjoin (fp σ <$> xs) → σ' !! l = σ !! l) →
  Forall2 (λ x v, read σ x = Some v) xs vs →
  Forall2 (λ x v, read σ' x = Some v) xs vs ∧ fp σ' <$> xs = fp σ <$> xs.
Proof.
  intros [Hagree _] Hsame. induction 1 as [|x v xs vs Hx _ IH]; [done|].
  change (mjoin (fp σ <$> x :: xs)) with (fp σ x ++ mjoin (fp σ <$> xs)) in Hsame.
  destruct (Hagree σ σ' x) as [Hr Hf].
  { intros l Hl. apply Hsame, elem_of_app. by left. }
  destruct IH as [IH1 IH2].
  { intros l Hl. apply Hsame, elem_of_app. by right. }
  split; [constructor; [by rewrite Hr | done]|].
  rewrite !fmap_cons. by rewrite Hf, IH2.
Qed.

Lemma put_run (σ : store) (l : loc) (o : obj) :
  (l < length σ)%nat → put l o σ = Done () (<[l := o]> σ).
Proof. intros Hl. unfold put. by rewrite decide_True. Qed.

Lemma rewrite_variant_spec (i : nat) (l : loc) (σ : store) (v : Variant) :
  read_variant σ l = Some v →
  match specialize_variant i v with
  | Ok v' =>
      rewrite_variant i l σ
      = Done () (<[l := OVariant (identifier v') (value v')]> σ)
  | Raise e => rewrite_variant i l σ = Raised e
  end.
Proof.
  intros Hl%read_variant_Some. unfold rewrite_variant, specialize_variant.
  rewrite (bind_run _ _ _ _ _ (load_run _ _ _ Hl)).
  destruct (value v) as [s|]; [|done].
  apply put_run. by eapply lookup_lt_Some.
Qed.

Lemma rewrite_variants_spec (i : nat) (ls : list loc) :
  ∀ σ vs,
    Forall2 (λ l v, read_variant σ l = Some v) ls vs →
    NoDup ls →
    match forM (specialize_variant i) vs with
    | Ok vs' =>
        ∃ σ', rewrite_variants i ls σ = Done () σ'
              ∧ Forall2 (λ l v, read_variant σ' l = Some v) ls vs'
              ∧ length σ' = length σ
              ∧ (∀ l, l ∉ ls → σ' !! l = σ !! l)
    | Raise e => rewrite_variants i ls σ = Raised e
    end.
Proof.
  induction ls as [|l ls IH]; intros σ vs Hread Hnd.
  - apply Forall2_nil_inv_l in Hread as ->. cbn [forM].
    exists σ. split; [done|]. split; [constructor | done].
  - apply Forall2_cons_inv_l in Hread as (v & vs' & Hl & Hls & ->).
    apply NoDup_cons in Hnd as [Hlls Hnd].
    cbn [forM rewrite_variants].
    pose proof (rewrite_variant_spec i l σ v Hl) as Hone.
    destruct (specialize_variant i v) as [v'|e]; cbn [mbind result_bind];
      [|by rewrite (bind_raise _ _ _ _ Hone)].
    rewrite (bind_run _ _ _ _ _ Hone).
    set (σ1 := <[l := OVariant (identifier v') (value v')]> σ).
    assert (l < length σ)%nat as Hlt.
    { apply read_variant_Some in Hl. by eapply lookup_lt_Some. }
    destruct (Forall2_read_agree read_variant footprint_variant σ σ1 ls vs'
                local_variant) as [Hls1 _]; [|done|].
    { unfold footprint_variant. rewrite join_singletons. intros l' Hl'.
      apply list_lookup_insert_ne. by intros ->. }
    specialize (IH σ1 vs' Hls1 Hnd).
    destruct (forM (specialize_variant i) vs') as [vs''|e]; cbn [mbind result_bind];
      [|done].
    destruct IH as (σ' & Hrun & Hread' & Hlen & Hframe).
    exists σ'. split; [done|]. split; [|split].
    + constructor; [|done]. apply read_variant_Some.
      rewrite (Hframe l Hlls). by apply list_lookup_insert_eq.
    + rewrite Hlen. apply length_insert.
    + intros l' [Hne Hl']%not_elem_of_cons. rewrite (Hframe l' Hl').
      by apply list_lookup_insert_ne.
Qed.

Lemma footprint_variation_point_eq (σ : store) (l lv : loc) (f h : string)
    (items : list loc) :
  σ !! l = Some (OVariationPoint f h lv) →
  σ !! lv = Some (OList items) →
  footprint_variation_point σ l = l :: lv :: items.
Proof.
  intros Hl Hlv. unfold footprint_variation_point, footprint_list.
  by rewrite Hl, Hlv.
Qed.

Lemma rewrite_variation_point_spec (i : nat) (l : loc) (σ : store)
    (vp : VariationPoint) :
  read_variation_point σ l = Some vp →
  NoDup (footprint_variation_point σ l) →
  match specialize_variation_point i vp with
  | Ok vp' =>
      ∃ σ', rewrite_variation_point i l σ = Done () σ'
            ∧ read_variation_point σ' l = Some vp'
            ∧ footprint_variation_point σ' l = footprint_variation_point σ l
            ∧ length σ' = length σ
            ∧ (∀ l', l' ∉ footprint_variation_point σ l → σ' !! l' = σ !! l')
  | Raise e => rewrite_variation_point i l σ = Raised e
  end.
Proof.
  intros Hread Hnd.
  pose proof (proj1 (read_variation_point_Some _ _ _) Hread) as (lv & Hl & Hlv).
  pose proof (proj1 (read_list_Some _ _ _) Hlv) as (items & Hlv' & Hitems).
  rewrite (footprint_variation_point_eq σ l lv _ _ items Hl Hlv') in *.
  apply NoDup_cons in Hnd as [[Hllv Hlitems]%not_elem_of_cons Hnd].
  apply NoDup_cons in Hnd as [Hlvitems Hnd].
  unfold rewrite_variation_point, specialize_variation_point.
  rewrite (bind_run _ _ _ _ _ (load_run _ _ _ Hl)).
  destruct (decide (handler vp = "Expr")) as [Hh|Hh].
  2:{ exists σ. split; [done|]. split; [done|]. split; [|done].
      exact (footprint_variation_point_eq σ l lv _ _ items Hl Hlv'). }
  set (h := if decide (i ≠ 0)
            then handler vp +:+ str_of_int (Z.of_nat i - 1) else handler vp).
  set (o := OVariationPoint (feature vp) h lv).
  set (σ1 := <[l := o]> σ).
  assert (l < length σ)%nat as Hlt by (by eapply lookup_lt_Some).
  rewrite (bind_run _ _ _ _ _ (put_run σ l o Hlt)). fold σ1.
  assert (σ1 !! l = Some o) as Hl1 by (by apply list_lookup_insert_eq).
  assert (σ1 !! lv = Some (OList items)) as Hlv1.
  { unfold σ1. by rewrite list_lookup_insert_ne. }
  rewrite (bind_run _ _ _ _ _ (load_run _ _ _ Hlv1)).
  destruct (Forall2_read_agree read_variant footprint_variant σ σ1 items (variants vp)
              local_variant) as [Hitems1 _]; [|done|].
  { unfold footprint_variant. rewrite join_singletons. intros l' Hl'.
    apply list_lookup_insert_ne. by intros ->. }
  pose proof (rewrite_variants_spec i items σ1 (variants vp) Hitems1 Hnd) as Hvs.
  destruct (forM (specialize_variant i) (variants vp)) as [vs'|e];
    cbn [mbind result_bind]; [|done].
  destruct Hvs as (σ' & Hrun & Hread' & Hlen & Hframe).
  assert (σ' !! l = Some o) as Hl' by (by rewrite (Hframe l Hlitems)).
  assert (σ' !! lv = Some (OList items)) as Hlv2 by (by rewrite (Hframe lv Hlvitems)).
  exists σ'. split; [done|]. split; [|split; [|split]].
  - apply read_variation_point_Some. exists lv. split; [done|].
    apply read_list_Some. by exists items.
  - exact (footprint_variation_point_eq σ' l lv _ _ items Hl' Hlv2).
  - rewrite Hlen. apply length_insert.
  - intros l' [Hne [Hne' Hin]%not_elem_of_cons]%not_elem_of_cons.
    rewrite (Hframe l' Hin). by apply list_lookup_insert_ne.
Qed.

Lemma rewrite_variation_points_spec (i : nat) (ls : list loc) :
  ∀ σ vps,
    Forall2 (λ l vp, read_variation_point σ l = Some vp) ls vps →
    NoDup (mjoin (footprint_variation_point σ <$> ls)) →
    match forM (specialize_variation_point i) vps with
    | Ok vps' =>
        ∃ σ', rewrite_variation_points i ls σ = Done () σ'
              ∧ Forall2 (λ l vp, read_variation_point σ' l = Some vp) ls vps'
              ∧ footprint_variation_point σ' <$> ls = footprint_variation_point σ <$> ls
              ∧ length σ' = length σ
              ∧ (∀ l, l ∉ mjoin (footprint_variation_point σ <$> ls) →
                      σ' !! l = σ !! l)
    | Raise e => rewrite_variation_points i ls σ = Raised e
    end.
Proof.
  induction ls as [|l ls IH]; intros σ vps Hread Hnd.
  - apply Forall2_nil_inv_l in Hread as ->. cbn [forM].
    exists σ. split; [done|]. split; [constructor | done].
  - apply Forall2_cons_inv_l in Hread as (vp & vps' & Hl & Hls & ->).
    change (mjoin (footprint_variation_point σ <$> l :: ls))
      with (footprint_variation_point σ l
            ++ mjoin (footprint_variation_point σ <$> ls)) in *.
    apply NoDup_app in Hnd as (Hnd1 & Hdisj & Hnd2).
    cbn [forM rewrite_variation_points].
    pose proof (rewrite_variation_point_spec i l σ vp Hl Hnd1) as Hone.
    destruct (specialize_variation_point i vp) as [vp'|e]; cbn [mbind result_bind];
      [|by rewrite (bind_raise _ _ _ _ Hone)].
    destruct Hone as (σ1 & Hrun1 & Hl1 & Hfp1 & Hlen1 & Hframe1).
    rewrite (bind_run _ _ _ _ _ Hrun1).
    destruct (Forall2_read_agree read_variation_point footprint_variation_point
                σ σ1 ls vps' local_variation_point) as [Hls1 Hfps1]; [|done|].
    { intros l' Hl'. apply Hframe1. intros Hin. by apply (Hdisj l'). }
    rewrite <- Hfps1 in Hnd2.
    specialize (IH σ1 vps' Hls1 Hnd2).
    destruct (forM (specialize_variation_point i) vps') as [vps''|e];
      cbn [mbind result_bind]; [|done].
    destruct IH as (σ' & Hrun & Hread' & Hfps' & Hlen & Hframe).
    destruct (proj1 local_variation_point σ1 σ' l) as [Hr Hf].
    { intros l' Hl'. apply Hframe. rewrite Hfps1. rewrite Hfp1 in Hl'.
      by apply Hdisj. }
    exists σ'. split; [done|]. split; [|split; [|split]].
    + constructor; [by rewrite Hr | done].
    + rewrite !fmap_cons. by rewrite Hf, Hfp1, Hfps', Hfps1.
    + by rewrite Hlen.
    + intros l' [Hl1' Hl2']%not_elem_of_app.
      rewrite Hframe by (by rewrite Hfps1). by apply Hframe1.
Qed.

(** The specialisation of a dictionary of values, by keys and values. *)
Lemma specialize_zip (ks : list string) (vps : list VariationPoint) (i : nat) :
  length ks = length vps →
  value_specialize (zip ks vps) i
  = match forM (specialize_variation_point i) vps with
    | Ok vps' => Ok (zip ks vps')
    | Raise e => Raise e
    end.
Proof.
  revert vps. induction ks as [|k ks IH]; intros [|vp vps] Hlen; try done.
  cbn [zip zip_with]. unfold value_specialize in *. cbn [forM].
  destruct (specialize_variation_point i vp) as [vp'|e]; cbn [mbind result_bind];
    [|done].
  rewrite IH by (cbn [length] in Hlen; lia).
  by destruct (forM (specialize_variation_point i) vps).
Qed.

(** One iteration on the store computes the specialisation of the value:
    on a mapping model without sharing that stands for [d], it returns a
    new model that stands for the specialisation of [d], or raises what
    the specialisation of [d] raises. *)
Lemma specialize_spec (σ : store) (mapping_model : loc) (d : pydict VariationPoint)
    (i : nat) :
  read_model σ mapping_model = Some d →
  tree σ mapping_model →
  match value_specialize d i with
  | Ok d' =>
      ∃ new σ', Store.specialize mapping_model i σ = Done new σ'
                ∧ read_model σ' new = Some d'
                ∧ tree σ' new
  | Raise e => Store.specialize mapping_model i σ = Raised e
  end.
Proof.
  intros Hread Htree.
  destruct (deepcopy_spec σ mapping_model d Hread Htree)
    as (new & σ1 & Hcopy & Hpre & Hnew & Htree1 & Hrange).
  pose proof (proj1 (read_model_Some _ _ _) Hnew) as (entries & vps & Hd & Hvps & ->).
  unfold tree, footprint in Htree1. rewrite Hd in Htree1.
  apply NoDup_cons in Htree1 as [Hnewfp Hnd].
  rewrite specialize_zip
    by (apply Forall2_length in Hvps; by rewrite !length_fmap in * ).
  pose proof (rewrite_variation_points_spec i entries.*2 σ1 vps Hvps Hnd) as Hrw.
  unfold Store.specialize. rewrite (bind_run _ _ _ _ _ Hcopy).
  rewrite (bind_run _ _ _ _ _ (load_run _ _ _ Hd)).
  destruct (forM (specialize_variation_point i) vps) as [vps'|e];
    [|by rewrite (bind_raise _ _ _ _ Hrw)].
  destruct Hrw as (σ' & Hrun & Hread' & Hfps & Hlen & Hframe).
  exists new, σ'. rewrite (bind_run _ _ _ _ _ Hrun). split; [done|].
  assert (σ' !! new = Some (ODict entries)) as Hd' by (by rewrite Hframe).
  split.
  - apply read_model_Some. by exists entries, vps'.
  - unfold tree, footprint. rewrite Hd', Hfps. by apply NoDup_cons.
Qed.

(** The loop on the store computes the specialisations of the value, one
    per configuration, and leaves the original standing for its value. *)
Lemma specialize_from_spec (mapping_model : loc) (d : pydict VariationPoint)
    (configurations : list Configuration) :
  ∀ i σ,
    read_model σ mapping_model = Some d →
    tree σ mapping_model →
    match forM (λ '(i, config), value_specialize d i)
            (enumerate_from i configurations) with
    | Ok ds =>
        ∃ ms σ',
          specialize_from mapping_model i configurations σ = Done ms σ'
          ∧ Forall2 (λ m d', read_model σ' m = Some d' ∧ tree σ' m) ms ds
          ∧ read_model σ' mapping_model = Some d
          ∧ tree σ' mapping_model
    | Raise e => specialize_from mapping_model i configurations σ = Raised e
    end.
Proof.
  induction configurations as [|config rest IH]; intros i σ Hread Htree.
  - cbn [enumerate_from forM]. exists [], σ. split; [done|]. by split; [constructor|].
  - cbn [enumerate_from forM specialize_from].
    pose proof (specialize_spec σ mapping_model d i Hread Htree) as Hone.
    destruct (value_specialize d i) as [d'|e]; cbn [mbind result_bind];
      [|by rewrite (bind_raise _ _ _ _ Hone)].
    destruct Hone as (new & σ1 & Hrun1 & Hnew & Htreenew).
    rewrite (bind_run _ _ _ _ _ Hrun1).
    destruct (specialize_fresh _ _ _ _ _ Hrun1) as (Hlow1 & _ & _).
    destruct (local_below read_model footprint σ σ1 mapping_model d local_model
                Hlow1 Hread) as [Hread1 Hfp1].
    assert (tree σ1 mapping_model) as Htree1 by (unfold tree; by rewrite Hfp1).
    specialize (IH (S i) σ1 Hread1 Htree1).
    destruct (forM (λ '(i, config), value_specialize d i) (enumerate_from (S i) rest))
      as [ds|e]; cbn [mbind result_bind]; [|by rewrite (bind_raise _ _ _ _ IH)].
    destruct IH as (ms & σ' & Hrun & Hms & Hread' & Htree').
    rewrite (bind_run _ _ _ _ _ Hrun).
    destruct (specialize_from_blocks _ _ _ _ _ _ Hrun) as (Hlow & _ & _).
    destruct (local_below read_model footprint σ1 σ' new d' local_model Hlow Hnew)
      as [Hnew' Hfpnew].
    exists (new :: ms), σ'. split; [done|]. split; [|done].
    constructor; [|done]. split; [done|]. unfold tree. by rewrite Hfpnew.
Qed.

(** The store refines the values: on a mapping model without sharing that
    stands for the value [d], [mapping_model_by_configurations] on the
    store returns models that stand, position by position, for the models
    that the function on values returns for [d], and raises what that
    function raises. *)
Lemma mapping_model_by_configurations_refines (σ : store) (mapping_model : loc)
    (d : pydict VariationPoint) (configurations : list Configuration) :
  read_model σ mapping_model = Some d →
  tree σ mapping_model →
  match value_mapping_model_by_configurations d configurations with
  | Ok ds =>
      ∃ ms σ',
        Store.mapping_model_by_configurations mapping_model configurations σ
        = Done ms σ'
        ∧ Forall2 (λ m d', read_model σ' m = Some d' ∧ tree σ' m) ms ds
        ∧ read_model σ' mapping_model = Some d
        ∧ tree σ' mapping_model
  | Raise e =>
      Store.mapping_model_by_configurations mapping_model configurations σ = Raised e
  end.
Proof. apply specialize_from_spec. Qed.

(** *** Independent deep copies *)

(** C5. The specialisation returns structurally independent deep copies.
    Run on a store without dangling references, it leaves every object
    that existed before as it was (so the original mapping model is
    untouched), and the specialised models it returns share no object with
    the original nor with one another. Therefore any mutation of the
    structure of one specialised model leaves the original mapping model
    and every other specialised model exactly as they were. And the models
    are copies: when the original has no sharing and stands for the value
    [d], it still does afterwards, and the returned models stand, position
    by position, for the specialisations of [d]. *)
Theorem specialized_copies_isolated (σ σ' : store) (mapping_model : loc)
    (configurations : list Configuration) (ms : list loc)
    (Hclosed : closed σ) (Hmm : (mapping_model < length σ)%nat)
    (Hrun : Store.mapping_model_by_configurations mapping_model configurations σ
            = Done ms σ') :
  length ms = length configurations
  ∧ (∀ l, (l < length σ)%nat → σ' !! l = σ !! l)
  ∧ same_structure σ σ' mapping_model
  ∧ (∀ i mi l, ms !! i = Some mi → reach σ' mi l → ¬ reach σ mapping_model l)
  ∧ (∀ i j mi mj l,
       i ≠ j → ms !! i = Some mi → ms !! j = Some mj →
       reach σ' mi l → ¬ reach σ' mj l)
  ∧ (∀ i mi σ'',
       ms !! i = Some mi →
       mutation_of σ' mi σ'' →
       same_structure σ σ'' mapping_model
       ∧ ∀ j mj, j ≠ i → ms !! j = Some mj → same_structure σ' σ'' mj)
  ∧ (∀ d,
       read_model σ mapping_model = Some d →
       tree σ mapping_model →
       read_model σ' mapping_model = Some d
       ∧ ∃ ds,
           value_mapping_model_by_configurations d configurations = Ok ds
           ∧ Forall2 (λ m d', read_model σ' m = Some d') ms ds).
Proof.
  assert (∀ d,
       read_model σ mapping_model = Some d →
       tree σ mapping_model →
       read_model σ' mapping_model = Some d
       ∧ ∃ ds,
           value_mapping_model_by_configurations d configurations = Ok ds
           ∧ Forall2 (λ m d', read_model σ' m = Some d') ms ds) as Hcopy.
  { intros d Hread Htree.
    pose proof (mapping_model_by_configurations_refines σ mapping_model d
                  configurations Hread Htree) as Href.
    destruct (value_mapping_model_by_configurations d configurations) as [ds|e];
      [|congruence].
    destruct Href as (ms' & σ2 & Hrun' & Hms & Hread' & _).
    rewrite Hrun in Hrun'. injection Hrun' as <- <-.
    split; [done|]. exists ds. split; [done|].
    eapply Forall2_impl; [exact Hms|]. by intros m d' [? _]. }
  cut (length ms = length configurations
  ∧ (∀ l, (l < length σ)%nat → σ' !! l = σ !! l)
  ∧ same_structure σ σ' mapping_model
  ∧ (∀ i mi l, ms !! i = Some mi → reach σ' mi l → ¬ reach σ mapping_model l)
  ∧ (∀ i j mi mj l,
       i ≠ j → ms !! i = Some mi → ms !! j = Some mj →
       reach σ' mi l → ¬ reach σ' mj l)
  ∧ (∀ i mi σ'',
       ms !! i = Some mi →
       mutation_of σ' mi σ'' →
       same_structure σ σ'' mapping_model
       ∧ ∀ j mj, j ≠ i → ms !! j = Some mj → same_structure σ' σ'' mj)).
  { intros (H1 & H2 & H3 & H4 & H5 & H6).
    exact (conj H1 (conj H2 (conj H3 (conj H4 (conj H5 (conj H6 Hcopy)))))). }
  clear Hcopy.
  unfold Store.mapping_model_by_configurations in Hrun.
  apply specialize_from_blocks in Hrun as (Hlow & Hblocks & Hlen).
  assert (∀ l, reach σ mapping_model l → (l < length σ)%nat) as Hold.
  { intros l. by apply reach_closed. }
  assert (∀ i mi l, ms !! i = Some mi → reach σ' mi l
                    → (length σ ≤ l < length σ')%nat) as Hnew.
  { intros i mi l Hi Hreach. split; [by eapply blocks_ge | by eapply blocks_lt]. }
  split; [done|]. split; [done|].
  split; [intros l Hl; by apply Hlow, Hold|].
  split; [intros i mi l Hi Hreach Hl%Hold; apply (Hnew i mi l Hi) in Hreach; lia|].
  split.
  { intros i j mi mj l Hij Hi Hj Hri Hrj. by eapply (blocks_disjoint σ' _ ms i j). }
  intros i mi σ'' Hi Hmut. split.
  - intros l Hl. pose proof (Hold l Hl) as Hlt.
    rewrite <- (Hlow l Hlt). apply Hmut.
    + apply blocks_le in Hblocks. pose proof (Hnew i mi mi Hi (reach_refl _ _)). lia.
    + intros Hreach. apply (Hnew i mi l Hi) in Hreach. lia.
  - intros j mj Hji Hj l Hl. apply Hmut.
    + by apply (Hnew j mj l Hj).
    + intros Hreach. by eapply (blocks_disjoint σ' _ ms i j).
Qed.

Lemma specialized_copies_isolated_witness :
  Store.mapping_model_by_configurations 3
    [Example_store.config; Example_store.config; Example_store.config]
    Example_store.σ
  = Done [7; 11; 15] Example_store.σ3
  ∧ (∀ σ'',
      mutation_of Example_store.σ3 15 σ'' →
      same_structure Example_store.σ σ'' 3
      ∧ same_structure Example_store.σ3 σ'' 7)
  ∧ read_model Example_store.σ3 3 = Some Example_store.model
  ∧ ∃ ds,
      value_mapping_model_by_configurations Example_store.model
        [Example_store.config; Example_store.config; Example_store.config] = Ok ds
      ∧ Forall2 (λ m d', read_model Example_store.σ3 m = Some d') [7; 11; 15] ds.
Proof.
  assert (Store.mapping_model_by_configurations 3
            [Example_store.config; Example_store.config; Example_store.config]
            Example_store.σ
          = Done [7; 11; 15] Example_store.σ3) as Hrun by reflexivity.
  split; [exact Hrun|].
  assert (closed Example_store.σ) as Hclosed.
  { intros l o l' Hl Hin.
    do 4 (destruct l as [|l]; [injection Hl as <-; cbn [refs] in Hin;
            repeat (apply elem_of_cons in Hin as [->|Hin]; [cbn; lia|]);
            by apply elem_of_nil in Hin|]).
    done. }
  assert (3 < length Example_store.σ)%nat as Hmm by (cbn; lia).
  destruct (specialized_copies_isolated _ _ _ _ _ Hclosed Hmm Hrun)
    as (_ & _ & _ & _ & _ & Hiso & Hcopy).
  split.
  - intros σ'' Hmut. destruct (Hiso 2 15 σ'' eq_refl Hmut) as [Horig Hothers].
    split; [exact Horig|]. by apply (Hothers 0 7).
  - apply (Hcopy Example_store.model); [reflexivity|].
    unfold tree. compute_done.
Defined.


End store_refinement.

(** * Further properties of the program *)

Lemma filter_nil_Forall {A : Type} (P : A → Prop) `{!∀ x, Decision (P x)}
    (l : list A) :
  filter P l = [] ↔ Forall (λ x, ¬ P x) l.
Proof.
  induction l as [|x l IH]; [done|].
  rewrite filter_cons, Forall_cons. destruct (decide (P x)) as [Hx|Hx].
  - split; [done|]. by intros [? _].
  - rewrite IH. by split; [|intros [_ ?]].
Qed.

(** ** Attribute files *)

Lemma parse_attributes_snoc (rows : list AttributeRow) (row : AttributeRow) :
  parse_attributes (rows ++ [row])
  = <[Attribute row := Value row]> (parse_attributes rows).
Proof. unfold parse_attributes. by rewrite foldl_app. Qed.

Lemma rows_of_snoc (a : string) (rows : list AttributeRow) (row : AttributeRow) :
  rows_of a (rows ++ [row])
  = if decide (Attribute row = a) then rows_of a rows ++ [row] else rows_of a rows.
Proof.
  unfold rows_of. rewrite filter_app.
  destruct (decide (Attribute row = a)) as [Hk|Hk].
  - by rewrite (filter_cons_True _ row []), filter_nil by done.
  - by rewrite (filter_cons_False _ row []), filter_nil, app_nil_r by done.
Qed.

Lemma parse_attributes_lookup (rows : list AttributeRow) (a : string) :
  parse_attributes rows !! a = Value <$> last (rows_of a rows).
Proof.
  induction rows as [|row rows IH] using rev_ind; [apply lookup_empty|].
  rewrite parse_attributes_snoc, rows_of_snoc.
  destruct (decide (Attribute row = a)) as [<-|Hne].
  - by rewrite lookup_insert_eq, last_snoc.
  - by rewrite lookup_insert_ne.
Qed.

(** X1. In the table that [parse_attributes] builds, an attribute has the
    value of the last row that sets it, and an attribute that no row sets
    is absent. *)
Theorem parse_attributes_last_row_wins (rows : list AttributeRow) (a : string) :
  parse_attributes rows !! a = Value <$> last (rows_of a rows)
  ∧ (parse_attributes rows !! a = None ↔ Forall (λ row, Attribute row ≠ a) rows).
Proof.
  split; [apply parse_attributes_lookup|].
  rewrite parse_attributes_lookup, fmap_None, last_None. unfold rows_of.
  apply filter_nil_Forall.
Qed.

(** X2. Looking an attribute up across parsed attribute files: the answer
    is the value of the last row setting it in the first file that has such
    a row, and [None] when no file has one. *)
Theorem get_attribute_value_of_parsed_files (a : string)
    (files : list (list AttributeRow)) :
  (∀ pre file post row,
      files = pre ++ file :: post →
      Forall (Forall (λ r, Attribute r ≠ a)) pre →
      last (rows_of a file) = Some row →
      get_attribute_value a (parse_attributes <$> files) = Some (Value row))
  ∧ (Forall (Forall (λ r, Attribute r ≠ a)) files →
     get_attribute_value a (parse_attributes <$> files) = None).
Proof.
  assert (∀ pre rest,
            Forall (Forall (λ r, Attribute r ≠ a)) pre →
            get_attribute_value a (parse_attributes <$> pre ++ rest)
            = get_attribute_value a (parse_attributes <$> rest)) as Hskip.
  { intros pre rest Hpre. induction Hpre as [|f pre Hf _ IH]; [done|].
    rewrite <- app_comm_cons, fmap_cons. cbn [get_attribute_value].
    rewrite parse_attributes_lookup. unfold rows_of.
    by rewrite (proj2 (filter_nil_Forall _ f) Hf). }
  split.
  - intros pre file post row -> Hpre Hrow. rewrite Hskip by done.
    rewrite fmap_cons. cbn [get_attribute_value].
    by rewrite parse_attributes_lookup, Hrow.
  - intros Hall. rewrite <- (app_nil_r files). by rewrite Hskip.
Qed.

Lemma get_attribute_value_of_parsed_files_witness :
  get_attribute_value "A.x"
    (parse_attributes <$> [Example_attributes.first_file;
                           Example_attributes.second_file;
                           Example_attributes.third_file]) = Some "2"
  ∧ get_attribute_value "A.x"
      (parse_attributes <$> [Example_attributes.first_file]) = None.
Proof.
  split.
  - apply (proj1 (get_attribute_value_of_parsed_files "A.x" _)
             [Example_attributes.first_file] Example_attributes.second_file
             [Example_attributes.third_file] {| Attribute := "A.x"; Value := "2" |});
      [reflexivity | repeat constructor; by intros [=] | reflexivity].
  - apply (proj2 (get_attribute_value_of_parsed_files "A.x" _)).
    repeat constructor; by intros [=].
Defined.

(** ** Variant resolution, further *)

Lemma get_attribute_value_singleton (identifier : string) (a : gmap string string) :
  get_attribute_value identifier [a] = a !! identifier.
Proof. cbn [get_attribute_value]. by destruct (a !! identifier). Qed.

(** X3. The single-configuration resolver is the general resolver applied
    to that one configuration and that one attribute table: the two loops
    agree on every input, raises included. *)
Theorem get_variant_value_in_configuration_as_lists (fm : FeatureModel)
    (vp : VariationPoint) (configuration : Configuration)
    (attributes : gmap string string) :
  get_variant_value_in_configuration fm vp configuration attributes
  = get_variant_value fm vp [configuration] [attributes].
Proof.
  unfold get_variant_value_in_configuration, get_variant_value.
  induction (variants vp) as [|variant rest IH]; [done|].
  cbn [get_variant_value_in_configuration_loop get_variant_value_loop].
  destruct (get_feature_from_fm (guard_name variant) fm) as [f|e];
    cbn [mbind result_bind]; [|done].
  unfold is_selected_in_a_configuration. cbn [existsb]. rewrite orb_false_r.
  rewrite IH. unfold candidate_value.
  by rewrite get_attribute_value_singleton.
Qed.

(** What the loop of [get_variant_value] can produce. *)
Lemma get_variant_value_loop_outcome (fm : FeatureModel) (vs : list Variant)
    (configurations : list Configuration) (attributes : list (gmap string string)) :
  match get_variant_value_loop fm vs configurations attributes with
  | Ok None =>
      (Forall (passed_over fm configurations) vs)
      ∨ ∃ v, v ∈ vs ∧ guard_name v ∈ fm_features fm
             ∧ guard_satisfied configurations v = true
             ∧ candidate_value v attributes = None
  | Ok (Some s) =>
      ∃ v, v ∈ vs ∧ guard_name v ∈ fm_features fm
           ∧ guard_satisfied configurations v = true
           ∧ candidate_value v attributes = Some s
  | Raise e =>
      ∃ v, v ∈ vs ∧ e = UnknownFeature (guard_name v)
           ∧ guard_name v ∉ fm_features fm
  end.
Proof.
  induction vs as [|v vs IH]; [left; constructor|].
  cbn [get_variant_value_loop].
  destruct (decide (guard_name v ∈ fm_features fm)) as [Hin|Hnin].
  - rewrite (get_feature_from_fm_known _ _ Hin). cbn [mbind result_bind].
    destruct (is_selected_in_a_configuration (guard_name v) configurations) eqn:Hsel.
    + destruct (candidate_value v attributes) as [s|] eqn:Hc.
      * exists v. split; [left | done].
      * right. exists v. split; [left | done].
    + destruct (get_variant_value_loop fm vs configurations attributes)
        as [[s|]|e].
      * destruct IH as (v' & ? & ?). exists v'. split; [by right | done].
      * destruct IH as [IH|(v' & ? & ?)].
        -- left. by constructor.
        -- right. exists v'. split; [by right | done].
      * destruct IH as (v' & ? & ?). exists v'. split; [by right | done].
  - rewrite (get_feature_from_fm_unknown _ _ Hnin). cbn [mbind result_bind].
    exists v. split; [left | done].
Qed.

(** X4. A value that [get_variant_value] returns is the candidate value of
    a variant of the variation point whose guard names a feature of the
    model selected in some supplied configuration: no value ever comes from
    a variant whose guard is not satisfied. *)
Theorem get_variant_value_sound (fm : FeatureModel) (vp : VariationPoint)
    (configurations : list Configuration) (attributes : list (gmap string string))
    (s : string)
    (Hvalue : get_variant_value fm vp configurations attributes = Ok (Some s)) :
  ∃ v, v ∈ variants vp
       ∧ guard_name v ∈ fm_features fm
       ∧ guard_satisfied configurations v = true
       ∧ candidate_value v attributes = Some s.
Proof.
  pose proof (get_variant_value_loop_outcome fm (variants vp) configurations attributes)
    as Hout.
  unfold get_variant_value in Hvalue. by rewrite Hvalue in Hout.
Qed.

Lemma get_variant_value_sound_witness :
  ∃ v, v ∈ variants Example_resolution.plain
       ∧ guard_name v ∈ fm_features Example_resolution.fm
       ∧ guard_satisfied [Example_resolution.select_Sub] v = true
       ∧ candidate_value v [] = Some "minus".
Proof.
  apply (get_variant_value_sound Example_resolution.fm Example_resolution.plain
           [Example_resolution.select_Sub] [] "minus").
  reflexivity.
Defined.

(** X5. [get_variant_value] returns whenever every guard names a feature
    of the model, and the only thing it raises is the unknown-feature
    exception for the guard name of one of the variants, a name that is
    indeed absent from the model. *)
Theorem get_variant_value_raises_only_unknown_guard (fm : FeatureModel)
    (vp : VariationPoint) (configurations : list Configuration)
    (attributes : list (gmap string string)) :
  (Forall (λ v, guard_name v ∈ fm_features fm) (variants vp) →
   ∃ r, get_variant_value fm vp configurations attributes = Ok r)
  ∧ (∀ e, get_variant_value fm vp configurations attributes = Raise e →
          ∃ v, v ∈ variants vp ∧ e = UnknownFeature (guard_name v)
               ∧ guard_name v ∉ fm_features fm).
Proof.
  pose proof (get_variant_value_loop_outcome fm (variants vp) configurations attributes)
    as Hout.
  unfold get_variant_value. split.
  - intros Hall.
    destruct (get_variant_value_loop fm (variants vp) configurations attributes)
      as [r|e]; [by eexists|].
    destruct Hout as (v & Hin & _ & Hnin).
    rewrite Forall_forall in Hall. by specialize (Hall v Hin).
  - intros e He. by rewrite He in Hout.
Qed.

Lemma get_variant_value_raises_only_unknown_guard_witness :
  (∃ r, get_variant_value Example_resolution.fm Example_resolution.plain
          [Example_resolution.select_none] [] = Ok r)
  ∧ ∃ v, v ∈ variants Example_resolution.unknown_guard
         ∧ UnknownFeature "Mul" = UnknownFeature (guard_name v)
         ∧ guard_name v ∉ fm_features Example_resolution.fm.
Proof.
  split.
  - apply (proj1 (get_variant_value_raises_only_unknown_guard _ _ _ _)).
    repeat constructor.
  - apply (proj2 (get_variant_value_raises_only_unknown_guard
                    Example_resolution.fm Example_resolution.unknown_guard
                    [Example_resolution.select_none] [])).
    reflexivity.
Defined.

(** X6. When no variant identifier of the variation point contains ['.'],
    the attribute tables play no part in the resolution: any two lists of
    attribute tables give the same result. *)
Theorem get_variant_value_plain_ignores_attributes (fm : FeatureModel)
    (vp : VariationPoint) (configurations : list Configuration)
    (attributes attributes' : list (gmap string string))
    (Hplain : Forall (λ v, in_str "."%char (identifier v) = false) (variants vp)) :
  get_variant_value fm vp configurations attributes
  = get_variant_value fm vp configurations attributes'.
Proof.
  unfold get_variant_value.
  induction Hplain as [|v vs Hv _ IH]; [done|].
  cbn [get_variant_value_loop]. unfold candidate_value.
  by rewrite Hv, IH.
Qed.

Lemma get_variant_value_plain_ignores_attributes_witness :
  get_variant_value Example_resolution.fm Example_resolution.plain
    [Example_resolution.select_Sub] []
  = get_variant_value Example_resolution.fm Example_resolution.plain
      [Example_resolution.select_Sub] [{[ "Sub" := "other" ]}].
Proof.
  apply get_variant_value_plain_ignores_attributes. repeat constructor.
Defined.

(** ** Parsing a configuration, further *)

Lemma parse_configuration_step_cases (fm : FeatureModel)
    (features : gmap string bool) (child : Element) :
  match parse_configuration_step fm features child with
  | Ok features' =>
      (attrib child = ∅ ∧ features' = features)
      ∨ ∃ name, (attrib child ≠ ∅) ∧ attrib child !! "name" = Some name
                ∧ name ∈ fm_features fm
                ∧ features' = <[name := feature_selected (attrib child)]> features
  | Raise e =>
      (attrib child ≠ ∅)
      ∧ ((attrib child !! "name" = None ∧ e = KeyError "name")
         ∨ ∃ name, attrib child !! "name" = Some name
                   ∧ (name ∉ fm_features fm) ∧ e = UnknownFeature name)
  end.
Proof.
  unfold parse_configuration_step.
  destruct (decide (attrib child = ∅)) as [Hempty|Hne]; [by left|].
  destruct (attrib child !! "name") as [name|] eqn:Hname; [|split; [done | by left]].
  destruct (decide (name ∈ fm_features fm)) as [Hin|Hnin].
  - rewrite (get_feature_from_fm_known _ _ Hin). right. by exists name.
  - rewrite (get_feature_from_fm_unknown _ _ Hnin). split; [done|]. right.
    by exists name.
Qed.

Lemma parse_configuration_loop_outcome (fm : FeatureModel) (root : list Element) :
  match foldM (parse_configuration_step fm) ∅ root with
  | Ok features =>
      Forall (record_ok fm) root
      ∧ ∀ f, is_Some (features !! f) → f ∈ fm_features fm
  | Raise e =>
      ¬ Forall (record_ok fm) root
      ∧ (e = KeyError "name"
         ∨ ∃ child name, child ∈ root ∧ attrib child !! "name" = Some name
                         ∧ (name ∉ fm_features fm) ∧ e = UnknownFeature name)
  end.
Proof.
  induction root as [|child root IH] using rev_ind.
  - split; [constructor|]. intros f. rewrite lookup_empty. by intros [? ?].
  - rewrite foldM_snoc.
    destruct (foldM (parse_configuration_step fm) ∅ root) as [features|e];
      cbn [mbind result_bind].
    2:{ destruct IH as [Hbad He]. split.
        - intros [? _]%Forall_app. by apply Hbad.
        - destruct He as [->|(c & n & Hin & ?)]; [by left|]. right.
          exists c, n. split; [|done]. apply elem_of_app. by left. }
    destruct IH as [Hall Hdom].
    pose proof (parse_configuration_step_cases fm features child) as Hstep.
    destruct (parse_configuration_step fm features child) as [features'|e].
    + destruct Hstep as [[Hempty ->]|(name & Hne & Hname & Hin & ->)].
      * split; [|done]. apply Forall_app. split; [done|].
        apply Forall_singleton. by left.
      * split.
        -- apply Forall_app. split; [done|]. apply Forall_singleton. right. eauto.
        -- intros f. destruct (decide (name = f)) as [<-|Hnf]; [done|].
           rewrite lookup_insert_ne by done. apply Hdom.
    + destruct Hstep as [Hne Hcase]. split.
      * intros [_ Hok]%Forall_app. rewrite Forall_singleton in Hok.
        destruct Hok as [Hempty|(name & Hname & Hin)]; [done|].
        destruct Hcase as [[Hnone _]|(name' & Hname' & Hnin & _)]; congruence.
      * destruct Hcase as [[_ ->]|(name & Hname & Hnin & ->)]; [by left|].
        right. exists child, name. split; [|done]. apply elem_of_app. right. left.
Qed.

(** X7. [parse_configuration] succeeds exactly when every record that has
    attributes has a [name] that is a feature of the model; otherwise it
    raises [KeyError] for a missing [name], or the unknown-feature
    exception for the name of one of the records, a name absent from the
    model. *)
Theorem parse_configuration_success (root : list Element) (fm : FeatureModel) :
  (Forall (record_ok fm) root ↔ ∃ config, parse_configuration root fm = Ok config)
  ∧ (∀ e, parse_configuration root fm = Raise e →
          e = KeyError "name"
          ∨ ∃ child name, child ∈ root ∧ attrib child !! "name" = Some name
                          ∧ (name ∉ fm_features fm) ∧ e = UnknownFeature name).
Proof.
  pose proof (parse_configuration_loop_outcome fm root) as Hout.
  unfold parse_configuration.
  destruct (foldM (parse_configuration_step fm) ∅ root) as [features|e];
    cbn [mbind result_bind].
  - destruct Hout as [Hall _]. split; [|done]. split; [by eexists | done].
  - destruct Hout as [Hbad He]. split.
    + split; [done|]. by intros [config ?].
    + by intros e' [= <-].
Qed.

Lemma parse_configuration_success_witness :
  (∃ config, parse_configuration Example_config.root Example_config.fm = Ok config)
  ∧ (KeyError "name" = KeyError "name"
     ∨ ∃ child name, child ∈ [Example_parse.nameless]
                     ∧ attrib child !! "name" = Some name
                     ∧ (name ∉ fm_features Example_config.fm)
                     ∧ KeyError "name" = UnknownFeature name).
Proof.
  split.
  - apply (proj1 (proj1 (parse_configuration_success Example_config.root
                           Example_config.fm))).
    repeat apply Forall_cons_2; [| | |apply Forall_nil_2]; right.
    + exists "Add". split; [reflexivity | compute_done].
    + exists "Sub". split; [reflexivity | compute_done].
    + exists "Op". split; [reflexivity | compute_done].
  - apply (proj2 (parse_configuration_success [Example_parse.nameless]
                    Example_config.fm)).
    reflexivity.
Defined.

(** X8. The features of a parsed configuration are exactly the names of
    the records of the file, and each of them is a feature of the model. *)
Theorem parse_configuration_features (root : list Element) (fm : FeatureModel)
    (config : Configuration) (Hparse : parse_configuration root fm = Ok config) :
  ∀ f, is_Some (elements config !! f)
       ↔ f ∈ fm_features fm
         ∧ ∃ child, child ∈ root ∧ attrib child !! "name" = Some f.
Proof.
  intros f. unfold parse_configuration in Hparse.
  pose proof (parse_configuration_loop_outcome fm root) as Hout.
  destruct (foldM (parse_configuration_step fm) ∅ root) as [features|e] eqn:Hloop;
    [|done].
  injection Hparse as <-. cbn [elements]. destruct Hout as [_ Hdom].
  rewrite (parse_configuration_loop_lookup _ _ _ Hloop f), fmap_is_Some, last_is_Some.
  unfold records_of. split.
  - intros Hne. split.
    + apply Hdom. rewrite (parse_configuration_loop_lookup _ _ _ Hloop f).
      by rewrite fmap_is_Some, last_is_Some.
    + destruct (filter _ root) as [|child l] eqn:Hf; [done|].
      assert (child ∈ filter (λ c, attrib c !! "name" = Some f) root) as Hin
        by (rewrite Hf; left).
      apply list_elem_of_filter in Hin as [? ?]. by exists child.
  - intros [_ (child & Hin & Hname)] Hnil.
    by apply (filter_nil_not_elem_of _ _ child Hnil).
Qed.

Lemma parse_configuration_features_witness :
  is_Some (elements Example_config.config !! "Sub")
  ↔ "Sub" ∈ fm_features Example_config.fm
    ∧ ∃ child, child ∈ Example_config.root ∧ attrib child !! "name" = Some "Sub".
Proof.
  apply (parse_configuration_features Example_config.root Example_config.fm).
  vm_compute. reflexivity.
Defined.

(** X9. A feature that is selected in some configuration parsed against
    the feature model is a feature of that model: with parsed
    configurations, a guard that is satisfied never names an unknown
    feature. *)
Theorem selected_in_parsed_configuration_known (fm : FeatureModel)
    (configurations : list Configuration) (f : string)
    (Hparsed : Forall (λ config, ∃ root, parse_configuration root fm = Ok config)
                 configurations)
    (Hselected : is_selected_in_a_configuration f configurations = true) :
  f ∈ fm_features fm.
Proof.
  unfold is_selected_in_a_configuration in Hselected.
  apply existsb_exists in Hselected as (config & Hin%list_elem_of_In & Hsel).
  rewrite Forall_forall in Hparsed. destruct (Hparsed config Hin) as [root Hparse].
  unfold selected_in in Hsel.
  destruct (elements config !! f) as [b|] eqn:Hf; [|done].
  unfold parse_configuration in Hparse.
  pose proof (parse_configuration_loop_outcome fm root) as Hout.
  destruct (foldM (parse_configuration_step fm) ∅ root) as [features|e]; [|done].
  injection Hparse as <-. destruct Hout as [_ Hdom]. apply Hdom.
  cbn [elements] in Hf. by rewrite Hf.
Qed.

Lemma selected_in_parsed_configuration_known_witness :
  "Sub" ∈ fm_features Example_config.fm.
Proof.
  apply (selected_in_parsed_configuration_known Example_config.fm
           [Example_config.config] "Sub").
  - repeat constructor. exists Example_config.root. vm_compute. reflexivity.
  - reflexivity.
Defined.

(** ** Loading the mapping model, further *)

Lemma mem_true_iff {V : Type} (k : string) (d : pydict V) :
  mem k d = true ↔ k ∈ keys d.
Proof.
  unfold mem, keys. induction d as [|[k' v] d IH]; cbn [get fmap list_fmap fst].
  - split; [done|]. by intros ?%elem_of_nil.
  - destruct (decide (k' = k)) as [->|Hne].
    + split; [|done]. intros _. left.
    + rewrite IH. split; [by right|].
      by intros [?|?]%elem_of_cons.
Qed.

Lemma keys_set {V : Type} (k : string) (v : V) (d : pydict V) :
  keys (set k v d) = if mem k d then keys d else keys d ++ [k].
Proof.
  unfold mem, keys. induction d as [|[k' v'] d IH]; [done|]. cbn [set get].
  destruct (decide (k' = k)) as [->|Hne]; [done|].
  rewrite fmap_cons, IH. by destruct (get k d).
Qed.

Lemma values_set_Forall {V : Type} (P : V → Prop) (k : string) (v : V) (d : pydict V) :
  Forall P (values d) → P v → Forall P (values (set k v d)).
Proof.
  unfold values. intros Hd Hv. induction d as [|[k' v'] d IH]; cbn [set].
  - by apply Forall_singleton.
  - rewrite fmap_cons in Hd. apply Forall_cons in Hd as [Hv' Hd].
    destruct (decide (k' = k)) as [->|Hne]; rewrite fmap_cons.
    + by constructor.
    + constructor; [done | by apply IH].
Qed.

Lemma get_Some_values {V : Type} (k : string) (v : V) (d : pydict V) :
  get k d = Some v → v ∈ values d.
Proof.
  unfold values. induction d as [|[k' v'] d IH]; [done|]. cbn [get].
  rewrite fmap_cons. destruct (decide (k' = k)) as [->|Hne].
  - intros [= ->]. left.
  - intros Hget. right. by apply IH.
Qed.

(** What one row does: it never raises [KeyError]; it raises only when it
    has to create a variation point governed by an unknown feature. *)
Lemma load_mapping_model_step_cases (fm : FeatureModel)
    (variation_points : pydict VariationPoint) (row : Row) :
  match load_mapping_model_step fm variation_points row with
  | Ok variation_points' =>
      variation_points'
      = set (row_key row) (row_result variation_points row) variation_points
      ∧ (row_dotted row = true ∨ get (row_key row) variation_points = None →
         VariationPointFeature row ∈ fm_features fm)
  | Raise e =>
      (VariationPointFeature row ∉ fm_features fm)
      ∧ e = UnknownFeature (VariationPointFeature row)
  end.
Proof.
  destruct (load_mapping_model_step fm variation_points row) as [vps'|e] eqn:Hstep.
  - split; [by apply (load_mapping_model_step_Ok fm)|].
    revert Hstep. unfold load_mapping_model_step, row_key, row_dotted, mem.
    destruct (decide (VariationPointFeature row ∈ fm_features fm)) as [Hin|Hnin];
      [done|].
    rewrite (get_feature_from_fm_unknown _ _ Hnin).
    destruct (in_str "."%char (VariantIdentifier row)); [done|].
    destruct (get (VariationPointFeature row) variation_points); [|done].
    intros _ [?|?]; done.
  - revert Hstep. unfold load_mapping_model_step, mem.
    destruct (decide (VariationPointFeature row ∈ fm_features fm)) as [Hin|Hnin].
    + rewrite (get_feature_from_fm_known _ _ Hin).
      destruct (in_str "."%char (VariantIdentifier row)).
      * cbn [mbind result_bind]. by rewrite get_set_eq.
      * destruct (get (VariationPointFeature row) variation_points) as [vp|] eqn:Hget;
          cbn [negb mbind result_bind].
        -- by rewrite Hget.
        -- by rewrite get_set_eq.
    + rewrite (get_feature_from_fm_unknown _ _ Hnin).
      destruct (in_str "."%char (VariantIdentifier row)); [by intros [= <-]|].
      destruct (get (VariationPointFeature row) variation_points) as [vp|] eqn:Hget;
        cbn [negb mbind result_bind].
      * by rewrite Hget.
      * by intros [= <-].
Qed.

Lemma loaded_variation_point_more_rows (fm : FeatureModel) (rows : list Row)
    (row : Row) (vp : VariationPoint) :
  loaded_variation_point fm rows vp → loaded_variation_point fm (rows ++ [row]) vp.
Proof.
  intros (Hf & Hne & Hvs). split; [done|]. split; [done|].
  eapply Forall_impl; [exact Hvs|]. intros v (r & Hin & ->).
  exists r. split; [|done]. apply elem_of_app. by left.
Qed.

Lemma load_mapping_model_outcome (rows : list Row) (fm : FeatureModel) :
  match load_mapping_model rows fm with
  | Ok mapping_model =>
      NoDup (keys mapping_model)
      ∧ (∀ k, k ∈ keys mapping_model ↔ ∃ row, row ∈ rows ∧ row_key row = k)
      ∧ Forall (loaded_variation_point fm rows) (values mapping_model)
  | Raise e =>
      ∃ row, row ∈ rows
             ∧ (VariationPointFeature row ∉ fm_features fm)
             ∧ e = UnknownFeature (VariationPointFeature row)
  end.
Proof.
  unfold load_mapping_model. induction rows as [|row rows IH] using rev_ind.
  - cbn [foldM]. split; [constructor|]. split; [|constructor].
    intros k. split; [by intros ?%elem_of_nil|]. by intros (r & ?%elem_of_nil & _).
  - rewrite foldM_snoc.
    destruct (foldM (load_mapping_model_step fm) [] rows) as [mm|e];
      cbn [mbind result_bind].
    2:{ destruct IH as (r & Hin & ?). exists r. split; [|done].
        apply elem_of_app. by left. }
    destruct IH as (Hnd & Hkeys & Hvps).
    pose proof (load_mapping_model_step_cases fm mm row) as Hstep.
    destruct (load_mapping_model_step fm mm row) as [mm'|e].
    2:{ exists row. split; [|done]. apply elem_of_app. right. left. }
    destruct Hstep as [-> Hcreate]. rewrite keys_set.
    split; [|split].
    + destruct (mem (row_key row) mm) eqn:Hmem; [done|].
      apply NoDup_app. split; [done|]. split; [|apply NoDup_singleton].
      intros k Hk ->%list_elem_of_singleton.
      apply mem_true_iff in Hk. congruence.
    + intros k. destruct (mem (row_key row) mm) eqn:Hmem.
      * rewrite Hkeys. split.
        -- intros (r & Hin & ?). exists r. split; [|done]. apply elem_of_app. by left.
        -- intros (r & [Hin|Hr%list_elem_of_singleton]%elem_of_app & <-);
             [by exists r|]. subst r. apply Hkeys. by apply mem_true_iff.
      * rewrite elem_of_app, Hkeys, list_elem_of_singleton. split.
        -- intros [(r & Hin & ?)|Hk].
           ++ exists r. split; [|done]. apply elem_of_app. by left.
           ++ subst k. exists row. split; [|done]. apply elem_of_app. right. left.
        -- intros (r & [Hin|Hr%list_elem_of_singleton]%elem_of_app & <-);
             [left; by exists r | subst r; by right].
    + apply values_set_Forall.
      * eapply Forall_impl; [exact Hvps|].
        intros vp. apply loaded_variation_point_more_rows.
      * unfold row_result.
        destruct (if row_dotted row then None else get (row_key row) mm)
          as [vp|] eqn:Hcase.
        -- assert (get (row_key row) mm = Some vp) as Hget
             by (by destruct (row_dotted row)).
           apply get_Some_values in Hget. rewrite Forall_forall in Hvps.
           destruct (Hvps vp Hget) as (Hf & Hne & Hvs).
           split; [done|]. split; [by intros [? _]%app_nil|].
           cbn [variants]. apply Forall_app. split.
           ++ eapply Forall_impl; [exact Hvs|]. intros v (r & Hin & ->).
              exists r. split; [|done]. apply elem_of_app. by left.
           ++ apply Forall_singleton. exists row. split; [|done].
              apply elem_of_app. right. left.
        -- split; [|split; [done|]].
           ++ apply Hcreate. destruct (row_dotted row); [by left | by right].
           ++ apply Forall_singleton. exists row. split; [|done].
              apply elem_of_app. right. left.
Qed.



(** X11. The keys of a loaded mapping model are pairwise different, and
    they are exactly the keys of the rows: the variant identifier of a
    dotted row, the governing feature of any other row. *)
Theorem load_mapping_model_keys (rows : list Row) (fm : FeatureModel)
    (mapping_model : pydict VariationPoint)
    (Hload : load_mapping_model rows fm = Ok mapping_model) :
  NoDup (keys mapping_model)
  ∧ ∀ k, k ∈ keys mapping_model ↔ ∃ row, row ∈ rows ∧ row_key row = k.
Proof.
  pose proof (load_mapping_model_outcome rows fm) as Hout.
  rewrite Hload in Hout. by destruct Hout as (? & ? & _).
Qed.

Lemma load_mapping_model_keys_witness :
  NoDup (keys [("Op", Example_rows.Op)])
  ∧ ∀ k, k ∈ keys [("Op", Example_rows.Op)]
         ↔ ∃ row, row ∈ [Example_rows.plain1; Example_rows.plain2] ∧ row_key row = k.
Proof.
  apply (load_mapping_model_keys [Example_rows.plain1; Example_rows.plain2]
           Example_rows.fm).
  reflexivity.
Defined.

(** X12. Every variation point of a loaded mapping model is governed by a
    feature of the model and has at least one variant, and each of its
    variants is the one that some row declares (so no variant has the value
    ["-"], which rows turn into the null value). *)
Theorem load_mapping_model_variation_points (rows : list Row) (fm : FeatureModel)
    (mapping_model : pydict VariationPoint)
    (Hload : load_mapping_model rows fm = Ok mapping_model) :
  Forall (λ vp,
            feature vp ∈ fm_features fm
            ∧ variants vp ≠ []
            ∧ Forall (λ v, (∃ row, row ∈ rows ∧ v = row_variant row)
                           ∧ value v ≠ Some "-") (variants vp))
    (values mapping_model).
Proof.
  pose proof (load_mapping_model_outcome rows fm) as Hout.
  rewrite Hload in Hout. destruct Hout as (_ & _ & Hvps).
  eapply Forall_impl; [exact Hvps|]. intros vp (Hf & Hne & Hvs).
  split; [done|]. split; [done|].
  eapply Forall_impl; [exact Hvs|]. intros v (row & Hin & ->).
  split; [by exists row|]. unfold row_variant. cbn [value].
  destruct (decide (VariantValue row = "-")) as [?|Hne']; [done|]. congruence.
Qed.

Lemma load_mapping_model_variation_points_witness :
  Forall (λ vp,
            feature vp ∈ fm_features Example_rows.fm
            ∧ variants vp ≠ []
            ∧ Forall (λ v, (∃ row, row ∈ [Example_rows.plain1; Example_rows.plain2]
                                   ∧ v = row_variant row)
                           ∧ value v ≠ Some "-") (variants vp))
    (values [("Op", Example_rows.Op)]).
Proof.
  apply (load_mapping_model_variation_points
           [Example_rows.plain1; Example_rows.plain2] Example_rows.fm).
  reflexivity.
Defined.

(** ** The per-configuration specialisation, further *)




Lemma forM_Ok_Forall2 {A B : Type} (f : A → result B) (l : list A) (ys : list B) :
  forM f l = Ok ys → Forall2 (λ x y, f x = Ok y) l ys.
Proof.
  revert ys. induction l as [|x l IH]; intros ys Hok; simplify_eq/=; [constructor|].
  destruct (f x) as [y|e] eqn:Hx; simplify_eq/=.
  destruct (forM f l) as [ys'|e] eqn:Hl; simplify_eq/=.
  constructor; [done|]. by apply IH.
Qed.

(** [str] of an integer determines the integer, and is never empty. *)
Lemma Z_to_int_nonnil (z : Z) :
  Z.to_int z ≠ Decimal.Pos Decimal.Nil ∧ Z.to_int z ≠ Decimal.Neg Decimal.Nil.
Proof.
  destruct z as [|p|p]; cbn [Z.to_int]; split; try done; intros [= Hp];
    by apply DecimalPos.Unsigned.to_uint_nonnil in Hp.
Qed.

Lemma str_of_int_inj (z1 z2 : Z) : str_of_int z1 = str_of_int z2 → z1 = z2.
Proof.
  unfold str_of_int. intros Heq. apply DecimalZ.to_int_inj.
  destruct (Z_to_int_nonnil z1) as [H1 H1'], (Z_to_int_nonnil z2) as [H2 H2'].
  pose proof (NilZero.isi _ H1 H1') as E1. pose proof (NilZero.isi _ H2 H2') as E2.
  rewrite Heq in E1. congruence.
Qed.

Lemma str_of_int_nonempty (z : Z) : str_of_int z ≠ EmptyString.
Proof.
  unfold str_of_int. intros Heq.
  destruct (Z_to_int_nonnil z) as [H1 H1'].
  pose proof (NilZero.isi _ H1 H1') as E. by rewrite Heq in E.
Qed.

Lemma Expr_handler_inj (i j : nat) : Expr_handler i = Expr_handler j → i = j.
Proof.
  assert (∀ z, "Expr" ≠ "Expr" +:+ str_of_int z) as Hne.
  { intros z Heq. apply (str_of_int_nonempty z).
    apply (String.app_inj "Expr"). by rewrite <- Heq. }
  destruct i as [|i], j as [|j]; cbn [Expr_handler]; intros Heq; [done|..].
  - by apply Hne in Heq.
  - symmetry in Heq. by apply Hne in Heq.
  - apply (String.app_inj "Expr"), str_of_int_inj in Heq. lia.
Qed.

(** What a successful pass of the loop body leaves of a variation point
    handled by ["Expr"]. *)
Lemma specialize_variation_point_Ok_inv (i : nat) (v v' : VariationPoint) :
  specialize_variation_point i v = Ok v' →
  handler v = "Expr" →
  feature v' = feature v ∧ handler v' = Expr_handler i
  ∧ Forall2 (λ x y, specialize_variant i x = Ok y) (variants v) (variants v').
Proof.
  intros Hok Hh.
  destruct (decide (Exists (λ variant, value variant = None) (variants v)))
    as [Hex|Hnex].
  { by rewrite specialize_variation_point_null in Hok. }
  apply not_Exists_Forall in Hnex; [|intros ?; apply _].
  destruct (specialize_variation_point_Expr i v Hh) as (vs & Hv & Hvs).
  { eapply Forall_impl; [exact Hnex|]. intros variant Hv. exact Hv. }
  rewrite Hv in Hok. injection Hok as <-. cbn.
  split; [done|]. split; [done|]. by apply forM_Ok_Forall2.
Qed.

Lemma specialize_lookup (mapping_model m : pydict VariationPoint) (i n : nat)
    (k : string) (vp : VariationPoint) :
  specialize mapping_model i = Ok m →
  mapping_model !! n = Some (k, vp) →
  ∃ vp', m !! n = Some (k, vp') ∧ specialize_variation_point i vp = Ok vp'.
Proof.
  intros Hm Hn. unfold specialize in Hm.
  destruct (forM_Ok_lookup _ _ _ Hm _ _ Hn) as ([k' vp'] & Hn' & Hstep).
  destruct (specialize_variation_point i vp) as [v'|e] eqn:Hsp; simplify_eq/=.
  by exists vp'.
Qed.

(** X14. The models made for two different configuration indices give
    different handlers to a variation point handled by ["Expr"]: the
    placeholders of different recursion levels never coincide. *)
Theorem specialized_handlers_distinct (mapping_model : pydict VariationPoint)
    (configurations : list Configuration) (ms : list (pydict VariationPoint))
    (i j : nat) (mi mj : pydict VariationPoint)
    (n : nat) (k : string) (vp : VariationPoint)
    (Hms : mapping_model_by_configurations mapping_model configurations = Ok ms)
    (Hi : ms !! i = Some mi) (Hj : ms !! j = Some mj) (Hij : i ≠ j)
    (Hn : mapping_model !! n = Some (k, vp)) (Hh : handler vp = "Expr") :
  ∃ vpi vpj,
    mi !! n = Some (k, vpi) ∧ mj !! n = Some (k, vpj)
    ∧ handler vpi ≠ handler vpj.
Proof.
  apply mapping_model_by_configurations_Ok_lookup in Hms as [_ Hat].
  destruct (specialize_lookup _ _ _ _ _ _ (Hat _ _ Hi) Hn) as (vpi & Hni & Hspi).
  destruct (specialize_lookup _ _ _ _ _ _ (Hat _ _ Hj) Hn) as (vpj & Hnj & Hspj).
  exists vpi, vpj. split; [done|]. split; [done|].
  apply specialize_variation_point_Ok_inv in Hspi as (_ & -> & _); [|done].
  apply specialize_variation_point_Ok_inv in Hspj as (_ & -> & _); [|done].
  intros Heq. by apply Expr_handler_inj in Heq.
Qed.

Lemma specialized_handlers_distinct_witness :
  ∃ vpi vpj,
    Example_levels.level0 !! 0 = Some ("Op", vpi)
    ∧ Example_levels.level1 !! 0 = Some ("Op", vpj)
    ∧ handler vpi ≠ handler vpj.
Proof.
  apply (specialized_handlers_distinct Example_Expr.model
           [Example_Expr.config; Example_Expr.config]
           [Example_levels.level0; Example_levels.level1]
           0 1 Example_levels.level0 Example_levels.level1 0 "Op"
           {| feature := "Op"; handler := "Expr";
              variants := [ {| identifier := "Add"; value := Some "Expr + Expr" |} ] |});
    [vm_compute; reflexivity | reflexivity | reflexivity | lia | reflexivity | reflexivity].
Defined.

(** X15. The recursion is chained through the handlers: in the model made
    for configuration index [i], every variant value of a variation point
    handled by ["Expr"] has its occurrences of ["Expr"] replaced by exactly
    the handler that the same variation point carries in the model made for
    index [i+1]. *)
Theorem specialized_values_name_next_handler (mapping_model : pydict VariationPoint)
    (configurations : list Configuration) (ms : list (pydict VariationPoint))
    (i : nat) (mi mj : pydict VariationPoint)
    (n : nat) (k : string) (vp : VariationPoint)
    (Hms : mapping_model_by_configurations mapping_model configurations = Ok ms)
    (Hi : ms !! i = Some mi) (Hj : ms !! S i = Some mj)
    (Hn : mapping_model !! n = Some (k, vp)) (Hh : handler vp = "Expr") :
  ∃ vpi vpj,
    mi !! n = Some (k, vpi) ∧ mj !! n = Some (k, vpj)
    ∧ Forall2 (λ v vi, ∃ s, value v = Some s
                 ∧ identifier vi = identifier v
                 ∧ value vi = Some (str_replace "Expr" (handler vpj) s))
        (variants vp) (variants vpi).
Proof.
  apply mapping_model_by_configurations_Ok_lookup in Hms as [_ Hat].
  destruct (specialize_lookup _ _ _ _ _ _ (Hat _ _ Hi) Hn) as (vpi & Hni & Hspi).
  destruct (specialize_lookup _ _ _ _ _ _ (Hat _ _ Hj) Hn) as (vpj & Hnj & Hspj).
  exists vpi, vpj. split; [done|]. split; [done|].
  apply specialize_variation_point_Ok_inv in Hspi as (_ & _ & Hvs); [|done].
  apply specialize_variation_point_Ok_inv in Hspj as (_ & -> & _); [|done].
  eapply Forall2_impl; [exact Hvs|]. intros v vi Hv. cbn beta in Hv.
  pose proof (specialize_variant_cases i v) as Hc.
  destruct (value v) as [s|]; [|congruence].
  exists s. split; [done|]. rewrite Hc in Hv. by injection Hv as <-.
Qed.

Lemma specialized_values_name_next_handler_witness :
  ∃ vpi vpj,
    Example_levels.level0 !! 0 = Some ("Op", vpi)
    ∧ Example_levels.level1 !! 0 = Some ("Op", vpj)
    ∧ Forall2 (λ v vi, ∃ s, value v = Some s
                 ∧ identifier vi = identifier v
                 ∧ value vi = Some (str_replace "Expr" (handler vpj) s))
        [ {| identifier := "Add"; value := Some "Expr + Expr" |} ] (variants vpi).
Proof.
  apply (specialized_values_name_next_handler Example_Expr.model
           [Example_Expr.config; Example_Expr.config]
           [Example_levels.level0; Example_levels.level1]
           0 Example_levels.level0 Example_levels.level1 0 "Op"
           {| feature := "Op"; handler := "Expr";
              variants := [ {| identifier := "Add"; value := Some "Expr + Expr" |} ] |});
    [vm_compute; reflexivity | reflexivity | reflexivity | reflexivity | reflexivity].
Defined.

(** ** The template map, further *)

(** X16. A key of the template map never contains ['.'], and it is the
    handler of a variation point of the mapping model whose governing
    feature is selected in some supplied configuration. *)
Theorem build_template_maps_keys (fm : FeatureModel)
    (mapping_model : pydict VariationPoint)
    (configurations : list Configuration) (attributes : list (gmap string string))
    (maps : gmap string pyval) (h : string) (x : pyval)
    (Hmaps : build_template_maps fm mapping_model configurations attributes = Ok maps)
    (Hh : maps !! h = Some x) :
  in_str "."%char h = false
  ∧ ∃ vp, vp ∈ values mapping_model ∧ handler vp = h
          ∧ is_selected_in_a_configuration (feature vp) configurations = true.
Proof.
  pose proof (build_template_maps_loop fm configurations attributes
                (values mapping_model)) as Hloop.
  unfold build_template_maps in Hmaps. rewrite Hmaps in Hloop.
  specialize (Hloop h). unfold entry_rule in Hloop.
  destruct (last (writers configurations h (values mapping_model))) as [vp|] eqn:Hlast;
    [|congruence].
  apply last_Some_elem_of in Hlast. unfold writers in Hlast.
  apply list_elem_of_filter in Hlast as [[<- Hskip] Hin].
  unfold vp_skipped in Hskip. apply orb_false_iff in Hskip as [Hdot Hsel].
  split; [done|]. exists vp. split; [done|]. split; [done|].
  by apply negb_false_iff.
Qed.

Lemma build_template_maps_keys_witness :
  in_str "."%char "Op" = false
  ∧ ∃ vp, vp ∈ values Example_maps.model ∧ handler vp = "Op"
          ∧ is_selected_in_a_configuration (feature vp) [Example_maps.config] = true.
Proof.
  apply (build_template_maps_keys Example_maps.fm Example_maps.model
           [Example_maps.config] []
           {[ "Op" := PyStr "minus"; "Flag" := PyTrue ]} "Op" (PyStr "minus"));
    [vm_compute; reflexivity | reflexivity].
Defined.

Lemma build_template_maps_loop_unselected (fm : FeatureModel)
    (configurations : list Configuration) (attributes : list (gmap string string))
    (maps : gmap string pyval) (vps : list VariationPoint) :
  Forall (λ vp, is_selected_in_a_configuration (feature vp) configurations = false) vps →
  foldM (build_template_maps_step fm configurations attributes) maps vps = Ok maps.
Proof.
  induction 1 as [|vp vps Hvp _ IH]; [done|]. cbn [foldM].
  assert (vp_skipped configurations vp = true) as Hskip
    by (unfold vp_skipped; rewrite Hvp; apply orb_true_r).
  by rewrite build_template_maps_step_cases, Hskip.
Qed.

(** X17. When no variation point's governing feature is selected in a
    supplied configuration the template map is empty and nothing is looked
    up, so nothing raises, whatever the variants are; this is the case in
    particular with no configuration at all. *)
Theorem build_template_maps_nothing_selected (fm : FeatureModel)
    (mapping_model : pydict VariationPoint) (attributes : list (gmap string string)) :
  build_template_maps fm mapping_model [] attributes = Ok ∅
  ∧ ∀ configurations,
      Forall (λ vp, is_selected_in_a_configuration (feature vp) configurations = false)
        (values mapping_model) →
      build_template_maps fm mapping_model configurations attributes = Ok ∅.
Proof.
  split.
  - apply build_template_maps_loop_unselected, Forall_forall. by intros vp _.
  - intros configurations. apply build_template_maps_loop_unselected.
Qed.

Lemma build_template_maps_nothing_selected_witness :
  build_template_maps Example_maps.fm Example_build.unknown_guard_model
    [Example_build.select_nothing] [] = Ok ∅.
Proof.
  apply (proj2 (build_template_maps_nothing_selected Example_maps.fm
                  Example_build.unknown_guard_model [])).
  repeat constructor.
Defined.

(** X18. [build_template_maps] returns whenever every variant guard of the
    mapping model names a feature of the model, and the only thing it
    raises is the unknown-feature exception for a guard name, absent from
    the model, of a variant of a variation point that is not skipped. *)
Theorem build_template_maps_raises_only_unknown_guard (fm : FeatureModel)
    (mapping_model : pydict VariationPoint)
    (configurations : list Configuration) (attributes : list (gmap string string)) :
  (Forall (λ vp, Forall (λ v, guard_name v ∈ fm_features fm) (variants vp))
     (values mapping_model) →
   ∃ maps, build_template_maps fm mapping_model configurations attributes = Ok maps)
  ∧ (∀ e, build_template_maps fm mapping_model configurations attributes = Raise e →
       ∃ vp v, vp ∈ values mapping_model
               ∧ in_str "."%char (handler vp) = false
               ∧ is_selected_in_a_configuration (feature vp) configurations = true
               ∧ v ∈ variants vp
               ∧ e = UnknownFeature (guard_name v)
               ∧ guard_name v ∉ fm_features fm).
Proof.
  pose proof (build_template_maps_loop fm configurations attributes
                (values mapping_model)) as Hloop.
  unfold build_template_maps.
  assert (∀ e, foldM (build_template_maps_step fm configurations attributes) ∅
                 (values mapping_model) = Raise e →
       ∃ vp v, vp ∈ values mapping_model
               ∧ in_str "."%char (handler vp) = false
               ∧ is_selected_in_a_configuration (feature vp) configurations = true
               ∧ v ∈ variants vp
               ∧ e = UnknownFeature (guard_name v)
               ∧ guard_name v ∉ fm_features fm) as Hraise.
  { intros e He. rewrite He in Hloop.
    destruct Hloop as (vp & Hin & Hskip & _ & Hv).
    pose proof (get_variant_value_loop_outcome fm (variants vp) configurations attributes)
      as Hout.
    unfold get_variant_value in Hv. rewrite Hv in Hout.
    destruct Hout as (v & Hvin & -> & Hnin).
    unfold vp_skipped in Hskip. apply orb_false_iff in Hskip as [Hdot Hsel].
    exists vp, v. repeat split; try done. by apply negb_false_iff. }
  split; [|exact Hraise].
  intros Hall.
  destruct (foldM (build_template_maps_step fm configurations attributes) ∅
              (values mapping_model)) as [maps|e]; [by eexists|].
  destruct (Hraise e eq_refl) as (vp & v & Hin & _ & _ & Hvin & _ & Hnin).
  rewrite Forall_forall in Hall. specialize (Hall vp Hin).
  rewrite Forall_forall in Hall. by specialize (Hall v Hvin).
Qed.

Lemma build_template_maps_raises_only_unknown_guard_witness :
  (∃ maps, build_template_maps Example_maps.fm [("Op", Example_maps.Op)]
             [Example_maps.config] [] = Ok maps)
  ∧ ∃ vp v, vp ∈ values Example_build.unknown_guard_model
            ∧ in_str "."%char (handler vp) = false
            ∧ is_selected_in_a_configuration (feature vp) [Example_build.select_Op] = true
            ∧ v ∈ variants vp
            ∧ UnknownFeature "Mul" = UnknownFeature (guard_name v)
            ∧ guard_name v ∉ fm_features Example_maps.fm.
Proof.
  split.
  - apply (proj1 (build_template_maps_raises_only_unknown_guard _ _ _ _)).
    repeat constructor.
  - apply (proj2 (build_template_maps_raises_only_unknown_guard Example_maps.fm
                    Example_build.unknown_guard_model [Example_build.select_Op] [])).
    reflexivity.
Defined.

(** X19. Loading and building compose: on a mapping model that
    [load_mapping_model] has returned, the only thing [build_template_maps]
    raises is the unknown-feature exception for the guard name of the
    variant of one of the rows (the text of its [VariantIdentifier] before
    the first ['.']), a name absent from the model; when every row's guard
    names a feature of the model, it returns. *)
Theorem load_then_build_raises_only_unknown_row_guard (rows : list Row)
    (fm : FeatureModel) (mapping_model : pydict VariationPoint)
    (configurations : list Configuration) (attributes : list (gmap string string))
    (Hload : load_mapping_model rows fm = Ok mapping_model) :
  (Forall (λ row, guard_name (row_variant row) ∈ fm_features fm) rows →
   ∃ maps, build_template_maps fm mapping_model configurations attributes = Ok maps)
  ∧ (∀ e, build_template_maps fm mapping_model configurations attributes = Raise e →
       ∃ row, row ∈ rows
              ∧ e = UnknownFeature (guard_name (row_variant row))
              ∧ guard_name (row_variant row) ∉ fm_features fm).
Proof.
  pose proof (load_mapping_model_outcome rows fm) as Hout. rewrite Hload in Hout.
  destruct Hout as (_ & _ & Hvps). rewrite Forall_forall in Hvps.
  pose proof (build_template_maps_loop fm configurations attributes
                (values mapping_model)) as Hloop.
  unfold build_template_maps.
  assert (∀ e, foldM (build_template_maps_step fm configurations attributes) ∅
                 (values mapping_model) = Raise e →
       ∃ row, row ∈ rows
              ∧ e = UnknownFeature (guard_name (row_variant row))
              ∧ guard_name (row_variant row) ∉ fm_features fm) as Hraise.
  { intros e He. rewrite He in Hloop.
    destruct Hloop as (vp & Hin & _ & _ & Hv).
    pose proof (get_variant_value_loop_outcome fm (variants vp) configurations attributes)
      as Hout.
    unfold get_variant_value in Hv. rewrite Hv in Hout.
    destruct Hout as (v & Hvin & -> & Hnin).
    destruct (Hvps vp Hin) as (_ & _ & Hrows). rewrite Forall_forall in Hrows.
    destruct (Hrows v Hvin) as (row & Hrow & ->). by exists row. }
  split; [|exact Hraise].
  intros Hall.
  destruct (foldM (build_template_maps_step fm configurations attributes) ∅
              (values mapping_model)) as [maps|e]; [by eexists|].
  destruct (Hraise e eq_refl) as (row & Hrow & _ & Hnin).
  rewrite Forall_forall in Hall. by specialize (Hall row Hrow).
Qed.

Lemma load_then_build_raises_only_unknown_row_guard_witness :
  (∃ maps, build_template_maps Example_rows.fm [("Op", Example_rows.Op)]
             [Example_rows.select_Sub] [] = Ok maps)
  ∧ ∃ row, row ∈ Example_build.unknown_guard_rows
           ∧ UnknownFeature "Mul" = UnknownFeature (guard_name (row_variant row))
           ∧ guard_name (row_variant row) ∉ fm_features Example_maps.fm.
Proof.
  split.
  - apply (proj1 (load_then_build_raises_only_unknown_row_guard
                    [Example_rows.plain1; Example_rows.plain2] Example_rows.fm
                    [("Op", Example_rows.Op)] [Example_rows.select_Sub] [] eq_refl)).
    repeat constructor.
  - apply (proj2 (load_then_build_raises_only_unknown_row_guard
                    Example_build.unknown_guard_rows Example_maps.fm
                    Example_build.unknown_guard_model [Example_build.select_Op] []
                    eq_refl)).
    reflexivity.
Defined.

(** ** One level of the recursion: specialise, then build *)

Lemma filter_unique_position {A : Type} (P : A → Prop) `{!∀ x, Decision (P x)}
    (l : list A) (n : nat) (x : A) :
  l !! n = Some x → P x →
  (∀ n' y, l !! n' = Some y → n' ≠ n → ¬ P y) →
  filter P l = [x].
Proof.
  revert n. induction l as [|a l IH]; intros [|n] Hn HP Hothers; simplify_eq/=.
  - rewrite filter_cons_True by done. f_equal.
    apply filter_nil_Forall, Forall_forall. intros y Hy.
    apply list_elem_of_lookup in Hy as [n' Hn'].
    by apply (Hothers (S n') y).
  - rewrite filter_cons_False by (by apply (Hothers 0 a)).
    apply (IH n); [done..|]. intros n' y Hy Hne.
    apply (Hothers (S n') y); [done|lia].
Qed.

(** The decimal text of an integer has no ['.'], so neither has a handler
    of the ["Expr"] family. *)
Lemma in_str_app (c : ascii) (s r : string) :
  in_str c (s +:+ r) = in_str c s || in_str c r.
Proof.
  induction s as [|a s IH]; [done|].
  rewrite append_String. cbn [in_str]. rewrite IH. by destruct (decide (a = c)).
Qed.

Lemma in_str_dot_string_of_uint (d : Decimal.uint) :
  in_str "."%char (NilEmpty.string_of_uint d) = false.
Proof. induction d; cbn [NilEmpty.string_of_uint in_str]; by rewrite ?decide_False. Qed.

Lemma in_str_dot_str_of_int (z : Z) : in_str "."%char (str_of_int z) = false.
Proof.
  assert (∀ d, in_str "."%char (NilZero.string_of_uint d) = false) as Hu.
  { intros d. pose proof (in_str_dot_string_of_uint d) as Hd. by destruct d. }
  unfold str_of_int. destruct (Z.to_int z) as [d|d]; cbn [NilZero.string_of_int in_str].
  - apply Hu.
  - rewrite decide_False by done. apply Hu.
Qed.

Lemma in_str_dot_Expr_handler (i : nat) : in_str "."%char (Expr_handler i) = false.
Proof.
  destruct i as [|j]; [done|]. cbn [Expr_handler].
  by rewrite in_str_app, in_str_dot_str_of_int.
Qed.

Lemma specialize_variant_Ok_inv (i : nat) (x y : Variant) :
  specialize_variant i x = Ok y →
  identifier y = identifier x
  ∧ ∃ s, value x = Some s ∧ value y = Some (str_replace "Expr" (Expr_handler (S i)) s).
Proof.
  intros Hok. pose proof (specialize_variant_cases i x) as Hc.
  destruct (value x) as [s|]; [|congruence].
  rewrite Hc in Hok. injection Hok as <-. split; [done|]. by exists s.
Qed.

Lemma guard_name_identifier (x y : Variant) :
  identifier y = identifier x → guard_name y = guard_name x.
Proof. unfold guard_name. by intros ->. Qed.

Lemma passed_over_identifier (fm : FeatureModel) (configurations : list Configuration)
    (x y : Variant) :
  identifier y = identifier x →
  passed_over fm configurations x → passed_over fm configurations y.
Proof.
  intros Hid. unfold passed_over, guard_satisfied.
  by rewrite (guard_name_identifier x y Hid).
Qed.

(** X20. One level of the recursion, end to end. Take the model made for
    configuration index [i] and build the template map from it. If the
    mapping model has one variation point handled by ["Expr"] (and no other
    handler collides with its new name), its governing feature is selected,
    and [v] is its first variant whose guard is satisfied, then the map
    holds, under the handler of level [i], the value of [v] in which every
    ["Expr"] has been replaced by the handler of level [i+1]; when [v] is
    an attribute variant, it holds the attribute's value, which is not
    rewritten. *)
Theorem recursion_level_entry (fm : FeatureModel)
    (mapping_model m : pydict VariationPoint) (i : nat)
    (configurations : list Configuration) (attributes : list (gmap string string))
    (maps : gmap string pyval)
    (n : nat) (k : string) (vp : VariationPoint)
    (pre rest : list Variant) (v : Variant)
    (Hm : specialize mapping_model i = Ok m)
    (Hmaps : build_template_maps fm m configurations attributes = Ok maps)
    (Hn : mapping_model !! n = Some (k, vp))
    (Hh : handler vp = "Expr")
    (Hothers : ∀ n' k' vp', mapping_model !! n' = Some (k', vp') → n' ≠ n →
                 handler vp' ≠ "Expr" ∧ handler vp' ≠ Expr_handler i)
    (Hsel : is_selected_in_a_configuration (feature vp) configurations = true)
    (Hpres : presence_only vp = false)
    (Hvs : variants vp = pre ++ v :: rest)
    (Hpre : Forall (passed_over fm configurations) pre)
    (Hv : guard_name v ∈ fm_features fm)
    (Hsat : guard_satisfied configurations v = true) :
  ∃ s, value v = Some s
       ∧ maps !! Expr_handler i
         = Some (if in_str "."%char (identifier v)
                 then pyval_of (get_attribute_value (identifier v) attributes)
                 else PyStr (str_replace "Expr" (Expr_handler (S i)) s)).
Proof.
  destruct (specialize_lookup _ _ _ _ _ _ Hm Hn) as (vp' & Hn' & Hsp).
  destruct (specialize_variation_point_Ok_inv _ _ _ Hsp Hh) as (Hf & Hh' & Hvs').
  (* the specialised variation point is the only writer of its handler *)
  assert (vp_skipped configurations vp' = false) as Hskip.
  { unfold vp_skipped. by rewrite Hh', Hf, Hsel, in_str_dot_Expr_handler. }
  assert (writers configurations (Expr_handler i) (values m) = [vp']) as Hwriters.
  { unfold writers. apply (filter_unique_position _ _ n).
    - unfold values. rewrite list_lookup_fmap.
      exact (f_equal (fmap snd) Hn').
    - done.
    - intros n' y Hy Hne [Hhy _]. unfold values in Hy.
      rewrite list_lookup_fmap in Hy.
      apply fmap_Some in Hy as ([k' y'] & Hm' & ->). cbn [snd] in Hhy.
      assert (n' < length mapping_model) as Hlt.
      { unfold specialize in Hm. apply forM_Ok_length in Hm.
        apply lookup_lt_Some in Hm'. lia. }
      apply lookup_lt_is_Some_2 in Hlt as [[k0 vp0] Hn0].
      destruct (Hothers _ _ _ Hn0 Hne) as [HnE Hnh].
      destruct (specialize_lookup _ _ _ _ _ _ Hm Hn0) as (y0 & Hy0 & Hsp0).
      rewrite specialize_variation_point_other in Hsp0 by done.
      injection Hsp0 as <-.
      pose proof (eq_trans (eq_sym Hm') Hy0) as Heq. by injection Heq as <- <-. }
  (* the variants of the specialised variation point *)
  rewrite Hvs in Hvs'.
  apply Forall2_app_inv_l in Hvs' as (pre' & tl' & Hpre' & Htl' & Hvariants').
  apply Forall2_cons_inv_l in Htl' as (v' & rest' & Hv' & _ & ->).
  apply specialize_variant_Ok_inv in Hv' as (Hid & s & Hs & Hs').
  exists s. split; [done|].
  assert (presence_only vp' = false) as Hpres'.
  { unfold presence_only in *. rewrite Hvariants'. rewrite Hvs in Hpres.
    destruct Hpre' as [|x y pre0 pre0' Hxy _]; cbn [app] in *.
    - by rewrite Hid.
    - apply specialize_variant_Ok_inv in Hxy as [-> _]. done. }
  assert (get_variant_value fm vp' configurations attributes
          = Ok (candidate_value v' attributes)) as Hvalue.
  { unfold get_variant_value. rewrite Hvariants'.
    rewrite get_variant_value_loop_passed.
    - cbn [get_variant_value_loop]. rewrite (guard_name_identifier v v' Hid).
      rewrite (get_feature_from_fm_known _ _ Hv). cbn [mbind result_bind].
      unfold guard_satisfied in Hsat. by rewrite Hsat.
    - clear -Hpre Hpre'. induction Hpre' as [|x y l l' Hxy _ IH]; [constructor|].
      apply Forall_cons in Hpre as [Hx Hl]. constructor; [|by apply IH].
      apply specialize_variant_Ok_inv in Hxy as [Hid _].
      by apply (passed_over_identifier fm configurations x y). }
  pose proof (build_template_maps_loop fm configurations attributes (values m)) as Hloop.
  unfold build_template_maps in Hmaps. rewrite Hmaps in Hloop.
  specialize (Hloop (Expr_handler i)). rewrite Hwriters in Hloop.
  cbn [last entry_rule] in Hloop. rewrite Hpres' in Hloop.
  destruct Hloop as (r & Hr & ->). rewrite Hvalue in Hr. injection Hr as <-.
  unfold candidate_value. rewrite Hid.
  destruct (in_str "."%char (identifier v)); [done|]. by rewrite Hs'.
Qed.

Lemma recursion_level_entry_witness :
  ∃ s, Some "Expr + Expr" = Some s
       ∧ ({[ "Expr0" := PyStr "Expr1 + Expr1" ]} : gmap string pyval) !! "Expr0"
         = Some (PyStr (str_replace "Expr" "Expr1" s)).
Proof.
  apply (recursion_level_entry Example_recursion.fm Example_recursion.model
           Example_recursion.level1 1 [Example_recursion.select_Add] []
           {[ "Expr0" := PyStr "Expr1 + Expr1" ]} 0 "Op" Example_recursion.Op
           [ {| identifier := "Neg"; value := Some "-Expr" |} ]
           [] {| identifier := "Add"; value := Some "Expr + Expr" |}).
  - reflexivity.
  - vm_compute. reflexivity.
  - reflexivity.
  - reflexivity.
  - intros [|n'] k' vp' Hn' Hne; [done|]. by destruct n'.
  - reflexivity.
  - reflexivity.
  - reflexivity.
  - repeat constructor.
  - compute_done.
  - reflexivity.
Defined.

(** ** Finding the input files *)

Lemma str_endswith_length (suffix s : string) :
  str_endswith suffix s = true → (String.length suffix ≤ String.length s)%nat.
Proof.
  induction s as [|a s IH]; cbn [str_endswith].
  - destruct (decide (EmptyString = suffix)) as [<-|]; [done|]. by intros.
  - destruct (decide (String a s = suffix)) as [<-|]; [done|].
    intros Hs%IH. cbn [String.length]. lia.
Qed.

Lemma str_endswith_same_length (suffix suffix' s : string) :
  str_endswith suffix s = true → str_endswith suffix' s = true →
  String.length suffix = String.length suffix' → suffix = suffix'.
Proof.
  induction s as [|a s IH]; cbn [str_endswith]; intros H1 H2 Hlen.
  - destruct (decide (EmptyString = suffix)) as [<-|]; [|done].
    by destruct (decide (EmptyString = suffix')) as [<-|].
  - destruct (decide (String a s = suffix)) as [<-|],
             (decide (String a s = suffix')) as [<-|]; [done| | |by apply IH].
    + apply str_endswith_length in H2. cbn [String.length] in Hlen. lia.
    + apply str_endswith_length in H1. cbn [String.length] in Hlen. lia.
Qed.

Section get_files_properties.
Variable path_join : string → string → string.
Variable path_splitext : string → string * string.

Local Abbreviation is_xml := (has_extension path_splitext "xml") (only parsing).
Local Abbreviation is_csv := (has_extension path_splitext "csv") (only parsing).

Lemma get_files_file_spec (root : string) (acc : list string * list string)
    (file : string) :
  get_files_file path_join path_splitext root acc file
  = (acc.1 ++ filter is_xml [path_join root file],
     acc.2 ++ filter is_csv [path_join root file]).
Proof.
  unfold get_files_file, has_extension.
  destruct (str_endswith "xml" (path_splitext (path_join root file)).2) eqn:Hxml.
  - rewrite (filter_cons_True _ _ []), filter_nil by done.
    rewrite (filter_cons_False _ _ []), filter_nil, app_nil_r; [done|].
    intros Hcsv. by pose proof (str_endswith_same_length _ _ _ Hxml Hcsv eq_refl).
  - rewrite (filter_cons_False _ _ []), filter_nil, app_nil_r by congruence.
    destruct (str_endswith "csv" (path_splitext (path_join root file)).2) eqn:Hcsv.
    + by rewrite (filter_cons_True _ _ []), filter_nil by done.
    + rewrite (filter_cons_False _ _ []), filter_nil, app_nil_r by congruence.
      by destruct acc.
Qed.

Lemma get_files_files_loop (root : string) (files : list string)
    (acc : list string * list string) :
  foldl (get_files_file path_join path_splitext root) acc files
  = (acc.1 ++ filter is_xml (path_join root <$> files),
     acc.2 ++ filter is_csv (path_join root <$> files)).
Proof.
  revert acc. induction files as [|file files IH]; intros acc.
  - cbn [foldl fmap list_fmap]. rewrite !filter_nil, !app_nil_r. by destruct acc.
  - cbn [foldl]. rewrite IH, get_files_file_spec, fmap_cons. cbn [fst snd].
    by rewrite <- !app_assoc, <- !filter_app.
Qed.

Lemma get_files_walk_loop (walk : list (string * list string * list string))
    (acc : list string * list string) :
  foldl (λ acc '(root, dirs, files),
           foldl (get_files_file path_join path_splitext root) acc files) acc walk
  = (acc.1 ++ filter is_xml (walked_paths path_join walk),
     acc.2 ++ filter is_csv (walked_paths path_join walk)).
Proof.
  revert acc. induction walk as [|[[root dirs] files] walk IH]; intros acc.
  - destruct acc as [cs atts]. unfold walked_paths.
    cbn [foldl fmap list_fmap concat fst snd].
    by rewrite !filter_nil, !app_nil_r.
  - cbn [foldl]. rewrite IH, get_files_files_loop. cbn [fst snd].
    unfold walked_paths. rewrite fmap_cons. cbn [concat fst snd].
    by rewrite !filter_app, <- !app_assoc.
Qed.

Lemma get_files_spec (walk : list (string * list string * list string)) :
  get_files path_join path_splitext walk
  = (sorting.merge_sort String.le (filter is_xml (walked_paths path_join walk)),
     sorting.merge_sort String.le (filter is_csv (walked_paths path_join walk))).
Proof. unfold get_files. by rewrite get_files_walk_loop. Qed.

(** X21. [get_files] returns two lists in ascending order; the first holds
    exactly the walked paths whose extension ends with ["xml"], the second
    exactly those whose extension ends with ["csv"], each as many times as
    the walk yields it; no path is in both. *)
Theorem get_files_sorted_selection (walk : list (string * list string * list string)) :
  let '(configurations_files, attributes_files) :=
    get_files path_join path_splitext walk in
  Sorted.StronglySorted String.le configurations_files
  ∧ Sorted.StronglySorted String.le attributes_files
  ∧ configurations_files ≡ₚ filter is_xml (walked_paths path_join walk)
  ∧ attributes_files ≡ₚ filter is_csv (walked_paths path_join walk)
  ∧ ∀ filepath, ¬ (filepath ∈ configurations_files ∧ filepath ∈ attributes_files).
Proof.
  rewrite get_files_spec.
  split; [apply sorting.StronglySorted_merge_sort; apply _|].
  split; [apply sorting.StronglySorted_merge_sort; apply _|].
  split; [apply sorting.merge_sort_Permutation|].
  split; [apply sorting.merge_sort_Permutation|].
  intros filepath [Hxml Hcsv].
  rewrite sorting.merge_sort_Permutation in Hxml. rewrite sorting.merge_sort_Permutation in Hcsv.
  apply list_elem_of_filter in Hxml as [Hxml _].
  apply list_elem_of_filter in Hcsv as [Hcsv _].
  by pose proof (str_endswith_same_length _ _ _ Hxml Hcsv eq_refl).
Qed.

(** X22. The result of [get_files] does not depend on the order in which
    the walk visits the directories or lists their files: two walks that
    yield the same paths, in any order, give the same two lists. *)
Theorem get_files_walk_order_irrelevant
    (walk walk' : list (string * list string * list string))
    (Hsame : walked_paths path_join walk ≡ₚ walked_paths path_join walk') :
  get_files path_join path_splitext walk = get_files path_join path_splitext walk'.
Proof.
  rewrite !get_files_spec. f_equal.
  - apply (sorting.StronglySorted_unique String.le);
      [apply sorting.StronglySorted_merge_sort; apply _..|].
    by rewrite !sorting.merge_sort_Permutation, Hsame.
  - apply (sorting.StronglySorted_unique String.le);
      [apply sorting.StronglySorted_merge_sort; apply _..|].
    by rewrite !sorting.merge_sort_Permutation, Hsame.
Qed.

End get_files_properties.

Lemma get_files_walk_order_irrelevant_witness :
  get_files Example_files.join Example_files.splitext Example_files.walk
  = get_files Example_files.join Example_files.splitext Example_files.walk_other_order.
Proof.
  apply get_files_walk_order_irrelevant.
  exact (Permutation_rev ["in/b.xml"; "in/a.csv"; "in/notes.txt"; "in/sub/a.xml"]).
Defined.
